(** * OSARA parameters UI: a shallow embedding of [paramsUi.cpp] and
    [fxChain.cpp], with the properties of the parameter layer, the
    container-aware FX iterator and the value navigator.

  Conventions of the embedding.
  - [int] values are integers ([Z]).  In the FX iterator, whose sums and
    products can leave the range of [int], each is reduced to 32 bits in
    two's complement ([FxIterator.int]), as the binary does; elsewhere
    the sums stay within the range.
  - [double] values are IEEE-754 binary64 numbers, the kernel's primitive
    [float]; [==], [<] and [<=] are [PrimFloat.eqb], [ltb] and [leb].
  - [std::string] and C strings are [string]s (no embedded NUL).
  - A [std::vector] used as a stack is a list whose head is [back()].
  - Undefined behaviour ([back()] of an empty vector, a negative index)
    is the result [None].  The conversion of a [double] that is out of
    range to [int] is the processor's, a parameter of the model.
  - Loops that need not terminate take fuel, and [None] is also the result
    of a run that exhausts it.
  - [std::regex] is a backtracking matcher of the ECMAScript grammar:
    alternatives are tried in order of priority, [^] and [$] match at the
    two ends of the text only.
  - Host (REAPER) functions are fields of a host record or variables of a
    section.

  The first part holds the definitions, module by module as the source
  has its classes; the second part holds the properties. *)

From Stdlib Require Import ZArith List String Ascii Bool Lia.
From Stdlib Require Import Setoid Morphisms.
From Stdlib Require Import Floats.PrimFloat Floats.FloatOps Floats.SpecFloat
  Floats.FloatAxioms.
From Stdlib Require Uint63.
From Stdlib Require Import Numbers.DecimalString Numbers.DecimalFacts Numbers.DecimalZ.
Import ListNotations.

(* Decimal literals denote the nearest binary64 value, as in C++. *)
Set Warnings "-inexact-float,-register-all".

Local Open Scope Z_scope.

(** ** FxIterator: iteration through effects, including effects in containers *)

Module FxIterator.

(** What the iterator asks of the host, every number an [int].  [is_track]
    is the template test
    [is_same_v<ReaperObj, MediaTrack*>]; [FX_GetCount] is
    [TrackFX_GetCount]/[TakeFX_GetCount]; [container_count i] is
    [atoi] of the answer to [*FX_GetNamedConfigParm(obj, i,
    "container_count")], the buffer being preset to ["0"]. *)
Record Host : Type := {
  is_track : bool;
  FX_GetCount : Z;
  TrackFX_GetRecCount : Z;
  container_count : Z -> Z
}.

(** The arithmetic of [int]: a value reduced to 32 bits in two's
    complement, which is what the binary computes where the exact value
    leaves the range of [int]. *)
Definition int (x : Z) : Z := (x + 2 ^ 31) mod 2 ^ 32 - 2 ^ 31.

(** The values of an [int]. *)
Definition in_int (x : Z) : Prop := - 2 ^ 31 <= x <= 2 ^ 31 - 1.

(** What the host reports are [int]s. *)
Definition Host_int (h : Host) : Prop :=
  in_int (FX_GetCount h) /\ in_int (TrackFX_GetRecCount h)
  /\ forall i, in_int (container_count h i).

Record StackItem : Type := {
  indexInContainer : Z;
  containerCount : Z;
  containerFxIndex : Z;
  multiplier : Z
}.

(** The members of [FxIterator] that change. *)
Record t : Type := {
  stack : list StackItem;
  rec : bool;
  fxIndex : Z;
  containedCount : Z
}.

Definition set_index (i : Z) (f : StackItem) : StackItem :=
  {| indexInContainer := i;
     containerCount := containerCount f;
     containerFxIndex := containerFxIndex f;
     multiplier := multiplier f |}.

(** The constructor: the first [next] moves to effect 0. *)
Definition make (h : Host) : t :=
  {| stack := [ {| indexInContainer := -1;
                   containerCount := FX_GetCount h;
                   containerFxIndex := 0;
                   multiplier := 1 |} ];
     rec := false;
     fxIndex := -1;
     containedCount := 0 |}.

Definition base_offset (r : bool) : Z := if r then 0x1000000 else 0.

(** [success]: cache the flat index of the effect on top of the stack and
    ask the host how many effects it contains.  Every sum and product is
    one of [int]s.  [None] stands for [back()] of an empty vector. *)
Definition success (h : Host) (stk : list StackItem) (r : bool)
  : option (bool * t) :=
  match stk with
  | [] => None
  | item :: up =>
      let i :=
        int (base_offset r +
             (if (Z.of_nat (List.length stk) =? 1)
              then indexInContainer item
              else int (int (int (indexInContainer item + 1) * multiplier item)
                        + containerFxIndex item))) in
      Some (true, {| stack := stk; rec := r; fxIndex := i;
                     containedCount := container_count h i |})
  end.

(** The [for (;;)] loop of [next]: increment the cursor of the top frame;
    when it runs past the container, pop the frame and go on with the one
    below.  [None] is the [break] on an empty stack. *)
Fixpoint walk (stk : list StackItem) : option (list StackItem) :=
  match stk with
  | [] => None
  | current :: up =>
      let i := int (indexInContainer current + 1) in
      if i <? containerCount current
      then Some (set_index i current :: up)
      else walk up
  end.

Definition firstRec (h : Host) (it : t) : option (bool * t) :=
  let count := TrackFX_GetRecCount h in
  if 0 <? count
  then success h
         ({| indexInContainer := 0; containerCount := count;
             containerFxIndex := 0; multiplier := 1 |} :: stack it)
         true
  else Some (false, it).

(** [next]: the returned boolean and the iterator after the call.  [None]
    is the undefined call on an iterator whose stack is empty. *)
Definition next (h : Host) (it : t) : option (bool * t) :=
  match stack it with
  | [] => None
  | current :: _ =>
      if negb (containedCount it =? 0) then
        let sub :=
          {| indexInContainer := 0;
             containerCount := containedCount it;
             containerFxIndex :=
               (if Z.of_nat (List.length (stack it)) =? 1
                then int (int (0x2000000 + indexInContainer current) + 1)
                else fxIndex it);
             multiplier :=
               int (multiplier current * int (containerCount current + 1)) |} in
        success h (sub :: stack it) (rec it)
      else
        match walk (stack it) with
        | Some stk => success h stk (rec it)
        | None =>
            let it' := {| stack := []; rec := rec it; fxIndex := fxIndex it;
                          containedCount := containedCount it |} in
            if is_track h && negb (rec it)
            then firstRec h it'
            else Some (false, it')
        end
  end.

Definition getFxIndex (it : t) : Z := fxIndex it.
Definition isContainer (it : t) : bool := negb (containedCount it =? 0).
Definition getLevel (it : t) : Z := Z.of_nat (List.length (stack it)).

(** The 1-based sibling position that [getName] prints before the name. *)
Definition position (it : t) : option Z :=
  match stack it with
  | [] => None
  | item :: _ => Some (indexInContainer item + 1)
  end.

(** One line of the menu built by [fxParams_begin]. *)
Record Node : Type := {
  node_index : Z;
  node_level : Z;
  node_position : option Z;
  node_container : bool
}.

Definition node_of (it : t) : Node :=
  {| node_index := getFxIndex it;
     node_level := getLevel it;
     node_position := position it;
     node_container := isContainer it |}.

(** The caller's loop [while (iter.next()) { ... }]: the nodes in the
    order they are yielded.  [None] when the fuel runs out before [next]
    returns false (or on the undefined call). *)
Fixpoint iterate (fuel : nat) (h : Host) (it : t) : option (list Node) :=
  match fuel with
  | O => None
  | S fuel' =>
      match next h it with
      | None => None
      | Some (false, _) => Some []
      | Some (true, it') =>
          match iterate fuel' h it' with
          | None => None
          | Some l => Some (node_of it' :: l)
          end
      end
  end.

(** The iterators a caller's loop sees: those reached from the constructor
    through calls of [next] that all returned true. *)
Inductive yielded (h : Host) : t -> Prop :=
| yielded_first it :
    next h (make h) = Some (true, it) -> yielded h it
| yielded_next it it' :
    yielded h it -> next h it = Some (true, it') -> yielded h it'.

(** The caller's loop stopped after [n] calls of [next] that all returned
    true. *)
Fixpoint run (n : nat) (h : Host) (it : t) : option t :=
  match n with
  | O => Some it
  | S n' =>
      match next h it with
      | Some (true, it') => run n' h it'
      | _ => None
      end
  end.

(** The flat index computed from one frame, as [success] computes it. *)
Definition frame_index (r : bool) (root : bool) (f : StackItem) : Z :=
  int (base_offset r +
       (if root
        then indexInContainer f
        else int (int (int (indexInContainer f + 1) * multiplier f)
                  + containerFxIndex f))).

(** How a nested frame is tied to the frame of the container it was
    entered from. *)
Fixpoint linked (r : bool) (stk : list StackItem) : Prop :=
  match stk with
  | item :: ((parent :: above) as up) =>
      multiplier item
      = int (multiplier parent * int (containerCount parent + 1))
      /\ containerFxIndex item =
           match above with
           | [] => int (int (0x2000000 + indexInContainer parent) + 1)
           | _ :: _ => frame_index r false parent
           end
      /\ linked r up
  | _ => True
  end.

Definition is_root (stk : list StackItem) : bool :=
  Z.of_nat (List.length stk) =? 1.

(** The invariant kept by [next]. *)
Definition indexed (it : t) : Prop :=
  match stack it with
  | [] => False
  | item :: _ =>
      fxIndex it = frame_index (rec it) (is_root (stack it)) item
      /\ linked (rec it) (stack it)
  end.

(** Two numbers that are the same [int]. *)
Definition eqm (x y : Z) : Prop := int x = int y.

(** [x] is the value of an [int] expression whose exact value is [e]:
    [e] reduced to 32 bits, and so [e] itself when [e] is an [int]. *)
Definition int_value (x e : Z) : Prop :=
  x = int e /\ (in_int e -> x = e).

End FxIterator.

(** ** fxChain.cpp: shortening of effect names *)

Module FxChain.

Local Open Scope string_scope.

(** [\w] in the classic locale: letters, digits and the underscore. *)
Definition is_word (c : ascii) : bool :=
  let n := nat_of_ascii c in
  ((48 <=? n) && (n <=? 57) || (65 <=? n) && (n <=? 90)
   || (97 <=? n) && (n <=? 122) || (n =? 95))%nat.

(** [.] matches every character except the line terminators LF and CR. *)
Definition is_any (c : ascii) : bool :=
  negb ((nat_of_ascii c =? 10) || (nat_of_ascii c =? 13))%nat.

(** The part of the ECMAScript grammar that [RE_FX_NAME] uses.  Quantifiers
    range over a character class; [Group n r] is the n-th capturing group. *)
Inductive regex : Type :=
| Bol                                     (* ^ *)
| Eol                                     (* $ *)
| Lit (c : ascii)
| PlusGreedy (cls : ascii -> bool)        (* cls+ *)
| PlusLazy (cls : ascii -> bool)          (* cls+? *)
| StarLazy (cls : ascii -> bool)          (* cls*? *)
| Cat (r1 r2 : regex)
| Group (n : nat) (r : regex)
| Opt (r : regex).                        (* r? (greedy) *)

(** Captured groups, the latest first. *)
Definition captures : Type := list (nat * string).

Fixpoint str (m : captures) (n : nat) : string :=
  match m with
  | [] => ""
  | (k, s) :: m' => if (k =? n)%nat then s else str m' n
  end.

(** The text between two positions of the input, each given by the input
    that remains from there on. *)
Definition consumed (from to : string) : string :=
  substring 0 (String.length from - String.length to) from.

Definition orelse {A} (x : option A) (y : option A) : option A :=
  match x with Some _ => x | None => y end.

(** Backtracking over a quantified class, by continuation [k]: the greedy
    loop tries the longest repetition first, the lazy one the shortest. *)
Fixpoint star_greedy (cls : ascii -> bool) (s : string)
  (k : string -> option captures) : option captures :=
  match s with
  | String c s' => if cls c then orelse (star_greedy cls s' k) (k s) else k s
  | EmptyString => k s
  end.

Fixpoint star_lazy (cls : ascii -> bool) (s : string)
  (k : string -> option captures) : option captures :=
  orelse (k s)
    match s with
    | String c s' => if cls c then star_lazy cls s' k else None
    | EmptyString => None
    end.

Definition plus_greedy (cls : ascii -> bool) (s : string)
  (k : string -> option captures) : option captures :=
  match s with
  | String c s' => if cls c then star_greedy cls s' k else None
  | EmptyString => None
  end.

Definition plus_lazy (cls : ascii -> bool) (s : string)
  (k : string -> option captures) : option captures :=
  match s with
  | String c s' => if cls c then star_lazy cls s' k else None
  | EmptyString => None
  end.

(** [matches r whole s m k]: match [r] at the position of [whole] where [s]
    remains, with the groups [m] captured so far, then continue with [k]. *)
Fixpoint matches (r : regex) (whole s : string) (m : captures)
  (k : string -> captures -> option captures) : option captures :=
  match r with
  | Bol => if (String.length s =? String.length whole)%nat then k s m else None
  | Eol => match s with EmptyString => k s m | _ => None end
  | Lit c =>
      match s with
      | String c' s' => if Ascii.eqb c c' then k s' m else None
      | EmptyString => None
      end
  | PlusGreedy cls => plus_greedy cls s (fun s' => k s' m)
  | PlusLazy cls => plus_lazy cls s (fun s' => k s' m)
  | StarLazy cls => star_lazy cls s (fun s' => k s' m)
  | Cat r1 r2 => matches r1 whole s m (fun s' m' => matches r2 whole s' m' k)
  | Group n r => matches r whole s m (fun s' m' => k s' ((n, consumed s s') :: m'))
  | Opt r => orelse (matches r whole s m k) (k s m)
  end.

(** The last continuation: the match is found. *)
Definition found : string -> captures -> option captures :=
  fun _ m => Some m.

(** [regex_search]: the first position at which the expression matches. *)
Fixpoint search_from (r : regex) (whole s : string) : option captures :=
  orelse (matches r whole s [] found)
    match s with
    | String _ s' => search_from r whole s'
    | EmptyString => None
    end.

Definition regex_search (name : string) (r : regex) : option captures :=
  search_from r name name.

(** ["^(\\w+): (.+?)( \\(.*?\\))?$"] *)
Definition RE_FX_NAME : regex :=
  Cat Bol
  (Cat (Group 1 (PlusGreedy is_word))
  (Cat (Lit ":")
  (Cat (Lit " ")
  (Cat (Group 2 (PlusLazy is_any))
  (Cat (Opt (Group 3 (Cat (Lit " ") (Cat (Lit "(")
                     (Cat (StarLazy is_any) (Lit ")"))))))
       Eol))))).

(** [shortenFxName]: what is written to the stream. *)
Definition shortenFxName (name : string) : string :=
  match regex_search name RE_FX_NAME with
  | None => name
  | Some m =>
      str m 2 ++ (if String.eqb (str m 1) "JS" then str m 3 else "")
  end.

(** The last part of [RE_FX_NAME]: ["( \\(.*?\\))?$"]. *)
Definition TAIL : regex :=
  Cat (Opt (Group 3 (Cat (Lit " ") (Cat (Lit "(")
                    (Cat (StarLazy is_any) (Lit ")"))))))
      Eol.

(** Every character of a text is of a class. *)
Fixpoint all (cls : ascii -> bool) (s : string) : bool :=
  match s with
  | EmptyString => true
  | String c s' => cls c && all cls s'
  end.

(** Where a greedy repetition ends: at the end of the text or before a
    character that is not of the class. *)
Definition ends_class (cls : ascii -> bool) (s : string) : Prop :=
  match s with
  | EmptyString => True
  | String c _ => cls c = false
  end.

(** Any character but the opening parenthesis. *)
Definition not_paren (c : ascii) : bool := negb (Ascii.eqb c "(").

(** The names of the form [<word>: <name> (<qualifier>)]. *)
Definition qualified (name : string) : Prop :=
  exists w n q, name = w ++ ": " ++ n ++ " (" ++ q ++ ")".

End FxChain.

(** ** paramsUi.cpp: parameters and their providers *)

Module Params.

Local Open Scope float_scope.

Definition double : Type := float.

(** [(double)n] for a non-negative integer below 2^63. *)
Definition double_of_unsigned (n : Z) : double :=
  PrimFloat.of_uint63 (Uint63.of_Z n).

(** [(double)k] for an [int]. *)
Definition double_of_int (k : Z) : double :=
  if (k <? 0)%Z then - double_of_unsigned (- k)%Z else double_of_unsigned k.

(** [int(x)]: truncation toward zero; undefined ([None]) when the truncated
    value is not an [int], or for an infinity or a NaN. *)
Definition int_of_double (x : double) : option Z :=
  match Prim2SF x with
  | S754_zero _ => Some 0%Z
  | S754_finite s m e =>
      let magnitude := Z.shiftl (Z.pos m) e in
      let k := (if s then - magnitude else magnitude)%Z in
      if ((- 2 ^ 31 <=? k) && (k <=? 2 ^ 31 - 1))%Z then Some k else None
  | _ => None
  end.

(** A conversion [int(...)] as a build does it: what C++ defines where it
    defines it, and a value of the processor's choice elsewhere. *)
Definition converts (cast : double -> Z) : Prop :=
  forall x k, int_of_double x = Some k -> cast x = k.

(** The conversion on x86, where the instruction returns 0x80000000 for a
    number out of range, an infinity or a NaN. *)
Definition int_x86 (x : double) : Z :=
  match int_of_double x with
  | Some k => k
  | None => (- 2 ^ 31)%Z
  end.

(** [k] is [x] truncated toward zero: [k] has the sign of [x], and
    [|k| <= |x| < |k| + 1], [|x|] being [m * 2 ^ e]. *)
Definition truncated (x : double) (k : Z) : Prop :=
  match Prim2SF x with
  | S754_zero _ => k = 0%Z
  | S754_finite s m e =>
      (k = if s then - Z.abs k else Z.abs k)%Z
      /\ (Z.abs k * 2 ^ Z.max 0 (- e) <= Z.pos m * 2 ^ Z.max 0 e
          < (Z.abs k + 1) * 2 ^ Z.max 0 (- e))%Z
  | _ => False
  end.

(** The data members of [Param]. *)
Record Param : Type := {
  min : double;
  max : double;
  step : double;
  largeStep : double;
  isEditable : bool
}.

Definition ReaperObjToggleParam : Param :=
  {| min := 0; max := 1; step := 1; largeStep := 1; isEditable := false |}.

Definition ReaperObjPanParam : Param :=
  {| min := -1; max := 1; step := 0.01; largeStep := 0.1; isEditable := true |}.

Definition ReaperObjLenParam : Param :=
  {| min := 0; max := 500; step := 0.02; largeStep := 10; isEditable := true |}.

(** *** ReaperObjVolParam *)

Module Vol.

(** The object: its [Param] members and [flipSign]. *)
Record t : Type := {
  base : Param;
  flipSign : bool
}.

(** [provider.getSetValue(nullptr)] reads the host's field, here [raw];
    [provider.getSetValue(&v)] stores [v] in it. *)
Definition getValue (p : t) (raw : double) : double :=
  let result := raw in
  if flipSign p then (- result)%float else result.

(** The constructor: take volume raw values are negative when the polarity
    is flipped. *)
Definition make (raw : double) : t :=
  let p := {| base := {| min := 0; max := 4; step := 0.002; largeStep := 0.1;
                         isEditable := true |};
              flipSign := false |} in
  if (getValue p raw <? 0)%float
  then {| base := base p; flipSign := true |}
  else p.

(** [setValue]: the value stored in the host's field. *)
Definition setValue (p : t) (value : double) : double :=
  if flipSign p then (- value)%float else value.

Section Edited.

(** [atof] and WDL's [DB2VAL]. *)
Variable atof : string -> double.
Variable DB2VAL : double -> double.

(** [setValueFromEdited]: the value stored in the host's field. *)
Definition setValueFromEdited (p : t) (text : string) : double :=
  if String.eqb (substring 0 4 text) "-inf"
  then setValue p 0
  else
    let db := atof text in
    setValue p (DB2VAL db).

End Edited.

End Vol.

(** *** FxParam: a numbered parameter of an effect *)

Module Fx.

(** What the host reports for one parameter.  [*FX_GetParam] writes [minval]
    and [maxval]; [*FX_GetParameterStepSizes] writes a step only when it can
    fetch it ([None]: the variable keeps the 0 set before the call). *)
Record Reported : Type := {
  minval : double;
  maxval : double;
  stepOut : option double;
  largestepOut : option double
}.

Definition written (init : double) (out : option double) : double :=
  match out with Some v => v | None => init end.

(** The constructor; [cast] is the conversion [int(...)] of the build. *)
Definition make (cast : double -> Z) (r : Reported) : Param :=
  let min := minval r in
  let max := maxval r in
  let step := written 0 (stepOut r) in
  let largeStep := written 0 (largestepOut r) in
  if negb (step =? 0)%float then
    if (largeStep =? 0)%float then
      let largeStep := ((max - min) / 50)%float in
      (* Ensure largeStep is a multiple of step. *)
      let largeStep := (step * double_of_int (cast (largeStep / step)))%float in
      let largeStep := if (largeStep =? 0)%float then step else largeStep in
      {| min := min; max := max; step := step;
         largeStep := largeStep; isEditable := true |}
    else
      {| min := min; max := max; step := step;
         largeStep := largeStep; isEditable := true |}
  else
    let step := ((max - min) / 1000)%float in
    let largeStep := (step * 20)%float in
    {| min := min; max := max; step := step;
       largeStep := largeStep; isEditable := true |}.

End Fx.

(** *** FxNamedConfigParam: an enumerated named config parameter *)

Module NamedConfig.

Local Open Scope string_scope.

(** The possible values: the display name, then the name to pass to the API. *)
Definition FxNamedConfigParamValues : Type := list (string * string).

Definition TOGGLE_FX_NAMED_CONFIG_PARAM_VALUES : FxNamedConfigParamValues :=
  [ ("off", "0"); ("on", "1") ].

Definition REAEQ_BAND_TYPE_VALUES : FxNamedConfigParamValues :=
  [ ("low shelf", "0"); ("high shelf", "1"); ("band", "8"); ("low pass", "3");
    ("high pass", "4"); ("all pass", "5"); ("notch", "6"); ("band pass", "7");
    ("parallel band pass", "10"); ("band (alt)", "9"); ("band (alt 2)", "2") ].

Definition make (values : FxNamedConfigParamValues) : Param :=
  {| min := 0;
     max := (double_of_unsigned (Z.of_nat (List.length values)) - 1)%float;
     step := 1; largeStep := 1; isEditable := false |}.

(** The loop of [getValue]: the first [v], counted from [v0], whose API name
    is [valueStr]. *)
Fixpoint find_value (valueStr : string) (values : FxNamedConfigParamValues)
  (v0 : Z) : option Z :=
  match values with
  | [] => None
  | (_, second) :: rest =>
      if String.eqb valueStr second then Some v0
      else find_value valueStr rest (v0 + 1)%Z
  end.

(** [getValue].  [reported] is what [*FX_GetNamedConfigParm] wrote to
    [valueStr] ([None]: nothing, the buffer keeps its empty string). *)
Definition getValue (values : FxNamedConfigParamValues)
  (reported : option string) : double :=
  let valueStr := match reported with Some s => s | None => "" end in
  if String.eqb valueStr "" then 0.0
  else match find_value valueStr values 0%Z with
       | Some v => double_of_int v
       | None => 0.0
       end.

(** [values[(int)value]], which [getValueText] and [setValue] read.  [None]
    is an undefined conversion or an index outside of the table. *)
Definition entry (values : FxNamedConfigParamValues) (value : double)
  : option (string * string) :=
  match int_of_double value with
  | Some k => if (k <? 0)%Z then None else nth_error values (Z.to_nat k)
  | None => None
  end.

Definition getValueText (values : FxNamedConfigParamValues) (value : double)
  : option string :=
  option_map fst (entry values value).

(** [setValue]: the text passed to [*FX_SetNamedConfigParm]. *)
Definition setValue (values : FxNamedConfigParamValues) (value : double)
  : option string :=
  option_map snd (entry values value).

End NamedConfig.

(** *** FxParams: the parameters of one effect *)

Module FxParams.

Local Open Scope string_scope.

(** The display names of the named config parameters, which come first, and
    the host's [*FX_GetParamName] for the numbered ones. *)
Record t : Type := {
  namedConfigParams : list string;
  GetParamName : Z -> string
}.

(** The decimal digits. *)
Definition is_digit (c : ascii) : bool :=
  ((48 <=? nat_of_ascii c) && (nat_of_ascii c <=? 57))%nat.

(** [ostream << int]. *)
Definition string_of_int (n : Z) : string :=
  NilZero.string_of_int (Z.to_int n).

(** [getParamName].  [None] is the indexing of [namedConfigParams] with a
    negative number. *)
Definition getParamName (src : t) (param : Z) : option string :=
  let namedCount := Z.of_nat (List.length (namedConfigParams src)) in
  let suffix := " (" ++ string_of_int param ++ ")" in
  if (param <? namedCount)%Z then
    match (if (param <? 0)%Z then None
           else nth_error (namedConfigParams src) (Z.to_nat param)) with
    | Some displayName => Some (displayName ++ suffix)
    | None => None
    end
  else Some (GetParamName src (param - namedCount)%Z ++ suffix).

End FxParams.

(** All the ways the code constructs a [Param]. *)
Inductive Kind : Type :=
| Toggle
| Volume (raw : double)
| Pan
| Length
| Enumerated (values : NamedConfig.FxNamedConfigParamValues)
| FxNumbered (r : Fx.Reported).

Definition construct (cast : double -> Z) (k : Kind) : Param :=
  match k with
  | Toggle => ReaperObjToggleParam
  | Volume raw => Vol.base (Vol.make raw)
  | Pan => ReaperObjPanParam
  | Length => ReaperObjLenParam
  | Enumerated values => NamedConfig.make values
  | FxNumbered r => Fx.make cast r
  end.

(** The invariant of a parameter: [min <= max] and [step > 0]. *)
Definition well_formed (p : Param) : Prop :=
  (min p <=? max p) = true /\ (0 <? step p) = true.

(** [min <= max] for an enumerated parameter over [n] values. *)
Definition enumerated_ok (n : nat) : bool :=
  (0 <=? double_of_unsigned (Z.of_nat n) - 1).

End Params.

(** ** paramsUi.cpp: the dialog and its slider *)

Module ParamsDialog.

Import Params.

Local Open Scope float_scope.

(** The members of [ParamsDialog] that the slider reads and writes. *)
Record t : Type := {
  val : double;
  valText : string
}.

(** What a call of [onSliderChange] did: the dialog afterwards, and the
    value passed to [param->setValue], if it was called. *)
Record Outcome : Type := {
  dialog : t;
  committed : option double
}.

(** [num / den] rounded to the nearest integer, and to the even one when
    it is half way between two; [den] is positive. *)
Definition round_half_even (num den : Z) : Z :=
  let q := (num / den)%Z in
  let r := (num mod den)%Z in
  if (2 * r <? den)%Z then q
  else if (den <? 2 * r)%Z then (q + 1)%Z
  else if Z.even q then q else (q + 1)%Z.

(** [s << fixed << setprecision(1) << x]: the decimal expansion of the
    exact value of [x], rounded to one decimal place as [printf] rounds,
    with the sign of [x].  [special] is the text of an infinity or of a
    NaN, which is the C library's. *)
Definition fixed1 (special : double -> string) (x : double) : string :=
  match Prim2SF x with
  | S754_zero s => ((if s then "-" else "") ++ "0.0")%string
  | S754_finite s m e =>
      let tenths :=
        if (0 <=? e)%Z then (10 * Z.pos m * 2 ^ e)%Z
        else round_half_even (10 * Z.pos m) (2 ^ (- e)) in
      ((if s then "-" else "")
       ++ FxParams.string_of_int (tenths / 10) ++ "."
       ++ FxParams.string_of_int (tenths mod 10))%string
  | _ => special x
  end.

(** The text that [updateValueText] falls back to:
    [s << fixed << setprecision(1) << percent << "%"]. *)
Definition percent_fixed (special : double -> string) (percent : double)
  : string :=
  (fixed1 special percent ++ "%")%string.

(** The keys that [translateAccel] handles for the slider. *)
Inductive Key : Type :=
| VK_UP | VK_RIGHT | VK_DOWN | VK_LEFT | VK_PRIOR | VK_NEXT | VK_HOME | VK_END.

Section Slider.

(** The selected parameter, its [getValueText], and the text of a
    percentage, which is [percent_fixed] in the dialog. *)
Variable param : Param.
Variable getValueText : double -> string.
Variable percentText : double -> string.

Definition in_range (v : double) : bool :=
  (min param <=? v) && (v <=? max param).

(** [updateValue] after [val] was set to [v]; an empty text falls back to a
    percentage in [updateValueText]. *)
Definition updateValue (v : double) : t :=
  let text := getValueText v in
  {| val := v;
     valText :=
       if String.eqb text ""%string then
         let percent := (v - min param) / (max param - min param) * 100 in
         percentText percent
       else text |}.

(** [unsigned int steps; ... steps++]. *)
Definition incr_unsigned (steps : Z) : Z := ((steps + 1) mod 2 ^ 32)%Z.

(** The [for] loop of [onSliderChange], entered with [this->val = v0]: the
    value of [this->val] when the loop is left.  Each call is one test of
    the loop condition on [newVal]. *)
Fixpoint snap (fuel : nat) (v0 : double) (text0 : string) (step : double)
  (steps : Z) (newVal : double) : option double :=
  match fuel with
  | O => None
  | S fuel' =>
      if in_range newVal then
        let testText := getValueText newVal in
        if String.eqb testText ""%string then Some v0
        else if negb (String.eqb testText text0) then Some newVal
        else snap fuel' v0 text0 step (incr_unsigned steps)
               (v0 + step * double_of_unsigned steps)
      else Some v0
  end.

(** [onSliderChange]; [None] when the fuel does not suffice for the loop. *)
Definition onSliderChange (fuel : nat) (d : t) (newVal : double)
  : option Outcome :=
  if (newVal =? val d) || (newVal <? min param) || (max param <? newVal)
  then Some {| dialog := d; committed := None |}
  else
    let step := if newVal <? val d then - step param else step param in
    match snap fuel newVal (valText d) step 1%Z newVal with
    | None => None
    | Some v => Some {| dialog := updateValue v; committed := Some v |}
    end.

(** The slider's part of [translateAccel]. *)
Definition translateAccel (fuel : nat) (d : t) (key : Key) : option Outcome :=
  let newVal :=
    match key with
    | VK_UP | VK_RIGHT => val d + step param
    | VK_DOWN | VK_LEFT => val d - step param
    | VK_PRIOR => val d + largeStep param
    | VK_NEXT => val d - largeStep param
    | VK_HOME => max param
    | VK_END => min param
    end in
  onSliderChange fuel d newVal.

(** The values the loop tests, in order: [v0], then [v0 + step * steps]
    for [steps = 1, 2, ...], an [unsigned int]. *)
Definition candidate (v0 step : double) (j : nat) : double :=
  match j with
  | O => v0
  | S _ => v0 + step * double_of_unsigned (Z.of_nat j mod 2 ^ 32)%Z
  end.

(** Why the loop stops at a value: the value is out of range, it has no
    text, or its text differs from the text shown. *)
Inductive Stop : Type := OutOfRange | NoText | Distinct.

Definition stops (text0 : string) (x : double) : option Stop :=
  if in_range x then
    if String.eqb (getValueText x) ""%string then Some NoText
    else if negb (String.eqb (getValueText x) text0) then Some Distinct
    else None
  else Some OutOfRange.

(** The value of [this->val] when the loop stops for reason [why] at the
    [n]-th value tested. *)
Definition snapped (v0 step : double) (n : nat) (why : Stop) : double :=
  match why with
  | Distinct => candidate v0 step n
  | OutOfRange | NoText => v0
  end.

(** The counter [steps] when the [j]-th value is tested. *)
Definition steps_at (j : nat) : Z := ((Z.of_nat j + 1) mod 2 ^ 32)%Z.

(** The test that makes [onSliderChange] return at once. *)
Definition rejected (d : t) (newVal : double) : bool :=
  (newVal =? val d) || (newVal <? min param) || (max param <? newVal).

(** The step of the search: toward [newVal]. *)
Definition toward (d : t) (newVal : double) : double :=
  if newVal <? val d then - step param else step param.

End Slider.

End ParamsDialog.

(** ** The effect tree of the traversal example *)

Module FxTree.

(** An effect and, for a container, the effects it contains. *)
Inductive Fx : Type :=
| Effect (name : string) (children : list Fx).

(** Depth-first order, the container before what it contains: the name, the
    level (1 for the top level) and the 1-based position among siblings. *)
Fixpoint preorder (level position : Z) (fx : Fx) {struct fx}
  : list (string * Z * Z) :=
  match fx with
  | Effect name children =>
      (name, level, position)
      :: (fix siblings (l : list Fx) (pos : Z) {struct l} :=
            match l with
            | [] => []
            | c :: l' => preorder (level + 1) pos c ++ siblings l' (pos + 1)
            end) children 1
  end.

Fixpoint preorder_chain (l : list Fx) (position : Z) : list (string * Z * Z) :=
  match l with
  | [] => []
  | fx :: l' => preorder 1 position fx ++ preorder_chain l' (position + 1)
  end.

(** [A, B(container: [C, D]), E] *)
Definition example : list Fx :=
  [ Effect "A" [];
    Effect "B" [ Effect "C" []; Effect "D" [] ];
    Effect "E" [] ].

(** A host for that tree, on a track or on a take: three effects at the top
    level, of which the second contains two, and no input effects. *)
Definition example_host (track : bool) : FxIterator.Host :=
  {| FxIterator.is_track := track;
     FxIterator.FX_GetCount := 3;
     FxIterator.TrackFX_GetRecCount := 0;
     FxIterator.container_count := fun i => if i =? 1 then 2 else 0 |}.

Definition frame (i count container mult : Z) : FxIterator.StackItem :=
  {| FxIterator.indexInContainer := i;
     FxIterator.containerCount := count;
     FxIterator.containerFxIndex := container;
     FxIterator.multiplier := mult |}.

Definition at_node (stk : list FxIterator.StackItem) (index contained : Z)
  : FxIterator.t :=
  {| FxIterator.stack := stk; FxIterator.rec := false;
     FxIterator.fxIndex := index; FxIterator.containedCount := contained |}.

(** The iterator at each of the five effects. *)
Definition at_A : FxIterator.t := at_node [frame 0 3 0 1] 0 0.
Definition at_B : FxIterator.t := at_node [frame 1 3 0 1] 1 2.
Definition at_C : FxIterator.t :=
  at_node [frame 0 2 0x2000002 4; frame 1 3 0 1] 0x2000006 0.
Definition at_D : FxIterator.t :=
  at_node [frame 1 2 0x2000002 4; frame 1 3 0 1] 0x200000A 0.
Definition at_E : FxIterator.t := at_node [frame 2 3 0 1] 2 0.

End FxTree.

(** ** Parameters for the examples of the slider *)

Module SliderExample.

Import Params ParamsDialog.

Local Open Scope float_scope.

(** A formatter that shows the whole part of the value. *)
Definition whole_text (x : double) : string :=
  match int_of_double x with
  | Some k => FxParams.string_of_int k
  | None => ""%string
  end.

(** The text of an infinity or a NaN in the GNU C library. *)
Definition special_text (x : double) : string :=
  if (x =? x)%float
  then (if (x <? 0)%float then "-inf"%string else "inf"%string)
  else "nan"%string.

(** The percentage as the dialog shows it. *)
Definition percent_text (x : double) : string :=
  percent_fixed special_text x.

(** Quarter steps over [0, 4] and over [0, 1.8]. *)
Definition wide : Param :=
  {| min := 0; max := 4; step := 0.25; largeStep := 1; isEditable := true |}.

Definition narrow : Param :=
  {| min := 0; max := 1.8; step := 0.25; largeStep := 1; isEditable := true |}.

Definition showing (v : double) : ParamsDialog.t :=
  {| val := v; valText := whole_text v |}.


End SliderExample.

(** ** The numbering of effects: paths, radices and closed form *)

Module FxIndex.

Import FxIterator.

(** The frame that [next] pushes when it enters the container at
    [current]. *)
Definition entered (it : t) (current : StackItem) : StackItem :=
  {| indexInContainer := 0;
     containerCount := containedCount it;
     containerFxIndex :=
       (if Z.of_nat (List.length (stack it)) =? 1
        then int (int (0x2000000 + indexInContainer current) + 1)
        else fxIndex it);
     multiplier :=
       int (multiplier current * int (containerCount current + 1)) |}.

(** The frame that [firstRec] pushes. *)
Definition rec_root (h : Host) : StackItem :=
  {| indexInContainer := 0; containerCount := TrackFX_GetRecCount h;
     containerFxIndex := 0; multiplier := 1 |}.

(** The position of a frame is one of its container. *)
Definition in_bounds (f : StackItem) : Prop :=
  0 <= indexInContainer f < containerCount f.

(** The product of [count + 1] over the levels that enclose a frame. *)
Fixpoint radix (up : list StackItem) : Z :=
  match up with
  | [] => 1
  | f :: up' => (containerCount f + 1) * radix up'
  end.

(** The 1-based positions of a path, each weighted by the radix of its
    level. *)
Fixpoint weight (stk : list StackItem) : Z :=
  match stk with
  | [] => 0
  | f :: up => (indexInContainer f + 1) * radix up + weight up
  end.

(** The flat index in terms of positions and sibling counts only. *)
Definition closed_form (r : bool) (stk : list StackItem) : Z :=
  match stk with
  | [] => -1
  | [root] => base_offset r + indexInContainer root
  | _ :: _ :: _ =>
      (Z.of_nat (List.length stk) - 1) * base_offset r + 0x2000000 + weight stk
  end.

(** Every multiplier is the radix of its level, reduced to an [int]. *)
Fixpoint radices (stk : list StackItem) : Prop :=
  match stk with
  | [] => True
  | f :: up => multiplier f = int (radix up) /\ radices up
  end.

(** The number of effects at the top level of the tree being visited. *)
Definition root_count (h : Host) (r : bool) : Z :=
  if r then TrackFX_GetRecCount h else FX_GetCount h.

(** Every count is the one the host reports: for the top level, the count
    of the chain; for a container, its [container_count]. *)
Fixpoint counted (h : Host) (r : bool) (stk : list StackItem) : Prop :=
  match stk with
  | [] => True
  | f :: up =>
      match up with
      | [] => containerCount f = root_count h r
      | parent :: _ =>
          containerCount f
          = container_count h (frame_index r (is_root up) parent)
          /\ counted h r up
      end
  end.

(** The path of the current effect: the positions from the top level
    down. *)
Definition path (it : t) : list Z :=
  rev (map indexInContainer (stack it)).

(** The iterator at the [i]-th effect of a chain of [n] without
    containers. *)
Definition at_top (r : bool) (n i : Z) : t :=
  {| stack := [ {| indexInContainer := i; containerCount := n;
                   containerFxIndex := 0; multiplier := 1 |} ];
     rec := r;
     fxIndex := int (base_offset r + i);
     containedCount := 0 |}.

(** The nodes of a chain without containers, from position [i], [k] of
    them. *)
Fixpoint chain_nodes (r : bool) (i : Z) (k : nat) : list Node :=
  match k with
  | O => []
  | S k' =>
      {| node_index := base_offset r + i; node_level := 1;
         node_position := Some (i + 1); node_container := false |}
      :: chain_nodes r (i + 1) k'
  end.

(** A node with its index reduced to 32 bits. *)
Definition reduced (n : Node) : Node :=
  {| node_index := int (node_index n); node_level := node_level n;
     node_position := node_position n; node_container := node_container n |}.

(** The three ways in which [next] moves to an effect, and the way in
    which it ends. *)
Inductive Step (h : Host) (it it' : t) : bool -> Prop :=
| step_enter current up :
    stack it = current :: up -> isContainer it = true ->
    stack it' = entered it current :: stack it -> rec it' = rec it ->
    Step h it it' true
| step_walk :
    isContainer it = false -> walk (stack it) = Some (stack it') ->
    rec it' = rec it -> Step h it it' true
| step_rec :
    isContainer it = false -> walk (stack it) = None ->
    is_track h = true -> rec it = false -> 0 < TrackFX_GetRecCount h ->
    stack it' = [rec_root h] -> rec it' = true -> Step h it it' true
| step_end :
    isContainer it = false -> walk (stack it) = None ->
    (is_track h = false \/ rec it = true \/ TrackFX_GetRecCount h <= 0) ->
    stack it' = [] -> Step h it it' false.

(** What holds of the iterator before each call of [next]. *)
Definition kept (h : Host) (it : t) : Prop :=
  stack it <> []
  /\ indexed it
  /\ radices (stack it)
  /\ counted h (rec it) (stack it)
  /\ (containedCount it = 0
      \/ containedCount it = container_count h (fxIndex it))
  /\ (rec it = true -> is_track h = true).

End FxIndex.

(** ** Paths from the top level down, in the normal tree *)

Module FxPath.

Import FxIterator.

(** The position and the sibling count of each level, the top level
    first. *)
Definition levels (stk : list StackItem) : list (Z * Z) :=
  rev (map (fun f => (indexInContainer f, containerCount f)) stk).

(** The number that the levels encode: the first position plus one, plus
    [count + 1] times the number of the levels below. *)
Fixpoint number (l : list (Z * Z)) : Z :=
  match l with
  | [] => 0
  | (p, c) :: rest => (p + 1) + (c + 1) * number rest
  end.

(** The product of [count + 1] over the levels. *)
Fixpoint span (l : list (Z * Z)) : Z :=
  match l with
  | [] => 1
  | (_, c) :: rest => (c + 1) * span rest
  end.

(** The flat index of a path of the normal tree. *)
Definition index_of (l : list (Z * Z)) : Z :=
  match l with
  | [] => -1
  | [(p, _)] => p
  | _ :: _ :: _ => 0x2000000 + number l
  end.

(** The sibling count that the host reports for the level that follows
    the levels [pre]. *)
Definition count_after (h : Host) (pre : list (Z * Z)) : Z :=
  match pre with
  | [] => FX_GetCount h
  | _ :: _ => container_count h (index_of pre)
  end.

(** The levels [l], coming after the levels [pre], are positions within
    the counts that the host reports. *)
Fixpoint follows (h : Host) (pre l : list (Z * Z)) : Prop :=
  match l with
  | [] => True
  | (p, c) :: rest =>
      c = count_after h pre /\ 0 <= p < c
      /\ follows h (pre ++ [(p, c)]) rest
  end.

End FxPath.

(** ** paramsUi.cpp: the menu of effects built by [fxParams_begin] *)

Module FxMenu.

Import FxIterator.

Local Open Scope string_scope.

(** What [fxParams_begin] and [getName] ask of the host besides the
    iterator's questions: the name of an effect, and whether the track is
    the master track. *)
Record Host : Type := {
  fx_host : FxIterator.Host;
  FX_GetFXName : Z -> string;
  is_master : bool
}.

(** [getName]; [None] is [back()] of an empty stack. *)
Definition getName (h : Host) (it : t) : option string :=
  match stack it with
  | [] => None
  | item :: _ =>
      Some (Params.FxParams.string_of_int (indexInContainer item + 1) ++ " "
            ++ FxChain.shortenFxName (FX_GetFXName h (fxIndex it))
            ++ (if is_track (fx_host h) && rec it
                   && (Z.of_nat (List.length (stack it)) =? 1)%Z
                then " " ++ (if is_master h then "[monitor]" else "[input]")
                else ""))
  end.

(** A menu item: the menu it is inserted in, the position asked for, its
    text, its identifier [wID] when it has one, and its sub-menu when it
    has one.  Menus are numbered in the order of their creation. *)
Record Item : Type := {
  item_menu : nat;
  item_position : Z;
  item_text : string;
  item_id : option Z;
  item_submenu : option nat
}.

(** The variables of [fxParams_begin]: the stack of menus (its head is
    [back()]), the number of menus created, the items inserted (the latest
    first), [count] and [fx]. *)
Record Menus : Type := {
  menus : list nat;
  created : nat;
  inserted : list Item;
  count : Z;
  fx : Z
}.

Definition start : Menus :=
  {| menus := [0%nat]; created := 1; inserted := []; count := 0; fx := -1 |}.

(** The body of the loop, for the effect the iterator is at.  [None] is
    [back()] of an empty stack. *)
Definition insert (h : Host) (it : t) (st : Menus) : option Menus :=
  (* If we've exited containers, move to the appropriate ancestor menu. *)
  let kept := skipn (List.length (menus st) - Z.to_nat (getLevel it)) (menus st) in
  match kept, getName h it with
  | top :: _, Some name =>
      let fx := getFxIndex it in
      if isContainer it then
        let subMenu := created st in
        Some {| menus := subMenu :: kept;
                created := S (created st);
                inserted :=
                  {| item_menu := subMenu; item_position := 0;
                     item_text := "(Container Parameters)";
                     item_id := Some (fx + 1); item_submenu := None |}
                  :: {| item_menu := top; item_position := count st;
                        item_text := name; item_id := None;
                        item_submenu := Some subMenu |}
                  :: inserted st;
                count := count st + 1;
                fx := fx |}
      else
        Some {| menus := kept;
                created := created st;
                inserted :=
                  {| item_menu := top; item_position := count st;
                     item_text := name; item_id := Some (fx + 1);
                     item_submenu := None |}
                  :: inserted st;
                count := count st + 1;
                fx := fx |}
  | _, _ => None
  end.

(** The loop [while (iter.next()) { ... }]. *)
Fixpoint build (fuel : nat) (h : Host) (it : t) (st : Menus) : option Menus :=
  match fuel with
  | O => None
  | S fuel' =>
      match next (fx_host h) it with
      | None => None
      | Some (false, _) => Some st
      | Some (true, it') =>
          match insert h it' st with
          | None => None
          | Some st' => build fuel' h it' st'
          end
      end
  end.

(** How [fxParams_begin] ends. *)
Inductive Outcome : Type :=
| NoFx               (* "no FX" *)
| Cancelled
| Open (fx : Z).     (* the dialog for the parameters of the effect [fx] *)


(** The identifiers of the items, in the order of insertion. *)
Definition identifiers (st : Menus) : list Z :=
  rev (flat_map (fun i => match item_id i with Some w => [w] | None => [] end)
         (inserted st)).

(** One menu for each level of the current effect, and one more when it is
    a container. *)
Definition nested (it : t) (st : Menus) : Prop :=
  List.length (menus st)
  = (List.length (stack it) + (if isContainer it then 1 else 0))%nat.

End FxMenu.

(** ** Hosts for the examples of the iterator *)

Module FxExamples.

(** A chain of [n] effects without containers, with [m] input effects. *)
Definition chain_host (track : bool) (n m : Z) : FxIterator.Host :=
  {| FxIterator.is_track := track;
     FxIterator.FX_GetCount := n;
     FxIterator.TrackFX_GetRecCount := m;
     FxIterator.container_count := fun _ => 0 |}.

(** Four effects in a container that is the first of 9999 effects of a
    container that is the first of 60000 effects. *)
Definition deep_host : FxIterator.Host :=
  {| FxIterator.is_track := false;
     FxIterator.FX_GetCount := 60000;
     FxIterator.TrackFX_GetRecCount := 0;
     FxIterator.container_count :=
       fun i => if i =? 0 then 9999 else if i =? 33614434 then 4 else 0 |}.

(** A host for the menu of the example tree. *)
Definition example_menu_host : FxMenu.Host :=
  {| FxMenu.fx_host := FxTree.example_host true;
     FxMenu.FX_GetFXName :=
       fun i => if i =? 1 then "Container"%string
                else "VST: ReaEQ (Cockos)"%string;
     FxMenu.is_master := false |}.

End FxExamples.

(** ** paramsUi.cpp: the named parameters of ReaEQ and the sources of
    track and item parameters *)

Module Sources.

Import Params.

Local Open Scope string_scope.

(** An [FxNamedConfigParam] in the list of its source. *)
Record NamedParam : Type := {
  displayName : string;
  name : string;
  values : NamedConfig.FxNamedConfigParamValues
}.

Section ReaEq.

(** The name of the effect, and whether [*FX_GetNamedConfigParm] succeeds
    for a name. *)
Variable fxName : string.
Variable GetNamedConfigParm : string -> bool.

(** The loop [for (int band = 0; ; ++band)] of [initNamedConfigParams]. *)
Fixpoint bands (fuel : nat) (band : Z) : option (list NamedParam) :=
  match fuel with
  | O => None
  | S fuel' =>
      let name := "BANDENABLED" ++ FxParams.string_of_int band in
      if negb (GetNamedConfigParm name) then
        (* This band doesn't exist. *)
        Some []
      else
        match bands fuel' (band + 1) with
        | None => None
        | Some rest =>
            Some ({| displayName :=
                       "Band " ++ FxParams.string_of_int (band + 1) ++ " enable";
                     name := name;
                     values := NamedConfig.TOGGLE_FX_NAMED_CONFIG_PARAM_VALUES |}
                  :: {| displayName :=
                          "Band " ++ FxParams.string_of_int (band + 1) ++ " type";
                        name := "BANDTYPE" ++ FxParams.string_of_int band;
                        values := NamedConfig.REAEQ_BAND_TYPE_VALUES |}
                  :: rest)
        end
  end.

(** [initNamedConfigParams]: the list [namedConfigParams]. *)
Definition initNamedConfigParams (fuel : nat) : option (list NamedParam) :=
  if String.eqb fxName "VST: ReaEQ (Cockos)" then bands fuel 0
  else Some [].

(** The two parameters of a band. *)
Definition band_params (band : nat) : list NamedParam :=
  [ {| displayName :=
         "Band " ++ FxParams.string_of_int (Z.of_nat band + 1) ++ " enable";
       name := "BANDENABLED" ++ FxParams.string_of_int (Z.of_nat band);
       values := NamedConfig.TOGGLE_FX_NAMED_CONFIG_PARAM_VALUES |};
    {| displayName :=
         "Band " ++ FxParams.string_of_int (Z.of_nat band + 1) ++ " type";
       name := "BANDTYPE" ++ FxParams.string_of_int (Z.of_nat band);
       values := NamedConfig.REAEQ_BAND_TYPE_VALUES |} ].

End ReaEq.

(** The functions that make a [Param] from a provider of a track or of an
    item. *)
Inductive Maker : Type :=
| MakeVol     (* ReaperObjVolParam::make *)
| MakePan     (* ReaperObjPanParam::make *)
| MakeToggle  (* ReaperObjToggleParam::make *)
| MakeLen.    (* ReaperObjLenParam::make *)

(** A provider: its display name, the name of the host's value, and the
    function that makes the parameter. *)
Record Provider : Type := {
  provider_displayName : string;
  provider_name : string;
  makeParamFromProvider : Maker
}.

(** [makeParam]; [raw] is the host's value of the provider, which the
    constructor of a volume reads. *)
Definition makeParam (p : Provider) (raw : double) : Param :=
  match makeParamFromProvider p with
  | MakeVol => Vol.base (Vol.make raw)
  | MakePan => ReaperObjPanParam
  | MakeToggle => ReaperObjToggleParam
  | MakeLen => ReaperObjLenParam
  end.

(** [ItemParams]: the providers of an item, with or without an active
    take. *)
Definition ItemParams (has_take : bool) : list Provider :=
  [ {| provider_displayName := "item volume"; provider_name := "D_VOL";
       makeParamFromProvider := MakeVol |} ]
  ++ (if has_take then
        [ {| provider_displayName := "take volume"; provider_name := "D_VOL";
             makeParamFromProvider := MakeVol |};
          {| provider_displayName := "take pan"; provider_name := "D_PAN";
             makeParamFromProvider := MakePan |} ]
      else [])
  ++ [ {| provider_displayName := "mute"; provider_name := "B_MUTE";
          makeParamFromProvider := MakeToggle |};
       {| provider_displayName := "fade in length";
          provider_name := "D_FADEINLEN"; makeParamFromProvider := MakeLen |};
       {| provider_displayName := "Fade out length";
          provider_name := "D_FADEOUTLEN"; makeParamFromProvider := MakeLen |} ].

Section Track.

(** The display prefix of the [i]-th send or receive of a category: the
    number of the other track, its name if it has one, and the category. *)
Variable dispPrefix : Z -> string -> nat -> string.

(** The four providers of one send or receive. *)
Definition send_params (category : Z) (categoryName : string) (i : nat)
  : list Provider :=
  let prefix := dispPrefix category categoryName i in
  [ {| provider_displayName := prefix ++ "volume"; provider_name := "D_VOL";
       makeParamFromProvider := MakeVol |};
    {| provider_displayName := prefix ++ "pan"; provider_name := "D_PAN";
       makeParamFromProvider := MakePan |};
    {| provider_displayName := prefix ++ "mute"; provider_name := "B_MUTE";
       makeParamFromProvider := MakeToggle |};
    {| provider_displayName := prefix ++ "mono"; provider_name := "B_MONO";
       makeParamFromProvider := MakeToggle |} ].

(** [addSendParams]: the loop over the sends of a category, [count] being
    [GetTrackNumSends]. *)
Definition addSendParams (category : Z) (categoryName : string) (count : Z)
  : list Provider :=
  flat_map (send_params category categoryName) (seq 0 (Z.to_nat count)).

(** A provider in the list of a track: one of the above, or a
    [TcpFxParamProvider] for a parameter of an effect. *)
Inductive TrackProvider : Type :=
| ReaperObj (p : Provider)
| TcpFx (displayName : string) (fx param : Z).

(** [GetTCPFXParm], [TrackFX_GetParamName] and [TrackFX_GetFXName]. *)
Variable GetTCPFXParm : nat -> Z * Z.
Variable GetParamName : Z -> Z -> string.
Variable GetFXName : Z -> string.

Definition tcp_param (i : nat) : TrackProvider :=
  let '(fx, param) := GetTCPFXParm i in
  TcpFx (GetParamName fx param ++ " (" ++ GetFXName fx ++ ")") fx param.

(** [TrackParams]; [sends] and [receives] are [GetTrackNumSends] of the two
    categories and [fxParamCount] is [CountTCPFXParms]. *)
Definition TrackParams (sends receives fxParamCount : Z)
  : list TrackProvider :=
  map ReaperObj
    ([ {| provider_displayName := "volume"; provider_name := "D_VOL";
          makeParamFromProvider := MakeVol |};
       {| provider_displayName := "pan"; provider_name := "D_PAN";
          makeParamFromProvider := MakePan |};
       {| provider_displayName := "mute"; provider_name := "B_MUTE";
          makeParamFromProvider := MakeToggle |} ]
     ++ addSendParams 0 "send" sends
     ++ addSendParams (-1) "receive" receives)
  ++ (if (fxParamCount >? 0)%Z
      then map tcp_param (seq 0 (Z.to_nat fxParamCount))
      else []).

End Track.

End Sources.

(** ** The filters of the two dialogs *)

Module Filter.

Local Open Scope string_scope.

(** [::tolower] in the C locale: the letters A to Z. *)
Definition tolower (c : ascii) : ascii :=
  let n := nat_of_ascii c in
  if ((65 <=? n) && (n <=? 90))%nat then ascii_of_nat (n + 32) else c.

(** [transform(s.begin(), s.end(), s.begin(), ::tolower)]. *)
Fixpoint lower (s : string) : string :=
  match s with
  | EmptyString => EmptyString
  | String c s' => String (tolower c) (lower s')
  end.

(** [name.find(filter)]: the first position at which [filter] occurs. *)
Fixpoint find (filter name : string) : option nat :=
  if String.prefix filter name then Some 0%nat
  else match name with
       | EmptyString => None
       | String _ name' => option_map S (find filter name')
       end.

(** [GetDlgItemText(dialog, id, rawText, size)] and [string text =
    rawText]: the text of the field, cut to the [size - 1] characters that
    the buffer holds before the terminator. *)
Definition GetDlgItemText (size : nat) (field : string) : string :=
  substring 0 (size - 1) field.

(** [onFilterChange] of both dialogs, which read the filter field into
    [char rawText[100]]: the new filter, or [None] where nothing
    changes. *)
Definition onFilterChange (filter field : string) : option string :=
  let text := lower (GetDlgItemText 100 field) in
  if String.eqb filter text then None else Some text.

(** [PresetDialog::shouldIncludePreset]. *)
Definition shouldIncludePreset (filter name : string) : bool :=
  if String.eqb filter "" then true
  else match find filter (lower name) with Some _ => true | None => false end.

End Filter.

(** ** paramsUi.cpp: the list of parameters of the dialog *)

Module ParamList.

Local Open Scope string_scope.

(** The part of the ECMAScript grammar that [RE_UNNAMED_PARAM] uses. *)
Inductive regex : Type :=
| Empty                                   (* the empty alternative *)
| Lit (c : ascii)
| Class (cls : ascii -> bool)             (* one character of a class *)
| Plus (cls : ascii -> bool)              (* cls+ *)
| Cat (r1 r2 : regex)
| Alt (r1 r2 : regex).                    (* r1|r2 *)

(** Backtracking by continuation [k], the longest repetition first. *)
Fixpoint star (cls : ascii -> bool) (s : string) (k : string -> bool) : bool :=
  match s with
  | String c s' => if cls c then star cls s' k || k s else k s
  | EmptyString => k s
  end.

Fixpoint matches (r : regex) (s : string) (k : string -> bool) : bool :=
  match r with
  | Empty => k s
  | Lit c =>
      match s with
      | String c' s' => Ascii.eqb c c' && k s'
      | EmptyString => false
      end
  | Class cls =>
      match s with
      | String c' s' => cls c' && k s'
      | EmptyString => false
      end
  | Plus cls =>
      match s with
      | String c' s' => cls c' && star cls s' k
      | EmptyString => false
      end
  | Cat r1 r2 => matches r1 s (fun s' => matches r2 s' k)
  | Alt r1 r2 => matches r1 s k || matches r2 s k
  end.

(** The last continuation of [regex_match]: the whole text is matched. *)
Definition at_end (s : string) : bool :=
  match s with EmptyString => true | String _ _ => false end.

(** [regex_match(name, m, r)] followed by [!m.empty()]. *)
Definition regex_match (name : string) (r : regex) : bool :=
  matches r name at_end.

(** [\d] *)
Definition digit : regex := Class Params.FxParams.is_digit.

(** [[P#]] *)
Definition is_P_or_hash (c : ascii) : bool :=
  Ascii.eqb c "P" || Ascii.eqb c "#".

(** [" \\(\\d+\\)"], the end of [RE_UNNAMED_PARAM]. *)
Definition NUMBER : regex :=
  Cat (Lit " ") (Cat (Lit "(") (Cat (Plus Params.FxParams.is_digit) (Lit ")"))).

(** ["(?:|-|[P#]\\d{3}) \\(\\d+\\)"] *)
Definition RE_UNNAMED_PARAM : regex :=
  Cat (Alt Empty
      (Alt (Lit "-")
           (Cat (Class is_P_or_hash) (Cat digit (Cat digit digit)))))
      NUMBER.

(** What remains to match after the digits of [NUMBER]. *)
Definition closing (s : string) : bool := matches (Lit ")") s at_end.

(** The names that the host gives to a parameter without a name: nothing,
    a dash, or [P] or [#] and three digits. *)
Definition placeholder (name : string) : bool :=
  match name with
  | EmptyString => true
  | String c EmptyString => Ascii.eqb c "-"
  | String c (String x1 (String x2 (String x3 EmptyString))) =>
      is_P_or_hash c && Params.FxParams.is_digit x1
      && Params.FxParams.is_digit x2 && Params.FxParams.is_digit x3
  | _ => false
  end.

(** What the dialog keeps of its list: [visibleParams], the selection of
    the combo box ([CB_ERR] is -1), [paramNum], and whether the slider is
    enabled. *)
Record t : Type := {
  visibleParams : list Z;
  curSel : Z;
  paramNum : Z;
  sliderEnabled : bool
}.

(** [v[i]] for an [int i]; [None] is an index outside of the vector. *)
Definition at_index (v : list Z) (i : Z) : option Z :=
  if (i <? 0)%Z then None else nth_error v (Z.to_nat i).

(** [ComboBox_SetCurSel] on a combo box of [count] items: an index outside
    of the list clears the selection. *)
Definition ComboBox_SetCurSel (count : nat) (i : Z) : Z :=
  if ((0 <=? i) && (i <? Z.of_nat count))%Z then i else (-1)%Z.

(** [onParamChange], as far as the list goes. *)
Definition onParamChange (d : t) : option t :=
  match at_index (visibleParams d) (curSel d) with
  | None => None
  | Some p =>
      Some {| visibleParams := visibleParams d; curSel := curSel d;
              paramNum := p; sliderEnabled := sliderEnabled d |}
  end.

(** The numbers [p], [p + 1], ..., [k] of them. *)
Fixpoint upto (p : Z) (k : nat) : list Z :=
  match k with
  | O => []
  | S k' => p :: upto (p + 1) k'
  end.

Section Source.

(** [source->getParamName], whether "include unnamed parameters" is
    checked, and the filter. *)
Variable getParamName : Z -> string.
Variable includeUnnamed : bool.
Variable filter : string.

(** [shouldIncludeParam] *)
Definition shouldIncludeParam (name : string) : bool :=
  if negb includeUnnamed && regex_match name RE_UNNAMED_PARAM then false
  else if String.eqb filter "" then true
  else match Filter.find filter (Filter.lower name) with
       | Some _ => true
       | None => false
       end.

(** The loop of [updateParamList], [k] parameters from [p] on. *)
Fixpoint fill (k : nat) (p : Z) (prevSelParam : Z) (visible : list Z)
  (newComboSel : Z) : list Z * Z :=
  match k with
  | O => (visible, newComboSel)
  | S k' =>
      if negb (shouldIncludeParam (getParamName p)) then
        fill k' (p + 1) prevSelParam visible newComboSel
      else
        let visible' := (visible ++ [p])%list in
        fill k' (p + 1) prevSelParam visible'
          (if (p =? prevSelParam)%Z
           then (Z.of_nat (List.length visible') - 1)%Z
           else newComboSel)
  end.

(** [visibleParams[ComboBox_GetCurSel(paramCombo)]], or -1 for an empty
    list. *)
Definition selected (d : t) : option Z :=
  match visibleParams d with
  | [] => Some (-1)%Z
  | _ :: _ => at_index (visibleParams d) (curSel d)
  end.

(** [updateParamList] *)
Definition updateParamList (paramCount : Z) (d : t) : option t :=
  match selected d with
  | None => None
  | Some prevSelParam =>
      let '(visible, newComboSel) :=
        fill (Z.to_nat paramCount) 0 prevSelParam [] 0 in
      let sel := ComboBox_SetCurSel (List.length visible) newComboSel in
      match visible with
      | [] =>
          Some {| visibleParams := []; curSel := sel;
                  paramNum := paramNum d; sliderEnabled := false |}
      | _ :: _ =>
          onParamChange {| visibleParams := visible; curSel := sel;
                           paramNum := paramNum d; sliderEnabled := true |}
      end
  end.

End Source.

(** Control+Tab and Control+Shift+Tab in [translateAccel]. *)
Definition controlTab (shift : bool) (d : t) : option t :=
  let size := Z.of_nat (List.length (visibleParams d)) in
  let newParam := (curSel d + (if shift then -1 else 1))%Z in
  let newParam :=
    if (newParam <? 0)%Z then (size - 1)%Z
    else if (newParam =? size)%Z then 0%Z
    else newParam in
  (* newParam could be -1 if there are no visible parameters. *)
  if (newParam >=? 0)%Z then
    onParamChange
      {| visibleParams := visibleParams d;
         curSel := ComboBox_SetCurSel (List.length (visibleParams d)) newParam;
         paramNum := paramNum d; sliderEnabled := sliderEnabled d |}
  else Some d.

End ParamList.

(** ** fxChain.cpp: the tabs of an effect *)

Module FxTabs.

(** [maybeSwitchFxTab]: the tab that gets the focus, for the selected tab
    and the number of tabs; [None] where the function returns false
    because no tab is selected. *)
Definition maybeSwitchFxTab (previous : bool) (selected count : Z)
  : option Z :=
  if (selected =? -1)%Z then None
  else if previous then
    Some (if (selected >? 0)%Z then selected - 1 else count - 1)%Z
  else
    Some (if (selected <? count - 1)%Z then selected + 1 else 0)%Z.

End FxTabs.

(** ** fxChain.cpp: the list of presets *)

Module Presets.

(** An item of the list view: its text, the index of the preset in
    REAPER's combo box, and whether it is selected and focused. *)
Record Item : Type := {
  pszText : string;
  lParam : Z;
  selected : bool
}.

(** [getSelectedPreset]: the index kept by the focused item, or -1. *)
Fixpoint getSelectedPreset (view : list Item) : Z :=
  match view with
  | [] => -1
  | item :: rest =>
      if selected item then lParam item else getSelectedPreset rest
  end.

Section Filtered.

Variable filter : string.

(** The loop of [updateList] over the texts of the combo box, from
    [comboIndex] on. *)
Fixpoint insert_from (oldSel comboIndex : Z) (texts : list string)
  : list Item :=
  match texts with
  | [] => []
  | text :: rest =>
      if negb (Filter.shouldIncludePreset filter text) then
        insert_from oldSel (comboIndex + 1) rest
      else
        {| pszText := text; lParam := comboIndex;
           (* Preserve the previous selection when filtering. *)
           selected := (comboIndex =? oldSel) |}
        :: insert_from oldSel (comboIndex + 1) rest
  end.

(** [updateList], for the texts and the selection of the combo box and
    the list so far. *)
Definition updateList (combo : list string) (comboSel : Z)
  (view : list Item) : list Item :=
  let oldSel := getSelectedPreset view in
  let oldSel := if oldSel =? -1 then comboSel else oldSel in
  insert_from oldSel 0 combo.

End Filtered.

(** [applyPreset]: the selection of the combo box afterwards. *)
Definition applyPreset (view : list Item) (comboSel : Z) : Z :=
  let preset := getSelectedPreset view in
  if negb (preset =? -1) then preset else comboSel.

End Presets.

(** * Properties *)

(** ** FxIterator *)

Section IntFacts.

Import FxIterator.

Lemma int_range x : in_int (int x).
Proof.
  unfold int, in_int. pose proof (Z.mod_pos_bound (x + 2 ^ 31) (2 ^ 32)). lia.
Qed.

Lemma int_small x : in_int x -> int x = x.
Proof. unfold int, in_int. intros H. rewrite Z.mod_small; lia. Qed.

Lemma int_spec x : exists k, int x = x + 2 ^ 32 * k.
Proof.
  unfold int. exists (- ((x + 2 ^ 31) / 2 ^ 32)).
  pose proof (Z.div_mod (x + 2 ^ 31) (2 ^ 32)). lia.
Qed.

Lemma int_congr x y k : x = y + 2 ^ 32 * k -> int x = int y.
Proof.
  intros ->. unfold int. f_equal.
  replace (y + 2 ^ 32 * k + 2 ^ 31) with (y + 2 ^ 31 + k * 2 ^ 32) by lia.
  apply Z.mod_add. lia.
Qed.

Lemma int_idem a : int (int a) = int a.
Proof. apply int_small, int_range. Qed.

Lemma int_add_l a b : int (int a + b) = int (a + b).
Proof. destruct (int_spec a) as [k ->]. apply (int_congr _ _ k). lia. Qed.

Lemma int_add_r a b : int (a + int b) = int (a + b).
Proof. destruct (int_spec b) as [k ->]. apply (int_congr _ _ k). lia. Qed.

Lemma int_mul_l a b : int (int a * b) = int (a * b).
Proof.
  destruct (int_spec a) as [k ->]. apply (int_congr _ _ (k * b)). ring.
Qed.

Lemma int_mul_r a b : int (a * int b) = int (a * b).
Proof.
  destruct (int_spec b) as [k ->]. apply (int_congr _ _ (a * k)). ring.
Qed.

Lemma int_value_intro x e : x = int e -> int_value x e.
Proof. intros ->. split; [reflexivity | apply int_small]. Qed.

End IntFacts.

(** Equality up to a multiple of 2^32: sums and products of [int]s can be
    reduced once, at the end. *)
#[global] Instance eqm_equivalence : Equivalence FxIterator.eqm.
Proof.
  unfold FxIterator.eqm. split.
  - intros x. reflexivity.
  - intros x y H. now symmetry.
  - intros x y z H1 H2. now rewrite H1.
Qed.

#[global] Instance add_eqm :
  Proper (FxIterator.eqm ==> FxIterator.eqm ==> FxIterator.eqm) Z.add.
Proof.
  unfold FxIterator.eqm. intros x x' Hx y y' Hy.
  rewrite <- (int_add_l x), <- (int_add_r _ y), Hx, Hy.
  now rewrite int_add_l, int_add_r.
Qed.

#[global] Instance mul_eqm :
  Proper (FxIterator.eqm ==> FxIterator.eqm ==> FxIterator.eqm) Z.mul.
Proof.
  unfold FxIterator.eqm. intros x x' Hx y y' Hy.
  rewrite <- (int_mul_l x), <- (int_mul_r _ y), Hx, Hy.
  now rewrite int_mul_l, int_mul_r.
Qed.

Lemma int_eqm x : FxIterator.eqm (FxIterator.int x) x.
Proof. apply int_idem. Qed.

(** A goal [int a = int b]: drop the reductions inside [a] and [b], and
    compare the exact values. *)
Ltac int_norm :=
  match goal with
  | |- FxIterator.int ?a = FxIterator.int ?b => change (FxIterator.eqm a b)
  end;
  rewrite ?int_eqm;
  unfold FxIterator.eqm; apply (f_equal FxIterator.int).

Section FxIteratorFacts.

Import FxIterator.

Variable h : Host.

Lemma linked_set_index r i f up :
  linked r (f :: up) -> linked r (set_index i f :: up).
Proof.
  destruct up as [|parent above]; [trivial|].
  cbn [linked set_index multiplier containerFxIndex]. tauto.
Qed.

Lemma linked_tail r f up : linked r (f :: up) -> linked r up.
Proof.
  destruct up as [|parent above].
  - trivial.
  - intros (_ & _ & H). exact H.
Qed.

Lemma walk_linked r stk stk' :
  linked r stk -> walk stk = Some stk' -> stk' <> [] /\ linked r stk'.
Proof.
  revert stk'. induction stk as [|current up IH]; intros stk' Hl Hw.
  - discriminate.
  - cbn [walk] in Hw.
    destruct (int (indexInContainer current + 1) <? containerCount current).
    + injection Hw as <-. split; [discriminate|].
      now apply linked_set_index.
    + apply IH; [now apply linked_tail with current | exact Hw].
Qed.

Lemma success_indexed stk r b it :
  linked r stk -> success h stk r = Some (b, it) ->
  b = true /\ stack it = stk /\ rec it = r /\ indexed it.
Proof.
  intros Hl Hs. destruct stk as [|item up]; [discriminate|].
  unfold success in Hs. injection Hs as <- <-.
  repeat split; trivial.
Qed.

Lemma make_indexed : indexed (make h).
Proof. unfold indexed, make; cbn [stack]. split; [reflexivity | exact I]. Qed.

Lemma next_indexed it b it' :
  indexed it -> next h it = Some (b, it') -> b = true -> indexed it'.
Proof.
  unfold indexed at 1, next. intros Hi Hn Hb.
  destruct (stack it) as [|current up] eqn:Hstk; [contradiction|].
  destruct Hi as [Hfx Hl].
  destruct (negb (containedCount it =? 0)).
  - apply success_indexed in Hn; [tauto|].
    change (linked (rec it) (?s :: current :: up))
      with (multiplier s
            = int (multiplier current * int (containerCount current + 1))
            /\ containerFxIndex s =
                 match up with
                 | [] => int (int (0x2000000 + indexInContainer current) + 1)
                 | _ :: _ => frame_index (rec it) false current
                 end
            /\ linked (rec it) (current :: up)).
    split; [reflexivity|]. split; [|exact Hl].
    cbn [containerFxIndex]. unfold is_root in Hfx.
    destruct up as [|parent above]; [reflexivity|].
    replace (Z.of_nat (List.length (current :: parent :: above)) =? 1)
      with false in * by (symmetry; apply Z.eqb_neq; cbn [List.length]; lia).
    exact Hfx.
  - destruct (walk (current :: up)) as [stk|] eqn:Hw.
    + apply walk_linked with (r := rec it) in Hw; [|exact Hl].
      apply success_indexed in Hn; tauto.
    + destruct (is_track h && negb (rec it)).
      * unfold firstRec in Hn.
        destruct (0 <? TrackFX_GetRecCount h).
        -- apply success_indexed in Hn; [tauto | exact I].
        -- injection Hn as <- _. discriminate.
      * injection Hn as <- _. discriminate.
Qed.

Lemma yielded_indexed it : yielded h it -> indexed it.
Proof.
  induction 1 as [it Hn | it it' _ IH Hn].
  - apply (next_indexed (make h) true it); auto using make_indexed.
  - apply (next_indexed it true it'); auto.
Qed.

(** The iterators that [run] reaches are yielded. *)
Lemma run_yielded n : forall it0 it,
  it0 = make h \/ yielded h it0 ->
  run (S n) h it0 = Some it -> yielded h it.
Proof.
  induction n as [|n IH]; intros it0 it H0 Hrun; cbn [run] in Hrun;
    destruct (next h it0) as [[[|] it1]|] eqn:Hn; try discriminate.
  - injection Hrun as <-.
    destruct H0 as [->|Hy]; [now apply yielded_first|].
    now apply yielded_next with it0.
  - apply (IH it1 it); [right | exact Hrun].
    destruct H0 as [->|Hy]; [now apply yielded_first|].
    now apply yielded_next with it0.
Qed.

(** C1, as the code has it.  Every node the iterator yields has the flat
    index of the numbering scheme, computed on [int]s: each equation of
    the scheme holds of the values reduced to 32 bits, and holds as it is
    written whenever its right-hand side is an [int].  At the root level
    the index is [indexInContainer] for the normal tree and
    [indexInContainer + 0x1000000] for the input or monitoring tree.  At a
    nested level it is
    [base_offset + (indexInContainer + 1) * multiplier + containerFxIndex],
    where the level's multiplier is
    [parent.multiplier * (parent.containerCount + 1)] and
    [containerFxIndex] is [0x2000000 + parent.indexInContainer + 1] for a
    container entered from the root level and the parent's own flat index
    for deeper levels. *)
Theorem FxIterator_flat_index it :
  yielded h it ->
  match stack it with
  | [] => False
  | [item] =>
      int_value (getFxIndex it)
        (if rec it then indexInContainer item + 0x1000000
         else indexInContainer item)
  | item :: parent :: above =>
      int_value (getFxIndex it)
        (base_offset (rec it)
         + (indexInContainer item + 1) * multiplier item
         + containerFxIndex item)
      /\ int_value (multiplier item)
           (multiplier parent * (containerCount parent + 1))
      /\ int_value (containerFxIndex item)
           match above with
           | [] => 0x2000000 + indexInContainer parent + 1
           | _ :: _ =>
               base_offset (rec it)
               + (indexInContainer parent + 1) * multiplier parent
               + containerFxIndex parent
           end
  end.
Proof.
  intros Hy. apply yielded_indexed in Hy. unfold indexed in Hy.
  unfold getFxIndex.
  destruct (stack it) as [|item [|parent above]]; [exact Hy| |].
  - destruct Hy as [Hfx _]. apply int_value_intro. rewrite Hfx.
    unfold frame_index, is_root, base_offset. cbn [List.length Z.of_nat].
    cbn [Pos.of_succ_nat Z.eqb Pos.eqb].
    destruct (rec it); f_equal; lia.
  - destruct Hy as [Hfx (Hm & Hc & _)].
    split; [|split]; apply int_value_intro.
    + rewrite Hfx. unfold frame_index, is_root.
      replace (Z.of_nat (List.length (item :: parent :: above)) =? 1)
        with false by (symmetry; apply Z.eqb_neq; cbn [List.length]; lia).
      int_norm. lia.
    + rewrite Hm. int_norm. reflexivity.
    + rewrite Hc. destruct above.
      * int_norm. lia.
      * unfold frame_index. int_norm. lia.
Qed.

End FxIteratorFacts.

(** The equations do not hold of the exact values: in a container of 4
    effects inside a container of 9999 inside a chain of 60000, the scheme
    gives 2433654434 for the last of the 4, which is not an [int]; the
    index that the iterator caches is that number reduced to 32 bits. *)
Lemma FxIterator_flat_index_counterexample :
  exists it item up,
    FxIterator.yielded FxExamples.deep_host it
    /\ FxIterator.stack it = item :: up
    /\ List.length up = 2%nat
    /\ FxIterator.getFxIndex it = -1861312862
    /\ FxIterator.base_offset (FxIterator.rec it)
       + (FxIterator.indexInContainer item + 1) * FxIterator.multiplier item
       + FxIterator.containerFxIndex item = 2433654434.
Proof.
  eexists _, _, _. split.
  - apply (run_yielded FxExamples.deep_host 5 _ _ (or_introl eq_refl)).
    vm_compute. reflexivity.
  - split; [reflexivity|]. repeat split.
Qed.

Lemma FxIterator_flat_index_witness :
  FxIterator.yielded (FxTree.example_host true) FxTree.at_D
  /\ FxIterator.getFxIndex FxTree.at_D = 0 + (1 + 1) * 4 + 0x2000002
  /\ 4 = 1 * (3 + 1)
  /\ 0x2000002 = 0x2000000 + 1 + 1.
Proof.
  assert (Hy : FxIterator.yielded (FxTree.example_host true) FxTree.at_D).
  { apply FxIterator.yielded_next with FxTree.at_C; [|reflexivity].
    apply FxIterator.yielded_next with FxTree.at_B; [|reflexivity].
    apply FxIterator.yielded_next with FxTree.at_A; [|reflexivity].
    apply FxIterator.yielded_first. reflexivity. }
  split; [exact Hy|].
  destruct (FxIterator_flat_index (FxTree.example_host true) FxTree.at_D Hy)
    as ((_ & Hindex) & (_ & Hmult) & (_ & Hcontainer)).
  split; [|split].
  - apply Hindex. unfold FxIterator.in_int. cbn. lia.
  - apply Hmult. unfold FxIterator.in_int. cbn. lia.
  - apply Hcontainer. unfold FxIterator.in_int. cbn. lia.
Defined.

Section FxIteratorExample.

Import FxIterator.

Variable h : Host.
Hypothesis top_level : FX_GetCount h = 3.
Hypothesis B_contains : container_count h 1 = 2.
Hypothesis others_contain : forall i, i <> 1 -> container_count h i = 0.
Hypothesis no_input_fx : is_track h = true -> TrackFX_GetRecCount h <= 0.

Ltac run_next :=
  unfold next, make, FxTree.at_A, FxTree.at_B, FxTree.at_C, FxTree.at_D,
    FxTree.at_E, FxTree.at_node, FxTree.frame;
  rewrite ?top_level;
  cbv - [container_count is_track TrackFX_GetRecCount FX_GetCount];
  rewrite ?B_contains, ?others_contain by discriminate;
  try reflexivity.

Lemma example_first : next h (make h) = Some (true, FxTree.at_A).
Proof. run_next. Qed.

Lemma example_A : next h FxTree.at_A = Some (true, FxTree.at_B).
Proof. run_next. Qed.

Lemma example_B : next h FxTree.at_B = Some (true, FxTree.at_C).
Proof. run_next. Qed.

Lemma example_C : next h FxTree.at_C = Some (true, FxTree.at_D).
Proof. run_next. Qed.

Lemma example_D : next h FxTree.at_D = Some (true, FxTree.at_E).
Proof. run_next. Qed.

Lemma example_E : exists it, next h FxTree.at_E = Some (false, it).
Proof.
  run_next. destruct (is_track h) eqn:Ht.
  - specialize (no_input_fx eq_refl).
    destruct (TrackFX_GetRecCount h) as [|p|p]; try (eexists; reflexivity).
    lia.
  - eexists; reflexivity.
Qed.

Lemma example_iterate fuel :
  (6 <= fuel)%nat ->
  iterate fuel h (make h)
  = Some (map node_of [FxTree.at_A; FxTree.at_B; FxTree.at_C; FxTree.at_D;
                       FxTree.at_E]).
Proof.
  intros Hfuel.
  destruct fuel as [|[|[|[|[|[|fuel]]]]]]; try lia.
  destruct example_E as [it HE].
  cbn [iterate].
  rewrite example_first, example_A, example_B, example_C, example_D, HE.
  reflexivity.
Qed.

End FxIteratorExample.

(** Entering a container: when the node just yielded is a container, [next]
    pushes a frame for its children and yields the first of them. *)
Lemma next_enters_container h it :
  FxIterator.stack it <> [] -> FxIterator.isContainer it = true ->
  exists it',
    FxIterator.next h it = Some (true, it')
    /\ tl (FxIterator.stack it') = FxIterator.stack it
    /\ FxIterator.position it' = Some 1
    /\ FxIterator.getLevel it' = FxIterator.getLevel it + 1.
Proof.
  unfold FxIterator.isContainer, FxIterator.next, FxIterator.success.
  intros Hstk Hc. destruct (FxIterator.stack it) as [|current up] eqn:E;
    [congruence|].
  rewrite Hc. eexists. split; [reflexivity|].
  unfold FxIterator.position, FxIterator.getLevel.
  cbn [FxIterator.stack tl FxIterator.indexInContainer]. rewrite E.
  repeat split. cbn [List.length]. lia.
Qed.

(** C2.  For the effect tree [A, B(container: [C, D]), E], the successive
    calls of [next] yield A, B, C, D, E, at levels 1, 1, 2, 2, 1, and then
    report the end.  The call that follows a container pushes a frame for
    its children and yields the first child at once. *)
Theorem FxIterator_example_order (h : FxIterator.Host) (fuel : nat) :
  FxIterator.FX_GetCount h = 3 ->
  FxIterator.container_count h 1 = 2 ->
  (forall i, i <> 1 -> FxIterator.container_count h i = 0) ->
  (FxIterator.is_track h = true -> FxIterator.TrackFX_GetRecCount h <= 0) ->
  (6 <= fuel)%nat ->
  exists nodes,
    FxIterator.iterate fuel h (FxIterator.make h) = Some nodes
    /\ map (fun n => (FxIterator.node_level n, FxIterator.node_position n)) nodes
       = map (fun x => (snd (fst x), Some (snd x)))
           (FxTree.preorder_chain FxTree.example 1)
    /\ map (fun x => fst (fst x)) (FxTree.preorder_chain FxTree.example 1)
       = ["A"; "B"; "C"; "D"; "E"]%string
    /\ map FxIterator.node_level nodes = [1; 1; 2; 2; 1]
    /\ map FxIterator.node_index nodes = [0; 1; 0x2000006; 0x200000A; 2]
    /\ map FxIterator.node_container nodes = [false; true; false; false; false]
    /\ FxIterator.next h FxTree.at_B = Some (true, FxTree.at_C)
    /\ (forall it,
          FxIterator.stack it <> [] -> FxIterator.isContainer it = true ->
          exists it',
            FxIterator.next h it = Some (true, it')
            /\ tl (FxIterator.stack it') = FxIterator.stack it
            /\ FxIterator.position it' = Some 1
            /\ FxIterator.getLevel it' = FxIterator.getLevel it + 1).
Proof.
  intros H3 HB Hothers Hrec Hfuel.
  eexists. split; [now apply example_iterate|].
  repeat split; try reflexivity.
  - now apply example_B.
  - intros it. apply next_enters_container.
Qed.

Lemma FxIterator_example_order_witness :
  exists nodes,
    FxIterator.iterate 6 (FxTree.example_host true)
      (FxIterator.make (FxTree.example_host true)) = Some nodes
    /\ map FxIterator.node_level nodes = [1; 1; 2; 2; 1]
    /\ map FxIterator.node_index nodes = [0; 1; 0x2000006; 0x200000A; 2].
Proof.
  destruct (FxIterator_example_order (FxTree.example_host true) 6)
    as (nodes & Hrun & _ & _ & Hlevel & Hindex & _).
  - reflexivity.
  - reflexivity.
  - intros i Hi. unfold FxTree.example_host, FxIterator.container_count.
    destruct (Z.eqb_spec i 1); [contradiction | reflexivity].
  - intros _. discriminate.
  - apply le_n.
  - exists nodes. auto.
Defined.

(** ** FxParams: parameter names *)

Section ParamNames.

Import Params.FxParams.

Local Open Scope string_scope.

Lemma chars_app (a b : string) :
  list_ascii_of_string (a ++ b)
  = (list_ascii_of_string a ++ list_ascii_of_string b)%list.
Proof. induction a as [|c a IH]; cbn; [reflexivity | now rewrite IH]. Qed.

Lemma uint_digits (d : Decimal.uint) :
  forallb is_digit (list_ascii_of_string (NilEmpty.string_of_uint d)) = true.
Proof. induction d; cbn; auto. Qed.

Lemma to_uint_not_nil (p : positive) : Pos.to_uint p <> Decimal.Nil.
Proof.
  intros H. pose proof (DecimalPos.Unsigned.of_to p) as Hp.
  rewrite H in Hp. discriminate.
Qed.

(** The decimal text of a number that is not negative: digits only. *)
Lemma string_of_int_digits (n : Z) :
  0 <= n -> forallb is_digit (list_ascii_of_string (string_of_int n)) = true.
Proof.
  intros Hn. unfold string_of_int. destruct n as [|p|p]; [reflexivity| |lia].
  cbn [Z.to_int NilZero.string_of_int]. unfold NilZero.string_of_uint.
  destruct (Pos.to_uint p) eqn:E; try apply uint_digits.
  reflexivity.
Qed.

Lemma string_of_int_parses (n : Z) :
  NilZero.int_of_string (string_of_int n) = Some (Z.to_int n).
Proof.
  unfold string_of_int. apply NilZero.isi; destruct n; try discriminate;
    cbn [Z.to_int]; intros [= H]; now apply to_uint_not_nil in H.
Qed.

Lemma string_of_int_inj (n n' : Z) :
  string_of_int n = string_of_int n' -> n = n'.
Proof.
  intros H. apply DecimalZ.to_int_inj.
  pose proof (string_of_int_parses n) as Hn. rewrite H in Hn.
  rewrite string_of_int_parses in Hn. now injection Hn.
Qed.

(** Two lists that agree, each a run of digits before a character that is
    not a digit, have the same run. *)
Lemma digit_run_unique (l1 l2 r1 r2 : list ascii) (c : ascii) :
  forallb is_digit l1 = true -> forallb is_digit l2 = true ->
  is_digit c = false ->
  (l1 ++ c :: r1)%list = (l2 ++ c :: r2)%list -> l1 = l2.
Proof.
  intros H1 H2 Hc. revert l2 H2.
  induction l1 as [|x l1 IH]; intros [|y l2] H2 E; cbn in *.
  - reflexivity.
  - injection E as -> _. apply andb_prop in H2. destruct H2; congruence.
  - injection E as -> _. apply andb_prop in H1. destruct H1; congruence.
  - injection E as -> E. apply andb_prop in H1, H2.
    f_equal. now apply IH.
Qed.

Lemma forallb_rev_true {A} (f : A -> bool) (l : list A) :
  forallb f l = true -> forallb f (rev l) = true.
Proof.
  rewrite !forallb_forall. intros H x Hx. apply H. now apply in_rev.
Qed.

Lemma rev_chars_inj (a b : string) :
  rev (list_ascii_of_string a) = rev (list_ascii_of_string b) -> a = b.
Proof.
  intros H. apply (f_equal (@rev ascii)) in H. rewrite !rev_involutive in H.
  apply (f_equal string_of_list_ascii) in H.
  now rewrite !string_of_list_ascii_of_string in H.
Qed.

(** The number in the suffix is determined by the whole name. *)
Lemma numbered_suffix_inj (a b : string) (p q : Z) :
  0 <= p -> 0 <= q ->
  a ++ " (" ++ string_of_int p ++ ")" = b ++ " (" ++ string_of_int q ++ ")" ->
  p = q.
Proof.
  intros Hp Hq E.
  apply (f_equal (fun s => rev (list_ascii_of_string s))) in E.
  rewrite !chars_app, !rev_app_distr in E. cbn [list_ascii_of_string rev] in E.
  rewrite <- !app_assoc in E. cbn [app] in E. injection E as E.
  apply string_of_int_inj, rev_chars_inj.
  eapply digit_run_unique with (c := "("%char); [| | reflexivity | exact E];
    apply forallb_rev_true; now apply string_of_int_digits.
Qed.

Variable src : t.

Lemma getParamName_suffix (param : Z) :
  0 <= param ->
  exists name,
    getParamName src param = Some (name ++ " (" ++ string_of_int param ++ ")").
Proof.
  intros Hp. unfold getParamName.
  destruct (param <? Z.of_nat (List.length (namedConfigParams src)))%Z eqn:Hn.
  - replace (param <? 0)%Z with false by (symmetry; apply Z.ltb_ge; lia).
    destruct (nth_error (namedConfigParams src) (Z.to_nat param)) eqn:E.
    + eexists; reflexivity.
    + apply nth_error_None in E. apply Z.ltb_lt in Hn. lia.
  - eexists; reflexivity.
Qed.

(** C10.  The name [getParamName] returns for a parameter index [p] ends
    with [" (p)"], [p] written in decimal, so two distinct indices of one
    source never have the same name, whatever names the host reports. *)
Theorem getParamName_numbered (p q : Z) :
  0 <= p -> 0 <= q ->
  (exists name,
     getParamName src p = Some (name ++ " (" ++ string_of_int p ++ ")")
     /\ option_map Z.of_int (NilZero.int_of_string (string_of_int p)) = Some p)
  /\ (p <> q -> getParamName src p <> getParamName src q).
Proof.
  intros Hp Hq. split.
  - destruct (getParamName_suffix p Hp) as [name E]. exists name.
    split; [exact E|].
    rewrite string_of_int_parses. cbn [option_map]. now rewrite DecimalZ.of_to.
  - intros Hpq E.
    destruct (getParamName_suffix p Hp) as [a Ea].
    destruct (getParamName_suffix q Hq) as [b Eb].
    rewrite Ea, Eb in E. injection E as E.
    now apply numbered_suffix_inj in E.
Qed.

End ParamNames.

Lemma getParamName_numbered_witness :
  let src := {| Params.FxParams.namedConfigParams := ["Band 1 enable"%string];
                Params.FxParams.GetParamName := fun _ => "Gain"%string |} in
  Params.FxParams.getParamName src 1 = Some "Gain (1)"%string
  /\ Params.FxParams.getParamName src 1 <> Params.FxParams.getParamName src 2.
Proof.
  intros src.
  destruct (getParamName_numbered src 1 2) as [_ H]; [lia | lia |].
  split; [reflexivity | apply H; lia].
Defined.

(** ** The enumerated and the volume parameter *)

Section NamedConfigFacts.

Import Params Params.NamedConfig.

Lemma find_value_bounds valueStr values v0 v :
  find_value valueStr values v0 = Some v ->
  v0 <= v < v0 + Z.of_nat (List.length values).
Proof.
  revert v0. induction values as [|[first second] rest IH]; intros v0 H.
  - discriminate.
  - cbn [find_value] in H. cbn [List.length].
    destruct (String.eqb valueStr second).
    + injection H as ->. lia.
    + apply IH in H. lia.
Qed.

Lemma find_value_none valueStr values v0 :
  (forall first second, In (first, second) values -> second <> valueStr) ->
  find_value valueStr values v0 = None.
Proof.
  revert v0. induction values as [|[first second] rest IH]; intros v0 H.
  - reflexivity.
  - cbn [find_value]. destruct (String.eqb_spec valueStr second) as [->|_].
    + exfalso. now apply (H first second); [left|].
    + apply IH. intros f s' Hin. apply (H f s'). now right.
Qed.

(** C7.  [getValue] of an enumerated parameter over a table of N entries
    is an integer from 0 to N-1 whatever the host reports, and it is 0 when
    the host reports nothing, an empty text, or a text that is not in the
    table. *)
Theorem NamedConfig_getValue_ordinal
  (values : FxNamedConfigParamValues) (reported : option string) :
  values <> [] ->
  (exists v : Z,
     getValue values reported = double_of_int v
     /\ 0 <= v <= Z.of_nat (List.length values) - 1)
  /\ (reported = None \/ reported = Some ""%string ->
      getValue values reported = 0%float)
  /\ (forall valueStr,
        reported = Some valueStr ->
        (forall first second, In (first, second) values -> second <> valueStr) ->
        getValue values reported = 0%float).
Proof.
  intros Hne. unfold getValue. repeat split.
  - assert (0 < Z.of_nat (List.length values))
      by (destruct values; [congruence | cbn [List.length]; lia]).
    destruct (String.eqb _ ""); [exists 0; split; [reflexivity | lia]|].
    destruct (find_value _ values 0) as [v|] eqn:E.
    + exists v. split; [reflexivity|]. apply find_value_bounds in E. lia.
    + exists 0. split; [reflexivity | lia].
  - intros [-> | ->]; reflexivity.
  - intros valueStr -> Hnone.
    destruct (String.eqb valueStr ""); [reflexivity|].
    now rewrite find_value_none.
Qed.

End NamedConfigFacts.

Lemma NamedConfig_getValue_ordinal_witness :
  (exists v : Z,
     Params.NamedConfig.getValue Params.NamedConfig.REAEQ_BAND_TYPE_VALUES
       (Some "8"%string) = Params.double_of_int v
     /\ 0 <= v <= 11 - 1)
  /\ Params.NamedConfig.getValue Params.NamedConfig.REAEQ_BAND_TYPE_VALUES
       (Some "8"%string) = 2%float
  /\ Params.NamedConfig.getValue Params.NamedConfig.REAEQ_BAND_TYPE_VALUES
       (Some "11"%string) = 0%float.
Proof.
  destruct (NamedConfig_getValue_ordinal
              Params.NamedConfig.REAEQ_BAND_TYPE_VALUES (Some "8"%string))
    as [H _]; [discriminate|].
  split; [exact H|]. split; reflexivity.
Defined.

Section VolFacts.

Import Params Params.Vol.

Variable atof : string -> double.
Variable DB2VAL : double -> double.

(** C8.  Whether or not the polarity is flipped, editing the volume to a
    text that begins with ["-inf"] stores the mute value, and [getValue]
    then returns 0: the sign inversion of the write is undone by the
    read. *)
Theorem Vol_minus_inf_reads_zero (p : t) (rest : string) :
  let stored := setValueFromEdited atof DB2VAL p ("-inf" ++ rest)%string in
  stored = setValue p 0%float
  /\ (stored =? 0)%float = true
  /\ getValue p stored = 0%float.
Proof.
  unfold setValueFromEdited, setValue, getValue.
  cbn [append substring String.eqb Ascii.eqb Bool.eqb].
  replace (substring 0 0 rest) with ""%string by (now destruct rest).
  cbn [String.eqb]. destruct (flipSign p); repeat split; reflexivity.
Qed.

(** The polarity found by the constructor is undone by [getValue]. *)
Lemma Vol_make_flips (raw : double) :
  flipSign (make raw) = (raw <? 0)%float
  /\ getValue (make raw) raw = (if (raw <? 0)%float then - raw else raw)%float.
Proof.
  unfold make, getValue. cbn [flipSign].
  destruct (raw <? 0)%float; split; reflexivity.
Qed.

End VolFacts.

(** ** The construction of parameters *)

Section ParamFacts.

Import Params.

Local Open Scope float_scope.

(** Multiplication of binary64 numbers is commutative. *)
Lemma double_mul_comm (x y : double) : x * y = y * x.
Proof.
  apply Prim2SF_inj. rewrite !mul_spec. unfold SF64mul, SFmul.
  destruct (Prim2SF x) as [sx|sx| |sx mx ex], (Prim2SF y) as [sy|sy| |sy my ey];
    try reflexivity; try (now rewrite xorb_comm).
  now rewrite xorb_comm, Pos.mul_comm, Z.add_comm.
Qed.

(** [int(x)] truncates toward zero and is undefined outside of [int]. *)
Example int_of_double_positive : int_of_double 6.666666666666667 = Some 6%Z.
Proof. reflexivity. Qed.

Example int_of_double_negative : int_of_double (-2.5) = Some (-2)%Z.
Proof. reflexivity. Qed.

Example int_of_double_large : int_of_double 2e10 = None.
Proof. reflexivity. Qed.

(** When [x] is not negative, [int(x)] is not negative either: the
    truncation rounds down. *)
Lemma int_of_double_nonneg (x : double) (k : Z) :
  (0 <=? x) = true -> int_of_double x = Some k -> (0 <= k)%Z.
Proof.
  rewrite leb_spec. unfold int_of_double, SFleb.
  change (Prim2SF 0) with (S754_zero false).
  destruct (Prim2SF x) as [s|s| |s m e]; cbn [SFcompare]; try discriminate.
  - intros _ [= <-]. lia.
  - destruct s; [discriminate|]. intros _.
    destruct (_ && _); [|discriminate]. intros [= <-].
    apply Z.shiftl_nonneg. lia.
Qed.

(** [int(x)], where C++ defines it, is [x] truncated toward zero. *)
Lemma int_of_double_truncated (x : double) (k : Z) :
  int_of_double x = Some k ->
  truncated x k /\ (- 2 ^ 31 <= k <= 2 ^ 31 - 1)%Z.
Proof.
  unfold int_of_double, truncated.
  destruct (Prim2SF x) as [s|s| |s m e]; try discriminate.
  - intros [= <-]. split; [reflexivity | lia].
  - set (magnitude := Z.shiftl (Z.pos m) e).
    assert (Hmag : (0 <= magnitude)%Z) by (apply Z.shiftl_nonneg; lia).
    assert (Hfloor : (magnitude * 2 ^ Z.max 0 (- e)
                      <= Z.pos m * 2 ^ Z.max 0 e
                      < (magnitude + 1) * 2 ^ Z.max 0 (- e))%Z).
    { unfold magnitude. destruct (Z.le_gt_cases 0 e) as [He|He].
      - rewrite Z.shiftl_mul_pow2 by exact He.
        rewrite (Z.max_l 0 (- e)), (Z.max_r 0 e) by lia.
        rewrite Z.pow_0_r. lia.
      - assert (Hs : Z.shiftl (Z.pos m) e = (Z.pos m / 2 ^ (- e))%Z).
        { replace e with (- (- e))%Z at 1 by lia.
          rewrite Z.shiftl_opp_r. apply Z.shiftr_div_pow2. lia. }
        rewrite Hs, (Z.max_r 0 (- e)), (Z.max_l 0 e) by lia.
        rewrite Z.pow_0_r.
        assert (Hpow : (0 < 2 ^ (- e))%Z) by (apply Z.pow_pos_nonneg; lia).
        pose proof (Z.mul_div_le (Z.pos m) (2 ^ (- e)) Hpow).
        pose proof (Z.mul_succ_div_gt (Z.pos m) (2 ^ (- e)) Hpow).
        nia. }
    destruct (_ && _)%bool eqn:Hrange; [|discriminate].
    intros [= <-]. apply andb_prop in Hrange as [Hlo Hhi].
    apply Z.leb_le in Hlo, Hhi. split; [|lia].
    destruct s.
    + rewrite Z.abs_opp, (Z.abs_eq magnitude) by exact Hmag. auto.
    + rewrite (Z.abs_eq magnitude) by exact Hmag. auto.
Qed.

Lemma int_x86_converts : converts int_x86.
Proof. intros x k H. unfold int_x86. now rewrite H. Qed.

(** The large step is not [(max - min) / 50] rounded down to a multiple of
    the step.  The multiple is a product of binary64 numbers and can
    exceed the bound (0 to 85 by steps of 0.1: 1.7000000000000002 above
    1.7); a negative quotient is truncated toward zero, so upward (100 to
    0 by steps of 0.3: -1.8 above -2); and a quotient that is not an [int]
    has no truncation (0 to 1e12 by steps of 1: -2147483648 on x86). *)
Lemma FxParam_step_sizes_counterexample :
  let above := Fx.make int_x86 {| Fx.minval := 0; Fx.maxval := 85;
                                  Fx.stepOut := Some 0.1;
                                  Fx.largestepOut := None |} in
  let upward := Fx.make int_x86 {| Fx.minval := 100; Fx.maxval := 0;
                                   Fx.stepOut := Some 0.3;
                                   Fx.largestepOut := None |} in
  let beyond := Fx.make int_x86 {| Fx.minval := 0; Fx.maxval := 1e12;
                                   Fx.stepOut := Some 1;
                                   Fx.largestepOut := None |} in
  (largeStep above = 1.7000000000000002
   /\ ((max above - min above) / 50 <? largeStep above) = true)
  /\ (largeStep upward = -1.7999999999999998
      /\ ((max upward - min upward) / 50 <? largeStep upward) = true)
  /\ largeStep beyond = -2147483648.
Proof. cbv zeta. repeat split. Qed.

(** C5, as the code has it.  The step sizes of a numbered effect
    parameter, whatever the conversion [int(...)] of the build does out of
    range.  When the host reports no step, [step = (max - min) / 1000] and
    [largeStep = 20 * step].  When it reports a step but no large step,
    [largeStep] is the binary64 product [step * k], with [k] the
    conversion of the quotient [((max - min) / 50) / step], and [step]
    itself when that product is 0; where the truncation of the quotient is
    an [int], [k] is that truncation, toward zero.  When it reports both,
    they are kept. *)
Theorem FxParam_step_sizes (cast : double -> Z) (r : Fx.Reported) :
  let reported_step := Fx.written 0 (Fx.stepOut r) in
  let reported_large := Fx.written 0 (Fx.largestepOut r) in
  let p := Fx.make cast r in
  min p = Fx.minval r /\ max p = Fx.maxval r
  /\ ((reported_step =? 0) = true ->
      step p = (Fx.maxval r - Fx.minval r) / 1000
      /\ largeStep p = 20 * step p)
  /\ ((reported_step =? 0) = false -> (reported_large =? 0) = true ->
      let quotient := (Fx.maxval r - Fx.minval r) / 50 / reported_step in
      let multiple := reported_step * double_of_int (cast quotient) in
      step p = reported_step
      /\ largeStep p = (if multiple =? 0 then reported_step else multiple)
      /\ (converts cast ->
          forall k, int_of_double quotient = Some k ->
                    cast quotient = k /\ truncated quotient k))
  /\ ((reported_step =? 0) = false -> (reported_large =? 0) = false ->
      step p = reported_step /\ largeStep p = reported_large).
Proof.
  cbv zeta. unfold Fx.make.
  destruct (Fx.written 0 (Fx.stepOut r) =? 0) eqn:Hstep; cbn [negb].
  - repeat split; try discriminate. cbn [largeStep step].
    apply double_mul_comm.
  - destruct (Fx.written 0 (Fx.largestepOut r) =? 0) eqn:Hlarge.
    + split; [reflexivity|]. split; [reflexivity|].
      split; [discriminate|]. split; [|discriminate].
      intros _ _. split; [reflexivity|]. split; [reflexivity|].
      intros Hcast k Hk. split; [now apply Hcast|].
      now apply int_of_double_truncated.
    + repeat split; discriminate.
Qed.

Lemma FxParam_step_sizes_witness :
  (let p := Fx.make int_x86 {| Fx.minval := 0; Fx.maxval := 1;
                               Fx.stepOut := None; Fx.largestepOut := None |} in
   step p = 0.001 /\ largeStep p = 0.02)
  /\ (let p := Fx.make int_x86 {| Fx.minval := 0; Fx.maxval := 100;
                                  Fx.stepOut := Some 0.3;
                                  Fx.largestepOut := None |} in
      step p = 0.3 /\ largeStep p = 0.3 * 6
      /\ int_x86 (100 / 50 / 0.3) = 6%Z /\ truncated (100 / 50 / 0.3) 6)
  /\ (let p := Fx.make int_x86 {| Fx.minval := 0; Fx.maxval := 1;
                                  Fx.stepOut := Some 0.3;
                                  Fx.largestepOut := None |} in
      step p = 0.3 /\ largeStep p = 0.3).
Proof.
  cbv zeta. split; [|split].
  - destruct (FxParam_step_sizes int_x86
                {| Fx.minval := 0; Fx.maxval := 1;
                   Fx.stepOut := None; Fx.largestepOut := None |})
      as (_ & _ & H & _).
    destruct (H eq_refl) as (Hs & Hl). rewrite Hl, Hs. split; reflexivity.
  - destruct (FxParam_step_sizes int_x86
                {| Fx.minval := 0; Fx.maxval := 100;
                   Fx.stepOut := Some 0.3; Fx.largestepOut := None |})
      as (_ & _ & _ & H & _).
    destruct (H eq_refl eq_refl) as (Hs & Hl & Hk).
    destruct (Hk int_x86_converts 6%Z eq_refl) as (Hcast & Htrunc).
    split; [exact Hs|]. split; [exact Hl|]. split; [exact Hcast | exact Htrunc].
  - destruct (FxParam_step_sizes int_x86
                {| Fx.minval := 0; Fx.maxval := 1;
                   Fx.stepOut := Some 0.3; Fx.largestepOut := None |})
      as (_ & _ & _ & H & _).
    destruct (H eq_refl eq_refl) as (Hs & Hl & _).
    split; [exact Hs | exact Hl].
Defined.

(** Not every constructed parameter has [min <= max] and [step > 0].  An
    effect parameter for which the host reports [min = max] and no step
    gets [step = 0]; one for which it reports [min > max] keeps them, and
    gets a negative step; one for which it reports a negative step keeps
    it. *)
Lemma Param_well_formed_counterexample :
  let level := construct int_x86
                 (FxNumbered {| Fx.minval := 0; Fx.maxval := 0;
                                Fx.stepOut := None;
                                Fx.largestepOut := None |}) in
  let reversed := construct int_x86
                    (FxNumbered {| Fx.minval := 1; Fx.maxval := 0;
                                   Fx.stepOut := None;
                                   Fx.largestepOut := None |}) in
  let backward := construct int_x86
                    (FxNumbered {| Fx.minval := 0; Fx.maxval := 1;
                                   Fx.stepOut := Some (-0.1);
                                   Fx.largestepOut := None |}) in
  ((min level <=? max level) = true /\ step level = 0 /\ ~ well_formed level)
  /\ ((min reversed <=? max reversed) = false
      /\ (0 <? step reversed) = false /\ ~ well_formed reversed)
  /\ ((min backward <=? max backward) = true
      /\ (0 <? step backward) = false /\ ~ well_formed backward).
Proof.
  cbv zeta. unfold well_formed.
  repeat split; try (intros [H1 H2]; discriminate).
Qed.

Lemma enumerated_checked :
  forallb enumerated_ok (seq 1 1024) = true.
Proof. vm_compute. reflexivity. Qed.

(** C6, as the code has it.  Toggles, volumes, pans, lengths and enumerated
    parameters over a table of 1 to 1024 entries are constructed with
    [min <= max] and [step > 0].  A numbered effect parameter takes [min]
    and [max] from the host as they are, and for its step the step that
    the host reports or else [(max - min) / 1000]: it has [min <= max] and
    [step > 0] exactly when the host reports [min <= max] and that step is
    positive. *)
Theorem Param_well_formed (cast : double -> Z) (k : Kind) :
  let p := construct cast k in
  match k with
  | FxNumbered r =>
      let reported_step := Fx.written 0 (Fx.stepOut r) in
      let s := if reported_step =? 0
               then (Fx.maxval r - Fx.minval r) / 1000
               else reported_step in
      min p = Fx.minval r /\ max p = Fx.maxval r /\ step p = s
      /\ (well_formed p
          <-> (Fx.minval r <=? Fx.maxval r) = true /\ (0 <? s) = true)
  | Enumerated values =>
      (1 <= List.length values <= 1024)%nat -> well_formed p
  | _ => well_formed p
  end.
Proof.
  destruct k as [|raw| | |values|r]; cbn [construct]; cbv zeta.
  - split; reflexivity.
  - unfold Vol.make, Vol.getValue. cbn [Vol.flipSign].
    destruct (raw <? 0); split; reflexivity.
  - split; reflexivity.
  - split; reflexivity.
  - intros Hn. split; [|reflexivity].
    pose proof enumerated_checked as H. rewrite forallb_forall in H.
    apply (H (List.length values)). apply in_seq. lia.
  - unfold Fx.make, well_formed.
    destruct (Fx.written 0 (Fx.stepOut r) =? 0); cbn [negb];
      [|destruct (Fx.written 0 (Fx.largestepOut r) =? 0)];
      cbn [min max step]; repeat split; tauto.
Qed.

Lemma Param_well_formed_witness :
  well_formed (NamedConfig.make NamedConfig.REAEQ_BAND_TYPE_VALUES)
  /\ well_formed (Fx.make int_x86 {| Fx.minval := 0; Fx.maxval := 1;
                                     Fx.stepOut := None;
                                     Fx.largestepOut := None |}).
Proof.
  split.
  - apply (Param_well_formed int_x86
             (Enumerated NamedConfig.REAEQ_BAND_TYPE_VALUES)).
    cbn [List.length NamedConfig.REAEQ_BAND_TYPE_VALUES]. lia.
  - apply (Param_well_formed int_x86
             (FxNumbered {| Fx.minval := 0; Fx.maxval := 1;
                            Fx.stepOut := None; Fx.largestepOut := None |})).
    split; reflexivity.
Defined.

End ParamFacts.

(** ** The slider: stepping to the next change in value text *)

Section SliderFacts.

Import Params ParamsDialog.

Local Open Scope float_scope.

Variable param : Param.
Variable getValueText : double -> string.
Variable percentText : double -> string.

Local Abbreviation in_range := (in_range param).
Local Abbreviation stops := (stops param getValueText).
Local Abbreviation snap := (snap param getValueText).
Local Abbreviation onSliderChange := (onSliderChange param getValueText percentText).
Local Abbreviation translateAccel := (translateAccel param getValueText percentText).
Local Abbreviation updateValue := (updateValue param getValueText percentText).
Local Abbreviation rejected := (rejected param).
Local Abbreviation toward := (toward param).

Lemma steps_at_next j : incr_unsigned (steps_at j) = steps_at (S j).
Proof.
  unfold incr_unsigned, steps_at. rewrite Nat2Z.inj_succ.
  rewrite Zplus_mod_idemp_l. reflexivity.
Qed.

Lemma candidate_next v0 step j :
  v0 + step * double_of_unsigned (steps_at j) = candidate v0 step (S j).
Proof.
  unfold candidate, steps_at. rewrite Nat2Z.inj_succ. reflexivity.
Qed.

Lemma snap_unfold fuel v0 text0 step j :
  snap (S fuel) v0 text0 step (steps_at j) (candidate v0 step j)
  = match stops text0 (candidate v0 step j) with
    | Some why => Some (snapped v0 step j why)
    | None => snap fuel v0 text0 step (steps_at (S j)) (candidate v0 step (S j))
    end.
Proof.
  cbn [ParamsDialog.snap]. unfold ParamsDialog.stops.
  rewrite steps_at_next, candidate_next.
  destruct (in_range (candidate v0 step j)); [|reflexivity].
  destruct (String.eqb (getValueText (candidate v0 step j)) ""); [reflexivity|].
  destruct (negb _); reflexivity.
Qed.

(** With enough fuel the loop returns, and what it returns is decided by
    the first value at which it stops. *)
Lemma snap_stops v0 text0 step n why :
  (forall i, (i < n)%nat -> stops text0 (candidate v0 step i) = None) ->
  stops text0 (candidate v0 step n) = Some why ->
  forall fuel j,
    (j <= n)%nat -> (n - j < fuel)%nat ->
    snap fuel v0 text0 step (steps_at j) (candidate v0 step j)
    = Some (snapped v0 step n why).
Proof.
  intros Hbefore Hn fuel. induction fuel as [|fuel IH]; intros j Hj Hfuel.
  - lia.
  - rewrite snap_unfold.
    destruct (Nat.eq_dec j n) as [->|Hne].
    + now rewrite Hn.
    + rewrite Hbefore by lia. apply IH; lia.
Qed.

(** Whenever the loop returns, it stopped at some value tested. *)
Lemma snap_returns v0 text0 step fuel : forall j r,
  snap fuel v0 text0 step (steps_at j) (candidate v0 step j) = Some r ->
  exists n why,
    (j <= n)%nat
    /\ (forall i, (j <= i < n)%nat -> stops text0 (candidate v0 step i) = None)
    /\ stops text0 (candidate v0 step n) = Some why
    /\ r = snapped v0 step n why.
Proof.
  induction fuel as [|fuel IH]; intros j r H.
  - discriminate.
  - rewrite snap_unfold in H.
    destruct (stops text0 (candidate v0 step j)) as [why|] eqn:E.
    + injection H as <-. exists j, why. repeat split; [lia | | exact E].
      intros i Hi. lia.
    + apply IH in H. destruct H as (n & why & Hn & Hbefore & Hstop & ->).
      exists n, why. repeat split; [lia | | exact Hstop].
      intros i Hi. destruct (Nat.eq_dec i j) as [->|]; [exact E|].
      apply Hbefore. lia.
Qed.

Lemma stops_distinct text0 x :
  stops text0 x = Some Distinct ->
  in_range x = true /\ getValueText x <> ""%string /\ getValueText x <> text0.
Proof.
  unfold ParamsDialog.stops. destruct (in_range x); [|discriminate].
  destruct (String.eqb_spec (getValueText x) ""); [discriminate|].
  destruct (String.eqb_spec (getValueText x) text0); [discriminate|].
  auto.
Qed.

Lemma stops_none text0 x :
  stops text0 x = None <-> in_range x = true /\ getValueText x = text0
                           /\ text0 <> ""%string.
Proof.
  unfold ParamsDialog.stops. destruct (in_range x).
  - destruct (String.eqb_spec (getValueText x) "").
    + split; [discriminate|]. intros (_ & <- & H). contradiction.
    + destruct (String.eqb_spec (getValueText x) text0); cbn [negb].
      * split; [|reflexivity]. intros _. subst. auto.
      * split; [discriminate|]. intros (_ & H & _). contradiction.
  - split; [discriminate|]. intros (H & _). discriminate.
Qed.

Lemma stops_out_of_range text0 x :
  stops text0 x = Some OutOfRange <-> in_range x = false.
Proof.
  unfold ParamsDialog.stops. destruct (in_range x).
  - destruct (String.eqb _ ""); [|destruct (negb _)]; split; discriminate.
  - split; reflexivity.
Qed.

Lemma stops_no_text text0 x :
  stops text0 x = Some NoText -> getValueText x = ""%string.
Proof.
  unfold ParamsDialog.stops. destruct (in_range x); [|discriminate].
  destruct (String.eqb_spec (getValueText x) ""); [auto|].
  destruct (negb _); discriminate.
Qed.

Lemma onSliderChange_rejected fuel d newVal :
  rejected d newVal = true ->
  onSliderChange fuel d newVal = Some {| dialog := d; committed := None |}.
Proof.
  unfold rejected, ParamsDialog.onSliderChange. now intros ->.
Qed.

Lemma onSliderChange_accepted fuel d newVal :
  rejected d newVal = false ->
  onSliderChange fuel d newVal
  = match snap fuel newVal (valText d) (toward d newVal) (steps_at 0)
            (candidate newVal (toward d newVal) 0) with
    | None => None
    | Some v => Some {| dialog := updateValue v; committed := Some v |}
    end.
Proof.
  unfold rejected, ParamsDialog.onSliderChange. now intros ->.
Qed.

(** C4, as the code has it.  A requested value outside of [min, max] (or
    equal to the current one) is rejected: nothing is committed.
    Otherwise, when the values tested are in range and have the text shown
    until one falls outside of [min, max], the search stops there and the
    value committed is the requested one, [newVal], not the boundary. *)
Theorem onSliderChange_leaves_range (fuel : nat) (d : t) (newVal : double)
  (n : nat) :
  (rejected d newVal = true ->
   onSliderChange fuel d newVal = Some {| dialog := d; committed := None |})
  /\ (rejected d newVal = false ->
      valText d <> ""%string ->
      (forall i, (i < n)%nat ->
         in_range (candidate newVal (toward d newVal) i) = true
         /\ getValueText (candidate newVal (toward d newVal) i) = valText d) ->
      in_range (candidate newVal (toward d newVal) n) = false ->
      (n < fuel)%nat ->
      onSliderChange fuel d newVal
      = Some {| dialog := updateValue newVal; committed := Some newVal |}).
Proof.
  split; [apply onSliderChange_rejected|].
  intros Hacc Htext Hbefore Hout Hfuel.
  rewrite onSliderChange_accepted by exact Hacc.
  rewrite (snap_stops newVal (valText d) (toward d newVal) n OutOfRange).
  - reflexivity.
  - intros i Hi. apply stops_none. destruct (Hbefore i Hi). auto.
  - now apply stops_out_of_range.
  - lia.
  - lia.
Qed.

(** The snap itself: when the values tested are in range and have the text
    shown until one has another text, that value is committed. *)
Lemma onSliderChange_snaps (fuel : nat) (d : t) (newVal : double) (n : nat) :
  rejected d newVal = false ->
  (forall i, (i < n)%nat ->
     stops (valText d) (candidate newVal (toward d newVal) i) = None) ->
  stops (valText d) (candidate newVal (toward d newVal) n) = Some Distinct ->
  (n < fuel)%nat ->
  onSliderChange fuel d newVal
  = Some {| dialog := updateValue (candidate newVal (toward d newVal) n);
            committed := Some (candidate newVal (toward d newVal) n) |}.
Proof.
  intros Hacc Hbefore Hstop Hfuel.
  rewrite onSliderChange_accepted by exact Hacc.
  rewrite (snap_stops newVal (valText d) (toward d newVal) n Distinct);
    [reflexivity | exact Hbefore | exact Hstop | lia | lia].
Qed.

(** C3, as the code has it.  When the text of [v + step] is the text of
    [v], the value that a step up (the up or the right arrow) commits has
    a text different from the text of [v], unless the search reached a
    value out of range, or one without text, before any value with another
    text: then the value committed is [v + step] itself, not the
    maximum. *)
Theorem step_up_commits (fuel : nat) (d : t) (key : Key) (out : Outcome)
  (c : double) :
  key = VK_UP \/ key = VK_RIGHT ->
  translateAccel fuel d key = Some out ->
  committed out = Some c ->
  valText d = getValueText (val d) ->
  getValueText (val d + step param) = getValueText (val d) ->
  val (dialog out) = c
  /\ ((in_range c = true /\ getValueText c <> ""%string
       /\ getValueText c <> getValueText (val d))
      \/ (c = val d + step param
          /\ exists n,
               (forall i, (i < n)%nat ->
                  in_range (candidate (val d + step param)
                              (toward d (val d + step param)) i) = true
                  /\ getValueText (candidate (val d + step param)
                                     (toward d (val d + step param)) i)
                     = getValueText (val d))
               /\ (in_range (candidate (val d + step param)
                               (toward d (val d + step param)) n) = false
                   \/ getValueText (candidate (val d + step param)
                                      (toward d (val d + step param)) n)
                      = ""%string))).
Proof.
  unfold ParamsDialog.translateAccel. intros Hkey Hrun Hc Htext Hsame.
  assert (Hup : onSliderChange fuel d (val d + step param) = Some out)
    by (destruct Hkey; subst key; exact Hrun).
  clear Hrun Hkey. rename Hup into Hrun.
  destruct (rejected d (val d + step param)) eqn:Hrej.
  - rewrite onSliderChange_rejected in Hrun by exact Hrej.
    injection Hrun as <-. discriminate Hc.
  - rewrite onSliderChange_accepted in Hrun by exact Hrej.
    destruct (snap _ _ _ _ _ _) as [v|] eqn:Hsnap; [|discriminate].
    injection Hrun as <-. cbn [committed] in Hc. injection Hc as ->.
    split; [reflexivity|].
    apply snap_returns in Hsnap.
    destruct Hsnap as (n & why & _ & Hbefore & Hstop & ->).
    rewrite Htext in Hbefore, Hstop.
    destruct why; cbn [snapped].
    + right. split; [reflexivity|]. exists n. split.
      * intros i Hi. assert (Hi' : (0 <= i < n)%nat) by lia.
        apply Hbefore, stops_none in Hi'. tauto.
      * left. now apply stops_out_of_range in Hstop.
    + right. split; [reflexivity|]. exists n. split.
      * intros i Hi. assert (Hi' : (0 <= i < n)%nat) by lia.
        apply Hbefore, stops_none in Hi'. tauto.
      * right. now apply stops_no_text in Hstop.
    + left. now apply stops_distinct in Hstop.
Qed.

End SliderFacts.

Section SliderExamples.

Import Params ParamsDialog SliderExample.

Local Open Scope float_scope.

(** The up arrow can commit a value with the text of the value before and
    below the maximum: from 1.25 in [0, 1.8], shown as "1", it tests 1.5
    and 1.75, both "1", then 2.0, out of range, and commits 1.5. *)
Lemma step_up_counterexample :
  whole_text (1.25 + step narrow) = whole_text 1.25
  /\ translateAccel narrow whole_text percent_text 10 (showing 1.25) VK_UP
     = Some {| dialog := showing 1.5; committed := Some 1.5 |}
  /\ whole_text 1.5 = whole_text 1.25
  /\ (1.5 =? max narrow) = false.
Proof. repeat split. Qed.

Lemma step_up_commits_witness :
  translateAccel wide whole_text percent_text 10 (showing 1.25) VK_UP
  = Some {| dialog := showing 2; committed := Some 2 |}
  /\ val (showing 2) = 2
  /\ whole_text 2 <> whole_text 1.25.
Proof.
  pose proof (step_up_commits wide whole_text percent_text 10 (showing 1.25)
                VK_UP {| dialog := showing 2; committed := Some 2 |} 2
                (or_introl eq_refl) eq_refl eq_refl eq_refl eq_refl)
    as [Hval _].
  split; [reflexivity|]. split; [exact Hval | discriminate].
Defined.

(** The search does not clamp: the down arrow from 0.75 in [0, 4] tests
    0.5, 0.25 and 0, all shown as "0", then -0.25, out of range, and
    commits 0.5, not the minimum. *)
Lemma onSliderChange_clamp_counterexample :
  (forall i, (i < 3)%nat ->
     in_range wide (candidate (0.75 - 0.25) (- 0.25) i) = true
     /\ whole_text (candidate (0.75 - 0.25) (- 0.25) i) = whole_text 0.75)
  /\ in_range wide (candidate (0.75 - 0.25) (- 0.25) 3) = false
  /\ translateAccel wide whole_text percent_text 10 (showing 0.75) VK_DOWN
     = Some {| dialog := showing 0.5; committed := Some 0.5 |}
  /\ (0.5 =? min wide) = false.
Proof.
  repeat split; destruct i as [|[|[|i]]]; try reflexivity; lia.
Qed.

Lemma onSliderChange_leaves_range_witness :
  onSliderChange narrow whole_text percent_text 10 (showing 1.25) 1.5
  = Some {| dialog := updateValue narrow whole_text percent_text 1.5;
            committed := Some 1.5 |}.
Proof.
  apply (onSliderChange_leaves_range narrow whole_text percent_text 10
           (showing 1.25) 1.5 2).
  - reflexivity.
  - discriminate.
  - intros i Hi. destruct i as [|[|i]]; [split; reflexivity .. | lia].
  - reflexivity.
  - lia.
Defined.

End SliderExamples.

(** ** shortenFxName *)

Section FxNameFacts.

Import FxChain.

Local Open Scope string_scope.

Lemma length_app (a b : string) :
  String.length (a ++ b) = (String.length a + String.length b)%nat.
Proof. induction a as [|c a IH]; cbn; [reflexivity | now rewrite IH]. Qed.

Lemma substring_prefix (a b : string) :
  substring 0 (String.length a) (a ++ b) = a.
Proof.
  induction a as [|c a IH]; cbn.
  - now destruct b.
  - now rewrite IH.
Qed.

Lemma consumed_prefix (a b : string) : consumed (a ++ b) b = a.
Proof.
  unfold consumed. rewrite length_app.
  replace (String.length a + String.length b - String.length b)%nat
    with (String.length a) by lia.
  apply substring_prefix.
Qed.

Lemma app_empty_r (a : string) : a ++ "" = a.
Proof. induction a as [|c a IH]; cbn; [reflexivity | now rewrite IH]. Qed.

Lemma app_assoc_string (a b c : string) : (a ++ b) ++ c = a ++ b ++ c.
Proof. induction a as [|x a IH]; cbn; [reflexivity | now rewrite IH]. Qed.

Lemma star_greedy_all cls w s k r :
  all cls w = true -> ends_class cls s -> k s = Some r ->
  star_greedy cls (w ++ s) k = Some r.
Proof.
  intros Hw Hs Hk. induction w as [|c w IH]; cbn [append].
  - destruct s as [|c s]; cbn [star_greedy]; [exact Hk|].
    cbn in Hs. now rewrite Hs.
  - cbn [all] in Hw. apply andb_prop in Hw. destruct Hw as [Hc Hw].
    cbn [star_greedy]. rewrite Hc, (IH Hw). reflexivity.
Qed.

Lemma star_greedy_sound cls s k r :
  star_greedy cls s k = Some r ->
  exists w s', s = w ++ s' /\ all cls w = true /\ k s' = Some r.
Proof.
  induction s as [|c s IH]; cbn [star_greedy]; intros H.
  - exists "", "". auto.
  - destruct (cls c) eqn:Hc.
    + destruct (star_greedy cls s k) as [r'|] eqn:E.
      * injection H as ->. destruct (IH eq_refl) as (w & s' & -> & Hw & Hk).
        exists (String c w), s'. cbn [all append]. rewrite Hc. auto.
      * exists "", (String c s). auto.
    + exists "", (String c s). auto.
Qed.

(** A lazy repetition stops at the first position where the rest of the
    expression matches. *)
Lemma star_lazy_first cls n t k r :
  all cls n = true ->
  (forall n1 n2, n = n1 ++ n2 -> n2 <> "" -> k (n2 ++ t) = None) ->
  k t = Some r ->
  star_lazy cls (n ++ t) k = Some r.
Proof.
  intros Hn Hnone Hk. induction n as [|c n IH]; cbn [append].
  - destruct t; cbn [star_lazy]; now rewrite Hk.
  - cbn [all] in Hn. apply andb_prop in Hn. destruct Hn as [Hc Hn].
    cbn [star_lazy].
    assert (H0 : k (String c n ++ t) = None)
      by (apply (Hnone "" (String c n)); [reflexivity | discriminate]).
    cbn [append] in H0. rewrite H0, Hc. cbn [orelse]. apply IH; [exact Hn|].
    intros n1 n2 -> Hn2. now apply (Hnone (String c n1) n2).
Qed.

Lemma all_app cls (a b : string) :
  all cls (a ++ b) = all cls a && all cls b.
Proof.
  induction a as [|c a IH]; cbn [append all]; [reflexivity|].
  now rewrite IH, andb_assoc.
Qed.

Lemma RE_FX_NAME_eq :
  RE_FX_NAME
  = Cat Bol (Cat (Group 1 (PlusGreedy is_word)) (Cat (Lit ":") (Cat (Lit " ")
      (Cat (Group 2 (PlusLazy is_any)) TAIL)))).
Proof. reflexivity. Qed.

Lemma tail_end whole m : matches TAIL whole "" m found = Some m.
Proof. reflexivity. Qed.

Lemma tail_qualifier whole m q :
  all is_any q = true ->
  matches TAIL whole (" (" ++ q ++ ")") m found
  = Some ((3%nat, " (" ++ q ++ ")") :: m).
Proof.
  intros Hq. unfold TAIL. cbn [matches append]. rewrite !Ascii.eqb_refl.
  erewrite star_lazy_first; [reflexivity | exact Hq | |].
  - intros n1 n2 _ Hn2. destruct n2 as [|c n2]; [contradiction|].
    cbn [append]. destruct (Ascii.eqb ")" c); [|reflexivity].
    now destruct n2.
  - cbn [append]. rewrite Ascii.eqb_refl. unfold found. do 3 f_equal.
    change (String " " (String "(" (q ++ ")"))) with (" (" ++ q ++ ")").
    rewrite <- (app_empty_r (" (" ++ q ++ ")")) at 1.
    apply consumed_prefix.
Qed.

(** The tail does not match a text that is not empty and does not begin
    with [" ("]. *)
Lemma tail_none whole m c rest :
  c <> " "%char \/ ends_class (fun x => Ascii.eqb x "(") rest ->
  matches TAIL whole (String c rest) m found = None.
Proof.
  intros H. unfold TAIL. cbn [matches].
  destruct (Ascii.eqb_spec " " c) as [<-|Hc]; [|reflexivity].
  destruct H as [H|H]; [congruence|].
  destruct rest as [|d rest]; [reflexivity|]. cbn in H.
  rewrite Ascii.eqb_sym, H. reflexivity.
Qed.

Lemma tail_inside_name whole m n2 t :
  n2 <> "" -> all not_paren n2 = true ->
  t = "" \/ (exists q, t = " (" ++ q ++ ")") ->
  matches TAIL whole (n2 ++ t) m found = None.
Proof.
  intros Hne Hn Ht. destruct n2 as [|c n2]; [contradiction|].
  cbn [append]. apply tail_none.
  destruct (Ascii.eqb_spec c " ") as [->|Hc]; [right | now left].
  destruct n2 as [|d n2]; cbn [append].
  - destruct Ht as [->|[q ->]]; [exact I | reflexivity].
  - cbn [all] in Hn. unfold not_paren at 2 in Hn.
    apply andb_prop in Hn. destruct Hn as [_ Hn].
    apply andb_prop in Hn. destruct Hn as [Hd _].
    cbn. now destruct (Ascii.eqb d "(").
Qed.

Lemma search_from_head r whole s m :
  matches r whole s [] found = Some m -> search_from r whole s = Some m.
Proof. intros H. destruct s; cbn [search_from]; now rewrite H. Qed.

(** The groups captured on a name [w: n] with or without a qualifier [t]. *)
Lemma regex_search_named w n t m3 :
  w <> "" -> all is_word w = true ->
  n <> "" -> all is_any n = true -> all not_paren n = true ->
  (t = "" /\ m3 = []) \/
  (exists q, t = " (" ++ q ++ ")" /\ all is_any q = true /\ m3 = [(3%nat, t)]) ->
  regex_search (w ++ ": " ++ n ++ t) RE_FX_NAME
  = Some (m3 ++ [(2%nat, n); (1%nat, w)])%list.
Proof.
  intros Hw Hword Hn Hany Hparen Ht.
  unfold regex_search. apply search_from_head.
  rewrite RE_FX_NAME_eq. cbn [matches]. rewrite Nat.eqb_refl.
  destruct w as [|c w]; [contradiction|]. cbn [all] in Hword.
  apply andb_prop in Hword. destruct Hword as [Hc Hword].
  cbn [append plus_greedy]. rewrite Hc.
  apply star_greedy_all; [exact Hword | reflexivity |].
  cbn [append]. rewrite !Ascii.eqb_refl.
  change (String c (w ++ String ":" (String " " (n ++ t))))
    with (String c w ++ ": " ++ n ++ t).
  change (String ":" (String " " (n ++ t))) with (": " ++ n ++ t).
  rewrite consumed_prefix.
  destruct n as [|d n]; [contradiction|]. cbn [all] in Hany, Hparen.
  apply andb_prop in Hany. destruct Hany as [Hd Hany].
  apply andb_prop in Hparen. destruct Hparen as [Hd' Hparen].
  cbn [append plus_lazy]. rewrite Hd.
  apply star_lazy_first; [exact Hany | |].
  - intros n1 n2 -> Hn2.
    rewrite all_app in Hparen. apply andb_prop in Hparen.
    apply tail_inside_name; [exact Hn2 | tauto |].
    destruct Ht as [[-> _]|(q & -> & _)]; [now left | right; now exists q].
  - change (String d (n ++ t)) with (String d n ++ t).
    rewrite consumed_prefix.
    destruct Ht as [[-> ->]|(q & -> & Hq & ->)].
    + now rewrite tail_end.
    + now rewrite tail_qualifier.
Qed.

Lemma search_from_later r' whole s :
  (String.length s < String.length whole)%nat ->
  search_from (Cat Bol r') whole s = None.
Proof.
  induction s as [|c s IH]; intros Hlen; cbn [search_from matches].
  - replace (String.length "" =? String.length whole)%nat with false
      by (symmetry; apply Nat.eqb_neq; lia).
    reflexivity.
  - replace (String.length (String c s) =? String.length whole)%nat with false
      by (symmetry; apply Nat.eqb_neq; lia).
    cbn [orelse]. apply IH. cbn [String.length] in Hlen. lia.
Qed.

(** A name that matches begins with a word, a colon, a space and at least
    one more character. *)
Lemma regex_search_sound name m :
  regex_search name RE_FX_NAME = Some m ->
  exists w r,
    name = w ++ ": " ++ r /\ w <> "" /\ all is_word w = true /\ r <> "".
Proof.
  unfold regex_search. rewrite RE_FX_NAME_eq. intros H.
  assert (Hhead : matches
            (Cat Bol (Cat (Group 1 (PlusGreedy is_word)) (Cat (Lit ":")
               (Cat (Lit " ") (Cat (Group 2 (PlusLazy is_any)) TAIL)))))
            name name [] found = Some m).
  { destruct name as [|c name]; cbn [search_from] in H.
    - now destruct (matches _ "" "" [] found).
    - rewrite search_from_later in H by (cbn [String.length]; lia).
      now destruct (matches _ _ _ [] found). }
  clear H. cbn [matches] in Hhead. rewrite Nat.eqb_refl in Hhead.
  destruct name as [|c name]; [discriminate|].
  cbn [plus_greedy] in Hhead. destruct (is_word c) eqn:Hc; [|discriminate].
  apply star_greedy_sound in Hhead.
  destruct Hhead as (w & s' & -> & Hw & Hk).
  destruct s' as [|c1 [|c2 r]]; try discriminate.
  - destruct (Ascii.eqb ":" c1); discriminate.
  - destruct (Ascii.eqb_spec ":" c1) as [<-|]; [|discriminate].
    destruct (Ascii.eqb_spec " " c2) as [<-|]; [|discriminate].
    exists (String c w), r. cbn [all]. rewrite Hc, Hw.
    repeat split; [discriminate|].
    intros ->. discriminate.
Qed.

(** A name without a qualifier is not left as it is: the prefix is
    dropped all the same. *)
Lemma shortenFxName_counterexample :
  ~ qualified "VST: ReaEQ" /\ shortenFxName "VST: ReaEQ" <> "VST: ReaEQ".
Proof.
  split; [|discriminate].
  intros (w & n & q & E).
  apply (f_equal list_ascii_of_string) in E.
  rewrite !chars_app in E.
  assert (Hin : In "("%char (list_ascii_of_string "VST: ReaEQ")).
  { rewrite E. apply in_or_app. right. apply in_or_app. right.
    apply in_or_app. right. apply in_or_app. left. right. now left. }
  cbn in Hin. intuition discriminate.
Qed.

(** C9, as the code has it.  A name that begins with a word, a colon and a
    space loses that prefix, whether a parenthesized qualifier follows or
    not; the qualifier is dropped too, unless the word is exactly ["JS"],
    in which case it is kept.  This for a name part that is not empty and
    has no parenthesis, and no line break in it nor in the qualifier.  A
    name that does not begin with a word, a colon, a space and one more
    character is written unchanged. *)
Theorem shortenFxName_shortens :
  (forall w n,
     w <> "" -> all is_word w = true ->
     n <> "" -> all is_any n = true -> all not_paren n = true ->
     shortenFxName (w ++ ": " ++ n) = n)
  /\ (forall w n q,
        w <> "" -> all is_word w = true ->
        n <> "" -> all is_any n = true -> all not_paren n = true ->
        all is_any q = true ->
        shortenFxName (w ++ ": " ++ n ++ " (" ++ q ++ ")")
        = if String.eqb w "JS" then n ++ " (" ++ q ++ ")" else n)
  /\ (forall name,
        (forall w r,
           name = w ++ ": " ++ r -> w <> "" -> all is_word w = true ->
           r = "") ->
        shortenFxName name = name).
Proof.
  split; [|split].
  - intros w n Hw Hword Hn Hany Hparen. unfold shortenFxName.
    rewrite <- (app_empty_r n) at 1.
    rewrite (regex_search_named w n "" []) by auto.
    cbn [app str Nat.eqb]. destruct (String.eqb w "JS"); apply app_empty_r.
  - intros w n q Hw Hword Hn Hany Hparen Hq. unfold shortenFxName.
    rewrite (regex_search_named w n (" (" ++ q ++ ")") [(3%nat, " (" ++ q ++ ")")])
      by (auto; right; exists q; auto).
    cbn [app str Nat.eqb]. destruct (String.eqb w "JS");
      [reflexivity | apply app_empty_r].
  - intros name Hnone. unfold shortenFxName.
    destruct (regex_search name RE_FX_NAME) as [m|] eqn:E; [|reflexivity].
    apply regex_search_sound in E. destruct E as (w & r & -> & Hw & Hword & Hr).
    exfalso. apply Hr. now apply (Hnone w r).
Qed.

(** With several parenthesized parts, the name ends at the first. *)
Example shortenFxName_two_qualifiers :
  shortenFxName "VSTi: Kontakt 5 (Native Instruments GmbH) (16 out)"
  = "Kontakt 5".
Proof. reflexivity. Qed.

Lemma shortenFxName_shortens_witness :
  shortenFxName "VST: ReaEQ" = "ReaEQ"
  /\ shortenFxName "VST: ReaEQ (Cockos)" = "ReaEQ"
  /\ shortenFxName "JS: Volume Adjustment (Cockos)" = "Volume Adjustment (Cockos)"
  /\ shortenFxName "Container" = "Container".
Proof.
  destruct shortenFxName_shortens as (Hplain & Hqualified & Hother).
  split; [|split; [|split]].
  - apply (Hplain "VST" "ReaEQ"); reflexivity || discriminate.
  - apply (Hqualified "VST" "ReaEQ" "Cockos"); reflexivity || discriminate.
  - apply (Hqualified "JS" "Volume Adjustment" "Cockos");
      reflexivity || discriminate.
  - apply Hother. intros w r E.
    apply (f_equal list_ascii_of_string) in E. rewrite !chars_app in E.
    assert (Hin : In ":"%char (list_ascii_of_string "Container")).
    { rewrite E. apply in_or_app. right. now left. }
    cbn in Hin. intuition discriminate.
Defined.

End FxNameFacts.

(** ** More on FxIterator: safety, bounds, closed form *)

Section FxIteratorSteps.

Import FxIterator FxIndex.

Variable h : Host.

Lemma success_spec stk r b it :
  success h stk r = Some (b, it) ->
  b = true /\ stack it = stk /\ rec it = r
  /\ containedCount it = container_count h (fxIndex it)
  /\ exists item up, stk = item :: up
       /\ fxIndex it = frame_index r (is_root stk) item.
Proof.
  destruct stk as [|item up]; [discriminate|]. unfold success.
  intros [= <- <-]. cbn [stack rec fxIndex containedCount].
  repeat split. now exists item, up.
Qed.

Lemma walk_some stk stk' :
  walk stk = Some stk' ->
  exists pre cur up,
    stk = (pre ++ cur :: up)%list
    /\ stk' = set_index (int (indexInContainer cur + 1)) cur :: up
    /\ int (indexInContainer cur + 1) < containerCount cur.
Proof.
  induction stk as [|f stk IH]; [discriminate|]. cbn [walk].
  destruct (int (indexInContainer f + 1) <? containerCount f) eqn:E.
  - intros [= <-]. exists [], f, stk. apply Z.ltb_lt in E. auto.
  - intros H. destruct (IH H) as (pre & cur & up & -> & -> & Hlt).
    exists (f :: pre), cur, up. auto.
Qed.

Lemma next_cases it b it' :
  next h it = Some (b, it') ->
  Step h it it' b
  /\ (b = true ->
      containedCount it' = container_count h (fxIndex it')
      /\ exists item up, stack it' = item :: up
           /\ fxIndex it' = frame_index (rec it') (is_root (stack it')) item).
Proof.
  unfold next. destruct (stack it) as [|current up] eqn:Hstk; [discriminate|].
  destruct (negb (containedCount it =? 0)) eqn:Hc.
  - intros H. apply success_spec in H.
    destruct H as (-> & Hs & Hr & Hcc & item & up' & E & Hfx).
    split.
    + apply (step_enter h it it' current up Hstk); [exact Hc | | exact Hr].
      rewrite Hs. unfold entered. rewrite Hstk. reflexivity.
    + intros _. split; [exact Hcc|]. exists item, up'.
      rewrite Hs, Hr. auto.
  - destruct (walk (current :: up)) as [stk|] eqn:Hw.
    + intros H. apply success_spec in H.
      destruct H as (-> & Hs & Hr & Hcc & item & up' & E & Hfx).
      split.
      * apply step_walk; auto. now rewrite Hstk, Hs.
      * intros _. split; [exact Hcc|]. exists item, up'. rewrite Hs, Hr. auto.
    + destruct (is_track h) eqn:Ht, (rec it) eqn:Hrec; cbn [andb negb];
        unfold firstRec; cbn [stack];
        try (intros [= <- <-]; split; [|discriminate];
             apply step_end; auto; now rewrite Hstk).
      destruct (0 <? TrackFX_GetRecCount h) eqn:Hcount.
      * intros H. apply success_spec in H.
        destruct H as (-> & Hs & Hr & Hcc & item & up' & E & Hfx).
        split.
        -- apply step_rec; auto; try (now rewrite Hstk).
           now apply Z.ltb_lt.
        -- intros _. split; [exact Hcc|]. exists item, up'.
           rewrite Hs, Hr. auto.
      * intros [= <- <-]. split; [|discriminate].
        apply step_end; auto; try (now rewrite Hstk).
        right. right. apply Z.ltb_ge in Hcount. lia.
Qed.

Lemma next_defined it :
  stack it <> [] -> exists b it', next h it = Some (b, it').
Proof.
  unfold next. destruct (stack it) as [|current up] eqn:Hstk; [congruence|].
  intros _. destruct (negb (containedCount it =? 0)).
  - unfold success. eauto.
  - destruct (walk (current :: up)) as [stk|] eqn:Hw.
    + apply walk_some in Hw. destruct Hw as (pre & cur & up' & _ & -> & _).
      unfold success. eauto.
    + destruct (is_track h && negb (rec it)); [|eauto].
      unfold firstRec. destruct (0 <? TrackFX_GetRecCount h); [|eauto].
      unfold success. eauto.
Qed.

Lemma yielded_stack it : yielded h it -> stack it <> [].
Proof.
  intros Hy. apply yielded_indexed in Hy. unfold indexed in Hy.
  now destruct (stack it).
Qed.

End FxIteratorSteps.

Section FxIteratorInvariants.

Import FxIterator FxIndex.

Variable h : Host.

(** A property of the iterators that the caller's loop sees is proved from
    the first call and for each further call. *)
Lemma yielded_ind_from_make (P : t -> Prop) :
  (forall it, next h (make h) = Some (true, it) -> P it) ->
  (forall it it', yielded h it -> P it -> next h it = Some (true, it') -> P it') ->
  forall it, yielded h it -> P it.
Proof. intros Hfirst Hnext it Hy. induction Hy; eauto. Qed.

Lemma radices_suffix pre stk : radices (pre ++ stk) -> radices stk.
Proof. induction pre as [|f pre IH]; cbn [app radices]; tauto. Qed.

Lemma counted_tail r f up : counted h r (f :: up) -> counted h r up.
Proof. destruct up; cbn [counted]; tauto. Qed.

Lemma counted_suffix r pre stk : counted h r (pre ++ stk) -> counted h r stk.
Proof.
  induction pre as [|f pre IH]; cbn [app]; [tauto|].
  intros H. apply IH. now apply counted_tail with f.
Qed.

Lemma counted_set_index r i f up :
  counted h r (f :: up) -> counted h r (set_index i f :: up).
Proof. destruct up; cbn [counted set_index containerCount]; tauto. Qed.

Lemma linked_suffix r pre stk : linked r (pre ++ stk) -> linked r stk.
Proof.
  induction pre as [|f pre IH]; cbn [app]; [tauto|].
  intros H. apply IH. now apply linked_tail with f.
Qed.

Lemma make_kept : kept h (make h).
Proof.
  unfold kept. cbn [make stack rec containedCount radices counted radix
                      multiplier containerCount root_count].
  repeat split; try discriminate; auto using make_indexed.
Qed.

Lemma next_kept it it' :
  kept h it -> next h it = Some (true, it') -> kept h it'.
Proof.
  intros (Hne & Hidx & Hrad & Hcnt & Hcc & Hrec) Hn.
  pose proof (next_indexed h it true it' Hidx Hn eq_refl) as Hidx'.
  destruct (next_cases h it true it' Hn) as [Hstep Hsucc].
  destruct (Hsucc eq_refl) as (Hcc' & item & up' & Hstk' & Hfx').
  unfold kept. split; [congruence|]. split; [exact Hidx'|].
  inversion Hstep as [current up Hstk Hcont Hs Hr | Hcont Hw Hr
                     | Hcont Hw Ht Hr0 Hcount Hs Hr | ]; subst.
  - (* entering a container *)
    rewrite Hs, Hr, Hstk in *. cbn [radices] in Hrad.
    destruct Hrad as [Hm Hup].
    split; [|split; [|split; [now right | exact Hrec]]].
    + cbn [radices]. split; [|tauto].
      cbn [entered multiplier radix]. rewrite Hm. int_norm. lia.
    + cbn [counted entered containerCount]. split; [|exact Hcnt].
      unfold isContainer in Hcont. destruct Hcc as [E|E];
        [rewrite E in Hcont; discriminate|].
      rewrite E. f_equal. unfold indexed in Hidx. rewrite Hstk in Hidx.
      tauto.
  - (* the next effect of this or of an outer container *)
    apply walk_some in Hw. destruct Hw as (pre & cur & up & E & E' & _).
    rewrite E', Hr, E in *.
    split; [|split; [|split; [now right | exact Hrec]]].
    + apply radices_suffix in Hrad. cbn [radices] in Hrad |- *. tauto.
    + apply counted_suffix in Hcnt. now apply counted_set_index.
  - (* the first input effect *)
    rewrite Hs, Hr.
    split; [|split; [|split; [now right | auto]]].
    + cbn [radices rec_root multiplier radix]. auto.
    + reflexivity.
Qed.

Lemma yielded_kept it : yielded h it -> kept h it.
Proof.
  induction 1 as [it Hn | it it' _ IH Hn].
  - now apply (next_kept (make h)); [apply make_kept|].
  - now apply (next_kept it).
Qed.

(** The flat index of a nested frame, from the positions and counts. *)
Lemma frame_index_closed r stk item parent above :
  stk = item :: parent :: above ->
  linked r stk -> radices stk ->
  frame_index r false item = int (closed_form r stk).
Proof.
  revert item parent above.
  induction stk as [|f up IH]; intros item parent above E Hl Hr; [discriminate|].
  injection E as -> ->.
  cbn [linked] in Hl. destruct Hl as (_ & Hcfi & Hlup).
  cbn [radices] in Hr. destruct Hr as (Hm & Hm' & Hrup).
  unfold frame_index at 1. rewrite Hm, Hcfi.
  destruct above as [|a rest].
  - unfold closed_form. cbn [List.length weight radix].
    int_norm. destruct r; unfold base_offset; lia.
  - rewrite (IH parent a rest eq_refl Hlup (conj Hm' Hrup)).
    unfold closed_form.
    change (weight (item :: parent :: a :: rest))
      with ((indexInContainer item + 1) * radix (parent :: a :: rest)
            + weight (parent :: a :: rest)).
    rewrite !length_cons, !Nat2Z.inj_succ.
    int_norm. destruct r; unfold base_offset; lia.
Qed.

Lemma kept_closed_form it :
  kept h it -> fxIndex it = int (closed_form (rec it) (stack it)).
Proof.
  intros (_ & Hidx & Hrad & _). unfold indexed in Hidx.
  destruct (stack it) as [|item [|parent above]] eqn:E; [contradiction| |].
  - destruct Hidx as [-> _]. reflexivity.
  - destruct Hidx as [-> Hl].
    replace (is_root (item :: parent :: above)) with false
      by (unfold is_root; symmetry; apply Z.eqb_neq; cbn [List.length]; lia).
    now apply (frame_index_closed (rec it) _ item parent above).
Qed.

End FxIteratorInvariants.

Section FxIteratorSafety.

Import FxIterator FxIndex.

Variable h : Host.

(** X1.  In the caller's loop [next] never takes [back()] of an empty
    stack: from the constructor and from every iterator it yielded it
    returns, with a stack that is not empty when it returns true and an
    empty one when it returns false. *)
Theorem next_never_undefined (it : t) :
  it = make h \/ yielded h it ->
  exists b it',
    next h it = Some (b, it')
    /\ (b = true -> stack it' <> [] /\ 1 <= getLevel it')
    /\ (b = false -> stack it' = []).
Proof.
  intros Hit.
  assert (Hne : stack it <> [])
    by (destruct Hit as [->|Hy]; [discriminate | now apply yielded_stack with h]).
  destruct (next_defined h it Hne) as (b & it' & Hn).
  exists b, it'. split; [exact Hn|].
  destruct (next_cases h it b it' Hn) as [Hstep Hsucc]. split.
  - intros Hb. destruct (Hsucc Hb) as (_ & item & up & E & _).
    unfold getLevel. rewrite E. split; [discriminate | cbn [List.length]; lia].
  - intros ->. now inversion Hstep.
Qed.

Lemma yielded_rec_count (it : t) :
  yielded h it -> rec it = true -> 0 < TrackFX_GetRecCount h.
Proof.
  revert it. apply (yielded_ind_from_make h
    (fun it => rec it = true -> 0 < TrackFX_GetRecCount h)).
  - intros it Hn Hr. destruct (next_cases h _ _ _ Hn) as [Hstep _].
    inversion Hstep; try assumption; cbn [make rec] in *; congruence.
  - intros it it' _ IH Hn Hr. destruct (next_cases h _ _ _ Hn) as [Hstep _].
    inversion Hstep; try assumption; apply IH; congruence.
Qed.

(** X2.  The input effects are visited for tracks only and after the
    normal ones: the iterator of a take never has [rec] set, and once
    [rec] is set it stays set. *)
Theorem rec_tree_last (it : t) :
  yielded h it ->
  (is_track h = false -> rec it = false)
  /\ (forall b it', next h it = Some (b, it') -> b = true ->
        rec it = true -> rec it' = true)
  /\ (rec it = true -> 0 < TrackFX_GetRecCount h).
Proof.
  intros Hy. pose proof (yielded_kept h it Hy) as (_ & _ & _ & _ & _ & Hrec).
  split; [|split].
  - intros Ht. destruct (rec it); [|reflexivity].
    rewrite Hrec in Ht by reflexivity. discriminate.
  - intros b it' Hn -> Hr.
    destruct (next_cases h it true it' Hn) as [Hstep _].
    inversion Hstep; congruence.
  - now apply yielded_rec_count.
Qed.

(** X3.  The flat index of every effect yielded is a function of its path
    alone, reduced to an [int].  The exact number of a path is, at the top
    level, the position, plus 0x1000000 in the input tree; at depth
    [d >= 2],
    [(d - 1) * offset + 0x2000000 + sum of (position_i + 1) * radix_i],
    the radix of a level being the product of [count + 1] over the levels
    that enclose it (in the input tree the offset 0x1000000 is thus added
    once per nested level).  The index cached is that number reduced to
    32 bits, so the number itself whenever it is an [int]; and every
    multiplier is the radix of its level reduced to 32 bits. *)
Theorem flat_index_closed_form (it : t) :
  yielded h it ->
  int_value (getFxIndex it) (closed_form (rec it) (stack it))
  /\ radices (stack it).
Proof.
  intros Hy. pose proof (yielded_kept h it Hy) as Hk.
  split; [|apply Hk].
  apply int_value_intro. now apply kept_closed_form with h.
Qed.

(** X4.  A subject without effects yields nothing: with no effect at the
    top level and, for a track, no input effect, the first call of [next]
    returns false. *)
Theorem no_effects_no_nodes (fuel : nat) :
  FX_GetCount h <= 0 ->
  (is_track h = true -> TrackFX_GetRecCount h <= 0) ->
  iterate (S fuel) h (make h) = Some [].
Proof.
  intros Hn Hm. cbn [iterate]. unfold next, make.
  cbn [stack containedCount Z.eqb negb walk indexInContainer containerCount].
  change (int (-1 + 1)) with 0.
  replace (0 <? FX_GetCount h) with false
    by (symmetry; apply Z.ltb_ge; lia).
  cbn [rec negb]. rewrite andb_true_r.
  destruct (is_track h); [|reflexivity].
  unfold firstRec.
  replace (0 <? TrackFX_GetRecCount h) with false
    by (symmetry; apply Z.ltb_ge; auto).
  reflexivity.
Qed.

End FxIteratorSafety.

Lemma next_never_undefined_witness :
  exists b it',
    FxIterator.next (FxTree.example_host true) FxTree.at_E = Some (b, it')
    /\ (b = false -> FxIterator.stack it' = []).
Proof.
  destruct (next_never_undefined (FxTree.example_host true) FxTree.at_E)
    as (b & it' & Hn & _ & Hend).
  - right.
    apply FxIterator.yielded_next with FxTree.at_D; [|reflexivity].
    apply FxIterator.yielded_next with FxTree.at_C; [|reflexivity].
    apply FxIterator.yielded_next with FxTree.at_B; [|reflexivity].
    apply FxIterator.yielded_next with FxTree.at_A; [|reflexivity].
    apply FxIterator.yielded_first. reflexivity.
  - exists b, it'. auto.
Defined.

(** On a track of one effect and two input effects, the second node is
    the first input effect: [rec] is set there, and at the node after
    it. *)
Lemma rec_tree_last_witness :
  let h := FxExamples.chain_host true 1 2 in
  FxIterator.yielded h (FxIndex.at_top true 2 0)
  /\ FxIterator.rec (FxIndex.at_top true 2 0) = true
  /\ FxIterator.next h (FxIndex.at_top true 2 0)
     = Some (true, FxIndex.at_top true 2 1)
  /\ FxIterator.rec (FxIndex.at_top true 2 1) = true
  /\ 0 < FxIterator.TrackFX_GetRecCount h.
Proof.
  cbv zeta.
  assert (Hy : FxIterator.yielded (FxExamples.chain_host true 1 2)
                 (FxIndex.at_top true 2 0)).
  { apply FxIterator.yielded_next with (FxIndex.at_top false 1 0);
      [|reflexivity].
    apply FxIterator.yielded_first. reflexivity. }
  destruct (rec_tree_last (FxExamples.chain_host true 1 2)
              (FxIndex.at_top true 2 0) Hy) as (_ & Hstays & Hcount).
  split; [exact Hy|]. split; [reflexivity|]. split; [reflexivity|].
  split.
  - exact (Hstays true (FxIndex.at_top true 2 1) eq_refl eq_refl eq_refl).
  - exact (Hcount eq_refl).
Defined.

Lemma no_effects_no_nodes_witness :
  FxIterator.iterate 1 (FxExamples.chain_host true 0 0)
    (FxIterator.make (FxExamples.chain_host true 0 0)) = Some [].
Proof.
  apply (no_effects_no_nodes (FxExamples.chain_host true 0 0) 0).
  - apply Z.le_refl.
  - intros _. apply Z.le_refl.
Defined.

(** In the example tree the number of the path of D is an [int] and is
    the index; in the deep tree of 60000, 9999 and 4 effects the number of
    the path of the sixth node is 2433654434 and the index is that number
    reduced to 32 bits. *)
Lemma flat_index_closed_form_witness :
  FxIterator.getFxIndex FxTree.at_D = 0x2000000 + ((1 + 1) * 4 + (1 + 1))
  /\ exists it,
       FxIterator.yielded FxExamples.deep_host it
       /\ FxIndex.closed_form (FxIterator.rec it) (FxIterator.stack it)
          = 2433654434
       /\ FxIterator.getFxIndex it = FxIterator.int 2433654434.
Proof.
  split.
  - apply (flat_index_closed_form (FxTree.example_host true) FxTree.at_D).
    + apply FxIterator.yielded_next with FxTree.at_C; [|reflexivity].
      apply FxIterator.yielded_next with FxTree.at_B; [|reflexivity].
      apply FxIterator.yielded_next with FxTree.at_A; [|reflexivity].
      apply FxIterator.yielded_first. reflexivity.
    + unfold FxIterator.in_int. cbn. lia.
  - eexists. split; [|split].
    + apply (run_yielded FxExamples.deep_host 5 _ _ (or_introl eq_refl)).
      vm_compute. reflexivity.
    + reflexivity.
    + reflexivity.
Defined.

Section FxIteratorBounds.

Import FxIterator FxIndex.

Variable h : Host.

(** What the host reports are [int]s, and it never reports a negative
    number of contained effects. *)
Hypothesis host_int : Host_int h.
Hypothesis counts_nonneg : forall i, 0 <= container_count h i.

Lemma radix_pos up : Forall in_bounds up -> 1 <= radix up.
Proof.
  induction 1 as [|f up Hf _ IH]; cbn [radix]; [lia|].
  unfold in_bounds in Hf. nia.
Qed.

Lemma weight_pos f up : Forall in_bounds (f :: up) -> 1 <= weight (f :: up).
Proof.
  revert f. induction up as [|g up IH]; intros f Hb.
  - inversion Hb as [|? ? Hf _]. unfold in_bounds in Hf.
    cbn [weight radix]. lia.
  - inversion Hb as [|? ? Hf Hup]. subst.
    pose proof (IH g Hup). pose proof (radix_pos (g :: up) Hup).
    unfold in_bounds in Hf.
    change (weight (f :: g :: up))
      with ((indexInContainer f + 1) * radix (g :: up) + weight (g :: up)).
    nia.
Qed.

Lemma closed_form_nonneg r stk :
  stk <> [] -> Forall in_bounds stk -> 0 <= closed_form r stk.
Proof.
  intros Hne Hb. destruct stk as [|f [|g up]]; [congruence| |].
  - inversion Hb as [|? ? Hf _]. unfold in_bounds in Hf.
    unfold closed_form, base_offset. destruct r; lia.
  - pose proof (weight_pos f (g :: up) Hb). unfold closed_form.
    rewrite !length_cons, !Nat2Z.inj_succ.
    unfold base_offset. destruct r; lia.
Qed.

Lemma Forall_suffix {A} (P : A -> Prop) pre l :
  Forall P (pre ++ l) -> Forall P l.
Proof. induction pre; cbn [app]; [auto|]. inversion 1; auto. Qed.

(** Every count of the stack is one that the host reported. *)
Lemma counted_int r stk :
  counted h r stk -> Forall (fun f => in_int (containerCount f)) stk.
Proof.
  destruct host_int as (Hfx & Hrec & Hcc).
  induction stk as [|f up IH]; intros Hc; [constructor|].
  constructor; [|apply IH; now apply counted_tail with f].
  cbn [counted] in Hc. destruct up as [|parent above].
  - rewrite Hc. unfold root_count. now destruct r.
  - destruct Hc as [-> _]. apply Hcc.
Qed.

Lemma next_in_bounds it it' :
  kept h it ->
  it = make h \/ Forall in_bounds (stack it) ->
  next h it = Some (true, it') ->
  Forall in_bounds (stack it').
Proof.
  intros (_ & _ & _ & Hcnt & Hcc & _) Hb Hn.
  pose proof (counted_int _ _ Hcnt) as Hint.
  destruct (next_cases h it true it' Hn) as [Hstep _].
  inversion Hstep as [current up Hstk Hcont Hs Hr | Hcont Hw Hr
                     | Hcont Hw Ht Hr0 Hcount Hs Hr | ]; subst.
  - destruct Hb as [->|Hb]; [discriminate Hcont|].
    rewrite Hs. constructor; [|exact Hb].
    unfold in_bounds, entered. cbn [indexInContainer containerCount].
    unfold isContainer in Hcont.
    destruct Hcc as [E|E]; [rewrite E in Hcont; discriminate|].
    pose proof (counts_nonneg (fxIndex it)).
    destruct (Z.eqb_spec (containedCount it) 0); [discriminate|]. lia.
  - apply walk_some in Hw. destruct Hw as (pre & cur & up & E & -> & Hlt).
    destruct Hb as [->|Hb].
    + cbn [make stack] in E. destruct pre as [|f pre].
      * injection E as <- <-. constructor; [|constructor].
        unfold in_bounds. cbn [set_index indexInContainer containerCount] in *.
        change (int (-1 + 1)) with 0 in *. lia.
      * injection E as _ E. now destruct pre.
    + rewrite E in Hb, Hint. apply Forall_suffix in Hb, Hint.
      inversion Hb as [|? ? Hcur Hup]. inversion Hint as [|? ? Hcount _].
      subst. constructor; [|exact Hup].
      unfold in_bounds in *. unfold in_int in Hcount.
      cbn [set_index indexInContainer containerCount].
      rewrite int_small in * by (unfold in_int; lia). lia.
  - rewrite Hs. constructor; [|constructor].
    unfold in_bounds, rec_root. cbn [indexInContainer containerCount]. lia.
Qed.

Lemma yielded_bounds it : yielded h it -> Forall in_bounds (stack it).
Proof.
  induction 1 as [it Hn | it it' Hy IH Hn].
  - apply (next_in_bounds (make h)); auto using make_kept.
  - apply (next_in_bounds it); auto using yielded_kept.
Qed.

(** X5.  When the host reports no negative count, the position of every
    frame of an effect yielded is within its container,
    [0 <= indexInContainer < containerCount], and the number of its path
    is not negative.  So whenever that number is an [int], the flat index
    is not negative and the menu identifier [fx + 1] is not 0, the value
    that stands for a cancelled menu. *)
Theorem yielded_in_bounds (it : t) :
  yielded h it ->
  Forall in_bounds (stack it)
  /\ 0 <= closed_form (rec it) (stack it)
  /\ (in_int (closed_form (rec it) (stack it)) ->
      0 <= getFxIndex it /\ getFxIndex it + 1 <> 0).
Proof.
  intros Hy. pose proof (yielded_bounds it Hy) as Hb.
  assert (Hpos : 0 <= closed_form (rec it) (stack it)).
  { apply closed_form_nonneg; [|exact Hb]. now apply yielded_stack with h. }
  split; [exact Hb|]. split; [exact Hpos|].
  intros Hfit. unfold getFxIndex.
  rewrite (kept_closed_form h it (yielded_kept h it Hy)), int_small by exact Hfit.
  lia.
Qed.

End FxIteratorBounds.

Lemma yielded_in_bounds_witness :
  Forall FxIndex.in_bounds (FxIterator.stack FxTree.at_D)
  /\ 0 <= FxIterator.getFxIndex FxTree.at_D
  /\ FxIterator.getFxIndex FxTree.at_D + 1 <> 0.
Proof.
  destruct (yielded_in_bounds (FxTree.example_host true)) with (it := FxTree.at_D)
    as (Hb & _ & Hindex).
  - unfold FxIterator.Host_int, FxIterator.in_int, FxTree.example_host.
    cbn [FxIterator.FX_GetCount FxIterator.TrackFX_GetRecCount
         FxIterator.container_count].
    repeat split; try lia; destruct (i =? 1); lia.
  - intros i. unfold FxTree.example_host, FxIterator.container_count.
    destruct (i =? 1); lia.
  - apply FxIterator.yielded_next with FxTree.at_C; [|reflexivity].
    apply FxIterator.yielded_next with FxTree.at_B; [|reflexivity].
    apply FxIterator.yielded_next with FxTree.at_A; [|reflexivity].
    apply FxIterator.yielded_first. reflexivity.
  - split; [exact Hb|]. apply Hindex. unfold FxIterator.in_int. cbn. lia.
Defined.

Section FxIteratorChain.

Import FxIterator FxIndex.

Variable h : Host.

(** No effect is a container. *)
Hypothesis no_container : forall i, container_count h i = 0.

Lemma chain_step r n i :
  n <= 0x7fffffff -> -1 <= i -> i + 1 < n ->
  next h (at_top r n i) = Some (true, at_top r n (i + 1)).
Proof.
  intros Hn Hi Hlt. unfold next, at_top.
  cbn [stack containedCount Z.eqb negb walk indexInContainer containerCount].
  rewrite (int_small (i + 1)) by (unfold in_int; lia).
  replace (i + 1 <? n) with true by (symmetry; apply Z.ltb_lt; lia).
  unfold success, set_index.
  cbn [List.length Z.of_nat Pos.of_succ_nat Z.eqb Pos.eqb indexInContainer
       containerCount containerFxIndex multiplier rec].
  now rewrite no_container.
Qed.

Lemma chain_walk_end r n i :
  -1 <= i -> i + 1 <= 0x7fffffff -> n <= i + 1 ->
  walk (stack (at_top r n i)) = None.
Proof.
  intros Hi Hmax Hge. unfold at_top.
  cbn [stack walk indexInContainer containerCount].
  rewrite (int_small (i + 1)) by (unfold in_int; lia).
  now replace (i + 1 <? n) with false by (symmetry; apply Z.ltb_ge; lia).
Qed.

Lemma node_of_at_top r n i :
  node_of (at_top r n i)
  = reduced {| node_index := base_offset r + i; node_level := 1;
               node_position := Some (i + 1); node_container := false |}.
Proof. reflexivity. Qed.

(** The run along a chain, up to its last effect. *)
Lemma iterate_chain r n k : forall i fuel,
  n <= 0x7fffffff -> -1 <= i ->
  i + Z.of_nat k < n ->
  iterate (k + fuel) h (at_top r n i)
  = option_map (app (map reduced (chain_nodes r (i + 1) k)))
      (iterate fuel h (at_top r n (i + Z.of_nat k))).
Proof.
  induction k as [|k IH]; intros i fuel Hn Hi Hlt.
  - cbn [Nat.add chain_nodes map Z.of_nat]. rewrite Z.add_0_r.
    now destruct (iterate fuel h (at_top r n i)).
  - cbn [Nat.add iterate]. rewrite chain_step by (auto; lia).
    rewrite IH by (auto; lia). rewrite node_of_at_top.
    replace (i + 1 + Z.of_nat k) with (i + Z.of_nat (S k)) by lia.
    destruct (iterate fuel h (at_top r n (i + Z.of_nat (S k)))); reflexivity.
Qed.

Lemma iterate_step fuel it it' :
  next h it = Some (true, it') ->
  iterate (S fuel) h it = option_map (cons (node_of it')) (iterate fuel h it').
Proof.
  intros Hn. cbn [iterate]. rewrite Hn.
  now destruct (iterate fuel h it').
Qed.

Lemma chain_end r n i fuel :
  -1 <= i -> i + 1 <= 0x7fffffff -> n <= i + 1 ->
  is_track h = false \/ r = true \/ TrackFX_GetRecCount h <= 0 ->
  iterate (S fuel) h (at_top r n i) = Some [].
Proof.
  intros Hi Hmax Hge Hlast. cbn [iterate]. unfold next.
  change (stack (at_top r n i))
    with [ {| indexInContainer := i; containerCount := n;
              containerFxIndex := 0; multiplier := 1 |} ].
  cbn [containedCount at_top Z.eqb negb].
  change (walk _) with (walk (stack (at_top r n i))).
  rewrite chain_walk_end by assumption.
  destruct Hlast as [-> | [-> | Hm]]; [reflexivity | |].
  - cbn [rec at_top negb]. now rewrite andb_false_r.
  - destruct (is_track h && negb (rec (at_top r n i))); [|reflexivity].
    unfold firstRec.
    now replace (0 <? TrackFX_GetRecCount h) with false
      by (symmetry; apply Z.ltb_ge; lia).
Qed.

(** From the last normal effect of a track to its first input effect. *)
Lemma chain_to_rec n i m :
  -1 <= i -> i + 1 <= 0x7fffffff -> n <= i + 1 ->
  is_track h = true -> TrackFX_GetRecCount h = m -> 0 < m ->
  next h (at_top false n i) = Some (true, at_top true m 0).
Proof.
  intros Hi Hmax Hge Ht Hm Hpos. unfold next.
  change (stack (at_top false n i))
    with [ {| indexInContainer := i; containerCount := n;
              containerFxIndex := 0; multiplier := 1 |} ].
  cbn [containedCount at_top Z.eqb negb].
  change (walk _) with (walk (stack (at_top false n i))).
  rewrite chain_walk_end by assumption. cbn [rec negb]. rewrite Ht.
  cbn [andb]. unfold firstRec. rewrite Hm.
  replace (0 <? m) with true by (symmetry; apply Z.ltb_lt; lia).
  unfold success.
  cbn [stack List.length Z.of_nat Pos.of_succ_nat Z.eqb Pos.eqb
       indexInContainer].
  now rewrite no_container.
Qed.

(** The whole run over a chain of [n] effects in the tree [r]. *)
Lemma iterate_whole_chain r n i fuel :
  n <= 0x7fffffff -> -1 <= i ->
  0 <= n - 1 - i ->
  is_track h = false \/ r = true \/ TrackFX_GetRecCount h <= 0 ->
  iterate (Z.to_nat (n - 1 - i) + S fuel) h (at_top r n i)
  = Some (map reduced (chain_nodes r (i + 1) (Z.to_nat (n - 1 - i)))).
Proof.
  intros Hn Hi Hk Hlast. rewrite iterate_chain by (auto; lia).
  rewrite chain_end by (auto; lia). cbn [option_map].
  now rewrite List.app_nil_r.
Qed.

(** The indices of a chain that are [int]s are not changed. *)
Lemma reduced_chain r k : forall i,
  0 <= i -> base_offset r + i + Z.of_nat k <= 0x80000000 ->
  map reduced (chain_nodes r i k) = chain_nodes r i k.
Proof.
  induction k as [|k IH]; intros i Hi Hmax; [reflexivity|].
  cbn [chain_nodes map]. rewrite IH by lia. f_equal.
  unfold reduced. cbn [node_index node_level node_position node_container].
  rewrite int_small; [reflexivity|].
  unfold in_int, base_offset in *. destruct r; lia.
Qed.

(** X6.  A subject without containers is traversed as one chain: the [n]
    effects in order, with the flat indices 0 to [n - 1] at level 1, then,
    for a track, its [m] input effects with the indices 0x1000000 to
    0x1000000 + [m - 1], reduced to 32 bits: the indices themselves for up
    to 0x7f000000 input effects. *)
Theorem chain_traversal (n m : nat) (fuel : nat) :
  Host_int h ->
  FX_GetCount h = Z.of_nat n ->
  TrackFX_GetRecCount h = Z.of_nat m ->
  iterate (n + (m + S (S fuel))) h (make h)
  = Some (chain_nodes false 0 n
          ++ (if is_track h then map reduced (chain_nodes true 0 m) else []))
  /\ (Z.of_nat m <= 0x7f000000 ->
      map reduced (chain_nodes true 0 m) = chain_nodes true 0 m).
Proof.
  intros (Hnint & Hmint & _) Hn Hm. rewrite Hn in Hnint. rewrite Hm in Hmint.
  unfold in_int in Hnint, Hmint.
  split; [|intros Hmax; apply reduced_chain; unfold base_offset; lia].
  change (make h) with (at_top false (FX_GetCount h) (-1)). rewrite Hn.
  rewrite <- (reduced_chain false n 0) by (unfold base_offset; lia).
  assert (Hwhole :
    is_track h = false \/ m = O ->
    iterate (n + (m + S (S fuel))) h (at_top false (Z.of_nat n) (-1))
    = Some (map reduced (chain_nodes false 0 n))).
  { intros Hlast.
    replace (n + (m + S (S fuel)))%nat
      with (Z.to_nat (Z.of_nat n - 1 - -1) + S (m + S fuel))%nat by lia.
    rewrite iterate_whole_chain
      by (try lia; destruct Hlast; auto; right; lia).
    now replace (Z.to_nat (Z.of_nat n - 1 - -1)) with n by lia. }
  destruct (is_track h) eqn:Ht.
  - destruct m as [|m].
    + rewrite Hwhole by auto. cbn [chain_nodes map].
      now rewrite List.app_nil_r.
    + rewrite (iterate_chain false (Z.of_nat n) n (-1)) by lia.
      replace (S m + S (S fuel))%nat with (S (m + S (S fuel))) by lia.
      rewrite (iterate_step _ _ (at_top true (Z.of_nat (S m)) 0))
        by (apply chain_to_rec; auto; lia).
      replace (m + S (S fuel))%nat
        with (Z.to_nat (Z.of_nat (S m) - 1 - 0) + S (S fuel))%nat by lia.
      rewrite iterate_whole_chain by (auto; lia).
      rewrite node_of_at_top. cbn [option_map].
      replace (Z.to_nat (Z.of_nat (S m) - 1 - 0)) with m by lia.
      reflexivity.
  - rewrite Hwhole by auto. now rewrite List.app_nil_r.
Qed.

End FxIteratorChain.

Lemma chain_traversal_witness :
  FxIterator.iterate 5 (FxExamples.chain_host true 2 1)
    (FxIterator.make (FxExamples.chain_host true 2 1))
  = Some (FxIndex.chain_nodes false 0 2 ++ FxIndex.chain_nodes true 0 1).
Proof.
  assert (Hint : FxIterator.Host_int (FxExamples.chain_host true 2 1)).
  { unfold FxIterator.Host_int, FxIterator.in_int, FxExamples.chain_host.
    cbn [FxIterator.FX_GetCount FxIterator.TrackFX_GetRecCount
         FxIterator.container_count].
    repeat split; lia. }
  destruct (chain_traversal (FxExamples.chain_host true 2 1)
              (fun _ => eq_refl) 2 1 0 Hint eq_refl eq_refl)
    as [Hrun Hexact].
  rewrite Hexact in Hrun by (cbn; lia). exact Hrun.
Defined.

Section FxIteratorInjective.

Import FxIterator FxIndex FxPath.

Variable h : Host.

Hypothesis host_int : Host_int h.
Hypothesis counts_nonneg : forall i, 0 <= container_count h i.

(** The positions of the top level are below the offset of containers. *)
Hypothesis top_count : FX_GetCount h <= 0x2000000.

Lemma number_snoc l p c :
  number (l ++ [(p, c)]) = number l + (p + 1) * span l.
Proof.
  induction l as [|[q d] l IH]; cbn [app number span]; [lia|].
  rewrite IH. lia.
Qed.

Lemma span_snoc l p c : span (l ++ [(p, c)]) = span l * (c + 1).
Proof.
  induction l as [|[q d] l IH]; cbn [app span]; [lia|]. rewrite IH. lia.
Qed.

Lemma span_levels stk : span (levels stk) = radix stk.
Proof.
  unfold levels. induction stk as [|f up IH]; [reflexivity|].
  cbn [map rev radix]. rewrite span_snoc, IH. lia.
Qed.

Lemma number_levels stk : number (levels stk) = weight stk.
Proof.
  induction stk as [|f up IH]; [reflexivity|].
  unfold levels in *. cbn [map rev weight].
  rewrite number_snoc, IH.
  change (rev (map _ up)) with (levels up). rewrite span_levels. lia.
Qed.

Lemma levels_length stk : List.length (levels stk) = List.length stk.
Proof. unfold levels. now rewrite length_rev, length_map. Qed.

(** The number of a path of the normal tree is the index of its levels. *)
Lemma index_of_levels stk :
  closed_form false stk = index_of (levels stk).
Proof.
  pose proof (levels_length stk) as Hlen.
  pose proof (number_levels stk) as Hnum.
  destruct stk as [|f [|g up]].
  - reflexivity.
  - reflexivity.
  - unfold closed_form, index_of.
    destruct (levels (f :: g :: up)) as [|[p c] [|b l]] eqn:E;
      cbn [List.length] in Hlen; try lia.
    rewrite <- Hnum. unfold base_offset. lia.
Qed.

Lemma follows_snoc pre l p c :
  follows h pre (l ++ [(p, c)])
  <-> follows h pre l /\ c = count_after h (pre ++ l) /\ 0 <= p < c.
Proof.
  revert pre. induction l as [|[q d] l IH]; intros pre; cbn [app follows].
  - rewrite List.app_nil_r. tauto.
  - rewrite IH, <- app_assoc. cbn [app]. tauto.
Qed.

Lemma number_nonneg pre l : follows h pre l -> 0 <= number l.
Proof.
  revert pre. induction l as [|[p c] l IH]; intros pre; cbn [follows number].
  - lia.
  - intros (_ & Hp & Hl). apply IH in Hl. nia.
Qed.

(** Two paths that continue the same levels and encode the same number
    are the same. *)
Lemma number_inj l : forall l' pre,
  follows h pre l -> follows h pre l' -> number l = number l' -> l = l'.
Proof.
  induction l as [|[p c] l IH]; intros [|[p' c'] l'] pre Hl Hl' E.
  - reflexivity.
  - cbn [follows number] in *. destruct Hl' as (_ & Hp & Hr).
    apply number_nonneg in Hr. nia.
  - cbn [follows number] in *. destruct Hl as (_ & Hp & Hr).
    apply number_nonneg in Hr. nia.
  - cbn [follows number] in *.
    destruct Hl as (Hc & Hp & Hr), Hl' as (Hc' & Hp' & Hr').
    rewrite <- Hc in Hc'. subst c'.
    pose proof (number_nonneg _ _ Hr). pose proof (number_nonneg _ _ Hr').
    assert (number l = number l') by nia.
    assert (p = p') by nia. subst p'.
    f_equal. now apply (IH l' (pre ++ [(p, c)])).
Qed.

Lemma index_of_inj l l' :
  l <> [] -> l' <> [] ->
  follows h [] l -> follows h [] l' -> index_of l = index_of l' -> l = l'.
Proof.
  intros Hne Hne' Hl Hl' E.
  destruct l as [|[p c] [|b r]], l' as [|[p' c'] [|b' r']]; try congruence.
  - cbn [index_of follows] in *. f_equal. f_equal; [lia | intuition congruence].
  - exfalso. unfold index_of in E.
    pose proof (number_nonneg _ _ Hl') as Hn.
    cbn [follows count_after] in Hl. destruct Hl as (-> & Hp & _).
    cbn [follows number] in Hl', Hn |- *. destruct b' as [q d].
    destruct Hl' as (_ & Hp' & _ & Hq & Hrest).
    apply number_nonneg in Hrest. cbn [number] in E. nia.
  - exfalso. unfold index_of in E.
    pose proof (number_nonneg _ _ Hl) as Hn.
    cbn [follows count_after] in Hl'. destruct Hl' as (-> & Hp' & _).
    cbn [follows number] in Hl, Hn |- *. destruct b as [q d].
    destruct Hl as (_ & Hp & _ & Hq & Hrest).
    apply number_nonneg in Hrest. cbn [number] in E. nia.
  - apply (number_inj _ _ []); auto. unfold index_of in E. lia.
Qed.

(** The number of a path is at least the number of the path of its
    container. *)
Lemma closed_form_container f up :
  up <> [] -> Forall in_bounds (f :: up) ->
  0 <= closed_form false up <= closed_form false (f :: up).
Proof.
  intros Hne Hb. inversion Hb as [|? ? Hf Hup]. subst.
  split; [now apply closed_form_nonneg|].
  pose proof (radix_pos up Hup) as Hrad. unfold in_bounds in Hf.
  destruct up as [|g [|g' rest]]; [congruence| |].
  - inversion Hup as [|? ? Hg _]. unfold in_bounds in Hg.
    unfold closed_form, base_offset.
    cbn [List.length weight radix Z.of_nat Pos.of_succ_nat] in *. nia.
  - unfold closed_form, base_offset.
    change (weight (f :: g :: g' :: rest))
      with ((indexInContainer f + 1) * radix (g :: g' :: rest)
            + weight (g :: g' :: rest)).
    rewrite !length_cons, !Nat2Z.inj_succ. nia.
Qed.

(** The index cached for a frame whose path has a number that is an
    [int]. *)
Lemma frame_index_exact stk parent above :
  stk = parent :: above ->
  linked false stk -> radices stk ->
  in_int (closed_form false stk) ->
  frame_index false (is_root stk) parent = closed_form false stk.
Proof.
  intros -> Hl Hr Hfit. destruct above as [|g rest].
  - unfold frame_index, is_root, closed_form in *.
    cbn [List.length Z.of_nat Pos.of_succ_nat Z.eqb Pos.eqb].
    now apply int_small.
  - replace (is_root (parent :: g :: rest)) with false
      by (unfold is_root; symmetry; apply Z.eqb_neq; cbn [List.length]; lia).
    rewrite (frame_index_closed false _ parent g rest eq_refl Hl Hr).
    now apply int_small.
Qed.

(** The levels of a stack of the normal tree follow the host's counts. *)
Lemma levels_follow stk :
  linked false stk -> radices stk -> counted h false stk ->
  Forall in_bounds stk -> in_int (closed_form false stk) ->
  follows h [] (levels stk).
Proof.
  induction stk as [|f up IH]; intros Hl Hr Hc Hb Hfit; [exact I|].
  unfold levels. cbn [map rev]. change (rev (map _ up)) with (levels up).
  inversion Hb as [|? ? Hf Hup]. subst.
  assert (Hfit' : in_int (closed_form false up)).
  { destruct up as [|parent above]; [unfold in_int; cbn; lia|].
    pose proof (closed_form_container f (parent :: above)) as Hm.
    unfold in_int in *. specialize (Hm ltac:(discriminate) Hb). lia. }
  apply follows_snoc. cbn [app]. split; [|split; [|exact Hf]].
  - apply IH; auto.
    + now apply linked_tail with f.
    + cbn [radices] in Hr. tauto.
    + now apply counted_tail with f.
  - destruct up as [|parent above].
    + cbn [counted] in Hc. exact Hc.
    + cbn [counted] in Hc. destruct Hc as [Hc _]. rewrite Hc.
      pose proof (levels_length (parent :: above)) as Hlen.
      unfold count_after.
      destruct (levels (parent :: above)) as [|[q d] l] eqn:E;
        [cbn [List.length] in Hlen; lia|].
      rewrite <- E, <- index_of_levels. f_equal.
      apply linked_tail in Hl. cbn [radices] in Hr. destruct Hr as [_ Hr].
      now apply (frame_index_exact _ parent above).
Qed.

Lemma levels_inj stk stk' :
  levels stk = levels stk' ->
  map indexInContainer stk = map indexInContainer stk'.
Proof.
  unfold levels. intros E. apply (f_equal (@rev _)) in E.
  rewrite !rev_involutive in E.
  apply (f_equal (map fst)) in E. rewrite !map_map in E. exact E.
Qed.

(** Two effects of the normal tree with the same index, where the numbers
    of their paths are [int]s, have the same path. *)
Lemma same_index_same_path (it it' : t) :
  yielded h it -> yielded h it' ->
  rec it = false -> rec it' = false ->
  in_int (closed_form false (stack it)) ->
  in_int (closed_form false (stack it')) ->
  getFxIndex it = getFxIndex it' ->
  path it = path it'.
Proof.
  intros Hy Hy' Hr Hr' Hfit Hfit' E.
  pose proof (yielded_kept h it Hy) as Hk.
  pose proof (yielded_kept h it' Hy') as Hk'.
  unfold getFxIndex in E.
  rewrite (kept_closed_form h it Hk), (kept_closed_form h it' Hk') in E.
  rewrite Hr, Hr', !int_small, !index_of_levels in E by assumption.
  destruct Hk as (Hne & Hidx & Hrad & Hcnt & _).
  destruct Hk' as (Hne' & Hidx' & Hrad' & Hcnt' & _).
  unfold indexed in Hidx, Hidx'. rewrite Hr in *. rewrite Hr' in *.
  assert (Hl : linked false (stack it))
    by (destruct (stack it); [contradiction | tauto]).
  assert (Hl' : linked false (stack it'))
    by (destruct (stack it'); [contradiction | tauto]).
  apply index_of_inj in E.
  - unfold path. f_equal. now apply levels_inj.
  - intros H0. apply (f_equal (@List.length _)) in H0.
    rewrite levels_length in H0. now destruct (stack it).
  - intros H0. apply (f_equal (@List.length _)) in H0.
    rewrite levels_length in H0. now destruct (stack it').
  - apply levels_follow; auto. now apply yielded_bounds with h.
  - apply levels_follow; auto. now apply yielded_bounds with h.
Qed.

(** X7.  In the normal tree (all the effects of a take, and the effects
    of a track that are not input effects), as long as the numbers of the
    paths are [int]s, the flat index tells the effects apart: two effects
    yielded at different paths have different indices. *)
Theorem flat_index_injective (it it' : t) :
  yielded h it -> yielded h it' ->
  rec it = false -> rec it' = false ->
  in_int (closed_form false (stack it)) ->
  in_int (closed_form false (stack it')) ->
  path it <> path it' ->
  getFxIndex it <> getFxIndex it'.
Proof.
  intros Hy Hy' Hr Hr' Hfit Hfit' Hpath E. apply Hpath.
  now apply same_index_same_path.
Qed.

End FxIteratorInjective.

(** The effects C and D of the example tree, at the paths [1; 0] and
    [1; 1]. *)
Lemma flat_index_injective_witness :
  FxIndex.path FxTree.at_C <> FxIndex.path FxTree.at_D
  /\ FxIterator.getFxIndex FxTree.at_C <> FxIterator.getFxIndex FxTree.at_D.
Proof.
  assert (Hy : FxIterator.yielded (FxTree.example_host false) FxTree.at_C).
  { apply FxIterator.yielded_next with FxTree.at_B; [|reflexivity].
    apply FxIterator.yielded_next with FxTree.at_A; [|reflexivity].
    apply FxIterator.yielded_first. reflexivity. }
  assert (Hy' : FxIterator.yielded (FxTree.example_host false) FxTree.at_D)
    by (apply FxIterator.yielded_next with FxTree.at_C; [exact Hy | reflexivity]).
  assert (Hpath : FxIndex.path FxTree.at_C <> FxIndex.path FxTree.at_D)
    by discriminate.
  split; [exact Hpath|].
  apply (flat_index_injective (FxTree.example_host false)); auto.
  - unfold FxIterator.Host_int, FxIterator.in_int, FxTree.example_host.
    cbn [FxIterator.FX_GetCount FxIterator.TrackFX_GetRecCount
         FxIterator.container_count].
    repeat split; try lia; destruct (i =? 1); lia.
  - intros i. unfold FxTree.example_host, FxIterator.container_count.
    destruct (i =? 1); lia.
  - unfold FxTree.example_host, FxIterator.FX_GetCount. lia.
  - unfold FxIterator.in_int. cbn. lia.
  - unfold FxIterator.in_int. cbn. lia.
Defined.

(** ** The menu of effects *)

Section FxMenuFacts.

Import FxIterator FxMenu.

Variable h : FxMenu.Host.

Lemma step_level it it' :
  stack it <> [] -> next (fx_host h) it = Some (true, it') ->
  (1 <= List.length (stack it')
   <= List.length (stack it) + (if isContainer it then 1 else 0))%nat.
Proof.
  intros Hne Hn. destruct (next_cases _ _ _ _ Hn) as [Hstep _].
  inversion Hstep as [current up Hstk Hcont Hs Hr | Hcont Hw Hr
                     | Hcont Hw Ht Hr0 Hcount Hs Hr | ]; subst.
  - rewrite Hs, Hcont. cbn [List.length]. lia.
  - apply walk_some in Hw. destruct Hw as (pre & cur & up & E & E' & _).
    rewrite E, E', List.length_app. cbn [List.length]. lia.
  - rewrite Hs. cbn [List.length]. destruct (stack it); [congruence|].
    cbn [List.length]. lia.
Qed.

Lemma insert_nested it it' st :
  stack it <> [] -> nested it st ->
  next (fx_host h) it = Some (true, it') ->
  exists st',
    insert h it' st = Some st'
    /\ nested it' st'
    /\ count st' = count st + 1
    /\ fx st' = getFxIndex it'
    /\ identifiers st' = (identifiers st ++ [getFxIndex it' + 1])%list.
Proof.
  intros Hne Hnest Hn. pose proof (step_level it it' Hne Hn) as Hlev.
  unfold nested in Hnest. rewrite <- Hnest in Hlev.
  unfold insert, getLevel, getName. rewrite Nat2Z.id.
  assert (Hlen : List.length
                   (skipn (List.length (menus st) - List.length (stack it'))
                      (menus st)) = List.length (stack it'))
    by (rewrite length_skipn; lia).
  destruct (skipn _ (menus st)) as [|top rest] eqn:Hkept;
    [cbn [List.length] in Hlen; lia|].
  destruct (stack it') as [|item up] eqn:Hstk; [cbn [List.length] in Hlev; lia|].
  unfold nested, identifiers.
  destruct (isContainer it') eqn:Hc; eexists; (split; [reflexivity|]);
    cbn [menus count fx inserted flat_map item_id app rev List.length];
    rewrite Hstk; cbn [List.length] in *;
    repeat split; try lia; try reflexivity.
Qed.

Lemma last_default {A} (l : list A) (d d' : A) :
  l <> [] -> last l d = last l d'.
Proof.
  induction l as [|a [|b l] IH]; intros Hne; [congruence | reflexivity|].
  change (last (a :: b :: l) d) with (last (b :: l) d).
  change (last (a :: b :: l) d') with (last (b :: l) d').
  apply IH. discriminate.
Qed.

(** The loop, in step with the iterator: it inserts one identifier for
    each node, the flat index plus one. *)
Lemma build_follows fuel : forall it st nodes,
  stack it <> [] -> nested it st ->
  iterate fuel (fx_host h) it = Some nodes ->
  exists st',
    build fuel h it st = Some st'
    /\ count st' = count st + Z.of_nat (List.length nodes)
    /\ fx st' = last (map node_index nodes) (fx st)
    /\ identifiers st'
       = (identifiers st ++ map (fun n => node_index n + 1) nodes)%list.
Proof.
  induction fuel as [|fuel IH]; intros it st nodes Hne Hnest Hrun;
    [discriminate|].
  cbn [iterate build] in *.
  destruct (next (fx_host h) it) as [[[|] it']|] eqn:Hn; [| |discriminate].
  - destruct (iterate fuel (fx_host h) it') as [l|] eqn:Hl; [|discriminate].
    injection Hrun as <-.
    destruct (insert_nested it it' st Hne Hnest Hn)
      as (st1 & -> & Hnest1 & Hcount1 & Hfx1 & Hids1).
    assert (Hne' : stack it' <> []).
    { destruct (next_cases _ _ _ _ Hn) as [_ Hs].
      destruct (Hs eq_refl) as (_ & item & up & E & _). congruence. }
    destruct (IH it' st1 l Hne' Hnest1 Hl) as (st' & -> & Hc & Hf & Hi).
    exists st'. split; [reflexivity|]. split; [|split].
    + rewrite Hc, Hcount1. cbn [List.length]. lia.
    + rewrite Hf, Hfx1. cbn [map node_of node_index].
      destruct (map node_index l) as [|z l0]; [reflexivity|].
      change (last (getFxIndex it' :: z :: l0) (fx st))
        with (last (z :: l0) (fx st)).
      apply last_default. discriminate.
    + rewrite Hi, Hids1, <- app_assoc. reflexivity.
  - injection Hrun as <-. exists st. cbn [List.length map last].
    rewrite List.app_nil_r. repeat split. lia.
Qed.

(** X8.  The menu follows the iterator: whenever the traversal ends, the
    loop of [fxParams_begin] ends too, without taking [back()] of an empty
    stack of menus; it has counted the nodes, and it has inserted one
    identifier for each node, in order: the flat index plus one. *)
Theorem menu_follows_iterator (fuel : nat) (nodes : list Node) :
  iterate fuel (fx_host h) (make (fx_host h)) = Some nodes ->
  exists st,
    build fuel h (make (fx_host h)) start = Some st
    /\ count st = Z.of_nat (List.length nodes)
    /\ identifiers st = map (fun n => node_index n + 1) nodes.
Proof.
  intros Hrun.
  destruct (build_follows fuel (make (fx_host h)) start nodes)
    as (st & Hb & Hc & _ & Hi); [discriminate | reflexivity | exact Hrun |].
  exists st. repeat split; [exact Hb | rewrite Hc; reflexivity | exact Hi].
Qed.


End FxMenuFacts.

Lemma menu_follows_iterator_witness :
  exists st,
    FxMenu.build 6 FxExamples.example_menu_host
      (FxIterator.make (FxTree.example_host true)) FxMenu.start = Some st
    /\ FxMenu.count st = 5
    /\ FxMenu.identifiers st = [1; 2; 0x2000007; 0x200000B; 3].
Proof.
  exact (menu_follows_iterator FxExamples.example_menu_host 6 _ eq_refl).
Defined.


(** ** Facts of binary64 arithmetic *)

Section DoubleFacts.

Import Params.

Local Open Scope float_scope.

Lemma double_opp_involutive (x : double) : - - x = x.
Proof.
  apply Prim2SF_inj. rewrite !opp_spec.
  destruct (Prim2SF x); cbn [SFopp]; now rewrite ?negb_involutive.
Qed.

Lemma SFcompare_swap (x y : spec_float) :
  SFcompare y x = option_map CompOpp (SFcompare x y).
Proof.
  destruct x as [sx|sx| |sx mx ex], y as [sy|sy| |sy my ey];
    cbn [SFcompare option_map]; try reflexivity;
    try (destruct sx; reflexivity); try (destruct sy; reflexivity);
    try (destruct sx, sy; reflexivity).
  destruct sx, sy; cbn [CompOpp]; try reflexivity; f_equal;
    rewrite (Z.compare_antisym ex ey);
    destruct (ex ?= ey)%Z; cbn [CompOpp]; try reflexivity.
  - now rewrite (Pos.compare_cont_antisym mx my Eq).
  - now rewrite (Pos.compare_cont_antisym mx my Eq).
Qed.

Lemma double_leb_not_ltb (x y : double) :
  (x <=? y) = true -> (y <? x) = false.
Proof.
  rewrite leb_spec, ltb_spec. unfold SFleb, SFltb.
  rewrite (SFcompare_swap (Prim2SF x) (Prim2SF y)).
  destruct (SFcompare (Prim2SF x) (Prim2SF y)) as [[]|]; cbn; congruence.
Qed.

Lemma double_negative_opp (x : double) :
  (x <? 0) = true -> (- x <? 0) = false.
Proof.
  rewrite !ltb_spec, opp_spec. change (Prim2SF 0) with (S754_zero false).
  unfold SFltb. destruct (Prim2SF x) as [s|s| |s m e]; cbn;
    try destruct s; cbn; congruence.
Qed.

End DoubleFacts.

(** ** More on the volume parameter *)

Section VolMore.

Import Params Params.Vol.

Local Open Scope float_scope.

(** X10.  The sign inversion of the volume parameter round-trips: for
    every value and either polarity, [getValue] reads back what
    [setValue] stored, and storing what [getValue] read leaves the host's
    value as it was. *)
Theorem Vol_set_get (p : t) (v : double) :
  getValue p (setValue p v) = v /\ setValue p (getValue p v) = v.
Proof.
  unfold getValue, setValue.
  destruct (flipSign p); split; auto using double_opp_involutive.
Qed.

(** X11.  Right after its construction a volume parameter never reads a
    negative value: the constructor detects the flipped polarity from the
    sign of the raw value, and [getValue] undoes it. *)
Theorem Vol_make_not_negative (raw : double) :
  (getValue (make raw) raw <? 0) = false
  /\ flipSign (make raw) = (raw <? 0).
Proof.
  unfold make, getValue. cbn [flipSign].
  destruct (raw <? 0) eqn:E; cbn [flipSign]; split; auto.
  now apply double_negative_opp.
Qed.

End VolMore.

(** ** More on the slider *)

Section SliderMore.

Import Params ParamsDialog.

Local Open Scope float_scope.

Variable param : Param.
Variable getValueText : double -> string.
Variable percentText : double -> string.

Local Abbreviation in_range := (in_range param).
Local Abbreviation stops := (stops param getValueText).
Local Abbreviation onSliderChange := (onSliderChange param getValueText percentText).
Local Abbreviation translateAccel := (translateAccel param getValueText percentText).
Local Abbreviation updateValue := (updateValue param getValueText percentText).
Local Abbreviation rejected := (rejected param).
Local Abbreviation toward := (toward param).

(** X12.  The snap: when the values tested, [newVal], [newVal + step],
    [newVal + 2 * step], ..., are in range and have the text shown up to
    the first one in range with another text, [onSliderChange] commits
    that first one, and shows its text. *)
Theorem onSliderChange_first_distinct (fuel : nat) (d : t) (newVal : double)
  (n : nat) :
  rejected d newVal = false ->
  valText d <> ""%string ->
  (forall i, (i < n)%nat ->
     in_range (candidate newVal (toward d newVal) i) = true
     /\ getValueText (candidate newVal (toward d newVal) i) = valText d) ->
  in_range (candidate newVal (toward d newVal) n) = true ->
  getValueText (candidate newVal (toward d newVal) n) <> ""%string ->
  getValueText (candidate newVal (toward d newVal) n) <> valText d ->
  (n < fuel)%nat ->
  onSliderChange fuel d newVal
  = Some {| dialog :=
              {| val := candidate newVal (toward d newVal) n;
                 valText := getValueText (candidate newVal (toward d newVal) n) |};
            committed := Some (candidate newVal (toward d newVal) n) |}.
Proof.
  intros Hacc Htext Hbefore Hin Hne Hdiff Hfuel.
  rewrite (onSliderChange_accepted param getValueText percentText) by exact Hacc.
  rewrite (snap_stops param getValueText newVal (valText d) (toward d newVal)
             n Distinct).
  - cbn [snapped]. unfold ParamsDialog.updateValue.
    now destruct (String.eqb_spec
                    (getValueText (candidate newVal (toward d newVal) n)) "").
  - intros i Hi. apply stops_none. destruct (Hbefore i Hi). auto.
  - unfold ParamsDialog.stops. rewrite Hin.
    destruct (String.eqb_spec
                (getValueText (candidate newVal (toward d newVal) n)) "");
      [contradiction|].
    now destruct (String.eqb_spec
                    (getValueText (candidate newVal (toward d newVal) n))
                    (valText d)).
  - lia.
  - lia.
Qed.

(** X13.  Whatever the key and the formatter, the value that
    [onSliderChange] commits is never below [min] nor above [max]. *)
Theorem committed_within_range (fuel : nat) (d : t) (newVal : double)
  (out : Outcome) (c : double) :
  onSliderChange fuel d newVal = Some out ->
  committed out = Some c ->
  (c <? min param) = false /\ (max param <? c) = false.
Proof.
  intros Hrun Hc. destruct (rejected d newVal) eqn:Hrej.
  - rewrite (onSliderChange_rejected param getValueText percentText) in Hrun
      by exact Hrej.
    injection Hrun as <-. discriminate.
  - rewrite (onSliderChange_accepted param getValueText percentText) in Hrun
      by exact Hrej.
    destruct (ParamsDialog.snap _ _ _ _ _ _ _ _) as [v|] eqn:Hsnap;
      [|discriminate].
    injection Hrun as <-. cbn [committed] in Hc. injection Hc as ->.
    apply snap_returns in Hsnap.
    destruct Hsnap as (n & why & _ & _ & Hstop & ->).
    assert (Hnew : (newVal <? min param) = false
                   /\ (max param <? newVal) = false).
    { unfold ParamsDialog.rejected in Hrej.
      apply orb_false_elim in Hrej. destruct Hrej as [Hrej Hmax].
      apply orb_false_elim in Hrej. tauto. }
    destruct why; cbn [snapped]; try exact Hnew.
    apply stops_distinct in Hstop. destruct Hstop as [Hin _].
    unfold ParamsDialog.in_range in Hin. apply andb_prop in Hin.
    destruct Hin. split; now apply double_leb_not_ltb.
Qed.

(** Without a text for the requested value, the value is committed at
    once and the text is the fallback. *)
Lemma onSliderChange_fallback (fuel : nat) (d : t) (newVal : double) :
  rejected d newVal = false ->
  in_range newVal = true ->
  getValueText newVal = ""%string ->
  onSliderChange (S fuel) d newVal
  = Some {| dialog :=
              {| val := newVal;
                 valText :=
                   percentText ((newVal - min param)
                                / (max param - min param) * 100) |};
            committed := Some newVal |}.
Proof.
  intros Hacc Hin Htext.
  rewrite (onSliderChange_accepted param getValueText percentText) by exact Hacc.
  rewrite (snap_stops param getValueText newVal (valText d) (toward d newVal)
             0 NoText).
  - cbn [snapped]. unfold ParamsDialog.updateValue. now rewrite Htext.
  - intros i Hi. lia.
  - unfold ParamsDialog.stops, candidate. now rewrite Hin, Htext.
  - lia.
  - lia.
Qed.






End SliderMore.

Section SliderPercent.

Import Params ParamsDialog.

Local Open Scope float_scope.

(** X14.  A parameter without text: when the formatter returns no text for
    the requested value, that value is committed at once, and the text
    shown is its percentage of the range, written with one decimal place
    and a percent sign. *)
Theorem onSliderChange_no_text (param : Param)
  (getValueText special : double -> string) (fuel : nat) (d : t)
  (newVal : double) :
  rejected param d newVal = false ->
  in_range param newVal = true ->
  getValueText newVal = ""%string ->
  onSliderChange param getValueText (percent_fixed special) (S fuel) d newVal
  = Some {| dialog :=
              {| val := newVal;
                 valText :=
                   (fixed1 special ((newVal - min param)
                                    / (max param - min param) * 100)
                    ++ "%")%string |};
            committed := Some newVal |}.
Proof.
  intros Hacc Hin Htext.
  exact (onSliderChange_fallback param getValueText (percent_fixed special)
           fuel d newVal Hacc Hin Htext).
Qed.

End SliderPercent.

Section SliderMoreExamples.

Local Open Scope float_scope.

Lemma onSliderChange_first_distinct_witness :
  ParamsDialog.onSliderChange SliderExample.wide SliderExample.whole_text
    SliderExample.percent_text 10 (SliderExample.showing 1.25) 1.5
  = Some {| ParamsDialog.dialog := SliderExample.showing 2;
            ParamsDialog.committed := Some 2%float |}.
Proof.
  apply (onSliderChange_first_distinct SliderExample.wide
           SliderExample.whole_text SliderExample.percent_text 10
           (SliderExample.showing 1.25) 1.5 2).
  - reflexivity.
  - discriminate.
  - intros i Hi. destruct i as [|[|i]]; [split; reflexivity .. | lia].
  - reflexivity.
  - discriminate.
  - discriminate.
  - lia.
Defined.

Lemma committed_within_range_witness :
  (1.5 <? Params.min SliderExample.narrow) = false
  /\ (Params.max SliderExample.narrow <? 1.5) = false.
Proof.
  apply (committed_within_range SliderExample.narrow SliderExample.whole_text
           SliderExample.percent_text 10 (SliderExample.showing 1.25) 1.5
           {| ParamsDialog.dialog := SliderExample.showing 1.5;
              ParamsDialog.committed := Some 1.5%float |} 1.5);
    reflexivity.
Defined.

Lemma onSliderChange_no_text_witness :
  ParamsDialog.onSliderChange SliderExample.wide (fun _ => ""%string)
    SliderExample.percent_text 1 (SliderExample.showing 1.25) 1.5
  = Some {| ParamsDialog.dialog :=
              {| ParamsDialog.val := 1.5; ParamsDialog.valText := "37.5%" |};
            ParamsDialog.committed := Some 1.5%float |}.
Proof.
  apply (onSliderChange_no_text SliderExample.wide (fun _ => ""%string)
           SliderExample.special_text 0 (SliderExample.showing 1.25) 1.5);
    reflexivity.
Defined.


End SliderMoreExamples.

(** ** More on the parameters *)

Section NamedConfigMore.

Import Params Params.NamedConfig.

Lemma find_value_at values : forall (v : nat) v0 first second,
  NoDup (map snd values) ->
  nth_error values v = Some (first, second) ->
  find_value second values v0 = Some (v0 + Z.of_nat v).
Proof.
  induction values as [|[f s] rest IH]; intros v v0 first second Hnd Hnth.
  - destruct v; discriminate.
  - cbn [map] in Hnd. inversion Hnd as [|? ? Hnotin Hnd']. subst.
    cbn [find_value]. destruct v as [|v].
    + injection Hnth as -> ->. rewrite String.eqb_refl. f_equal. lia.
    + cbn [nth_error] in Hnth.
      destruct (String.eqb_spec second s) as [->|_].
      * exfalso. apply Hnotin. apply nth_error_In in Hnth.
        now apply (in_map snd) in Hnth.
      * rewrite (IH v (v0 + 1) first second Hnd' Hnth). f_equal. lia.
Qed.

(** X16.  An enumerated parameter round-trips through the host when the
    names of its table are distinct and not empty: after [setValue(value)]
    stored the name of the entry [(int)value], [getValue] returns
    [(int)value] and [getValueText] of it the label of that entry. *)
Theorem NamedConfig_set_get (values : FxNamedConfigParamValues)
  (value : double) (k : Z) (stored : string) :
  NoDup (map snd values) ->
  (forall first second, In (first, second) values -> second <> ""%string) ->
  int_of_double value = Some k ->
  setValue values value = Some stored ->
  getValue values (Some stored) = double_of_int k
  /\ 0 <= k < Z.of_nat (List.length values)
  /\ getValueText values value
     = option_map fst (nth_error values (Z.to_nat k)).
Proof.
  intros Hnd Hne Hk Hset. unfold setValue, getValueText, entry in *.
  rewrite Hk in *. destruct (k <? 0) eqn:Hneg; [discriminate|].
  apply Z.ltb_ge in Hneg.
  destruct (nth_error values (Z.to_nat k)) as [[first second]|] eqn:Hnth;
    [|discriminate].
  injection Hset as <-. split; [|split; [|reflexivity]].
  - unfold getValue.
    destruct (String.eqb_spec second "") as [E|_].
    + exfalso. apply (Hne first second); [|exact E].
      now apply nth_error_In in Hnth.
    + rewrite (find_value_at values (Z.to_nat k) 0 first second Hnd Hnth).
      f_equal. lia.
  - assert (Z.to_nat k < List.length values)%nat
      by (apply nth_error_Some; congruence).
    lia.
Qed.

End NamedConfigMore.

Section NamedConfigExamples.

Local Open Scope float_scope.

Lemma NamedConfig_set_get_witness :
  Params.NamedConfig.setValue Params.NamedConfig.REAEQ_BAND_TYPE_VALUES 2
  = Some "8"%string
  /\ Params.NamedConfig.getValue Params.NamedConfig.REAEQ_BAND_TYPE_VALUES
       (Some "8"%string) = 2
  /\ Params.NamedConfig.getValueText Params.NamedConfig.REAEQ_BAND_TYPE_VALUES 2
     = Some "band"%string.
Proof.
  split; [reflexivity|].
  destruct (NamedConfig_set_get Params.NamedConfig.REAEQ_BAND_TYPE_VALUES
              2 2%Z "8"%string) as (Hget & _ & Htext).
  - repeat constructor; cbn; intuition discriminate.
  - intros first second Hin ->. cbn in Hin.
    repeat (destruct Hin as [Hin|Hin]; [discriminate|]). exact Hin.
  - reflexivity.
  - reflexivity.
  - split; [exact Hget | exact Htext].
Defined.

End NamedConfigExamples.

Section FxParamMore.

Import Params.

Local Open Scope float_scope.

(** X17.  When the host reports a step for a numbered effect parameter,
    the constructor keeps it and leaves a large step that is not 0,
    whether the host reported one or not and whatever the conversion to
    [int] gives: the page keys never stand still for lack of a large
    step. *)
Theorem FxParam_large_step_not_zero (cast : double -> Z) (r : Fx.Reported) :
  (Fx.written 0 (Fx.stepOut r) =? 0) = false ->
  let p := Fx.make cast r in
  step p = Fx.written 0 (Fx.stepOut r)
  /\ (largeStep p =? 0) = false
  /\ isEditable p = true.
Proof.
  intros Hstep. cbv zeta. unfold Fx.make. rewrite Hstep. cbn [negb].
  destruct (Fx.written 0 (Fx.largestepOut r) =? 0) eqn:Hlarge;
    cbn [step largeStep isEditable]; repeat split; try assumption.
  destruct (Fx.written 0 (Fx.stepOut r) * double_of_int _ =? 0) eqn:E;
    assumption.
Qed.

(** A large step from a quotient that is an [int], and one from a
    quotient that is not, on x86. *)
Lemma FxParam_large_step_not_zero_witness :
  largeStep (Fx.make int_x86 {| Fx.minval := 0; Fx.maxval := 1;
                                Fx.stepOut := Some 0.3;
                                Fx.largestepOut := None |}) = 0.3
  /\ (largeStep (Fx.make int_x86 {| Fx.minval := 0; Fx.maxval := 1e12;
                                   Fx.stepOut := Some 1;
                                   Fx.largestepOut := None |}) =? 0) = false.
Proof.
  split; [reflexivity|].
  apply (FxParam_large_step_not_zero int_x86
           {| Fx.minval := 0; Fx.maxval := 1e12;
              Fx.stepOut := Some 1; Fx.largestepOut := None |}).
  reflexivity.
Defined.

End FxParamMore.

Section SourcesFacts.

Import Params Sources.

Local Open Scope string_scope.

Variable GetNamedConfigParm : string -> bool.

Lemma bands_run fuel : forall (k : nat) (band : nat),
  (forall b, (band <= b < band + k)%nat ->
     GetNamedConfigParm ("BANDENABLED" ++ FxParams.string_of_int (Z.of_nat b))
     = true) ->
  GetNamedConfigParm
    ("BANDENABLED" ++ FxParams.string_of_int (Z.of_nat (band + k))) = false ->
  (k < fuel)%nat ->
  bands GetNamedConfigParm fuel (Z.of_nat band)
  = Some (flat_map band_params (seq band k)).
Proof.
  induction fuel as [|fuel IH]; intros k band Hex Hend Hfuel; [lia|].
  cbn [bands]. destruct k as [|k].
  - rewrite Nat.add_0_r in Hend. rewrite Hend. reflexivity.
  - rewrite Hex by lia. cbn [negb].
    assert (E : bands GetNamedConfigParm fuel (Z.of_nat band + 1)
                = Some (flat_map band_params (seq (S band) k))).
    { replace (Z.of_nat band + 1)%Z with (Z.of_nat (S band)) by lia.
      apply (IH k (S band)).
      - intros b Hb. apply Hex. lia.
      - now replace (S band + k)%nat with (band + S k)%nat by lia.
      - lia. }
    rewrite E. reflexivity.
Qed.

Lemma bands_length (k : nat) : forall s,
  List.length (flat_map band_params (seq s k)) = (2 * k)%nat.
Proof.
  induction k as [|k IH]; intros s; [reflexivity|].
  cbn [seq flat_map band_params app List.length]. rewrite IH. lia.
Qed.

(** X18.  The named parameters of ReaEQ: when the host knows the bands 0
    to [k - 1] and no band [k], the list has two parameters for each band,
    in order: "Band b+1 enable" over the toggle values, then "Band b+1
    type" over the band types; for an effect of another name the list is
    empty. *)
Theorem initNamedConfigParams_bands (fxName : string) (k fuel : nat) :
  (forall b, (b < k)%nat ->
     GetNamedConfigParm ("BANDENABLED" ++ FxParams.string_of_int (Z.of_nat b))
     = true) ->
  GetNamedConfigParm ("BANDENABLED" ++ FxParams.string_of_int (Z.of_nat k))
  = false ->
  (k < fuel)%nat ->
  initNamedConfigParams fxName GetNamedConfigParm fuel
  = Some (if String.eqb fxName "VST: ReaEQ (Cockos)"
          then flat_map band_params (seq 0 k) else [])
  /\ (String.eqb fxName "VST: ReaEQ (Cockos)" = true ->
      forall l, initNamedConfigParams fxName GetNamedConfigParm fuel = Some l ->
      List.length l = (2 * k)%nat).
Proof.
  intros Hex Hend Hfuel. unfold initNamedConfigParams.
  assert (Hrun : bands GetNamedConfigParm fuel 0
                 = Some (flat_map band_params (seq 0 k))).
  { apply (bands_run fuel k 0); auto. intros b Hb. apply Hex. lia. }
  split.
  - destruct (String.eqb fxName "VST: ReaEQ (Cockos)"); [exact Hrun | reflexivity].
  - intros -> l. rewrite Hrun. intros [= <-]. apply bands_length.
Qed.

End SourcesFacts.

Lemma initNamedConfigParams_bands_witness :
  Sources.initNamedConfigParams "VST: ReaEQ (Cockos)"
    (fun name => String.eqb name "BANDENABLED0") 2
  = Some (Sources.band_params 0).
Proof.
  apply (initNamedConfigParams_bands
           (fun name => String.eqb name "BANDENABLED0")
           "VST: ReaEQ (Cockos)" 1 2).
  - intros b Hb. assert (b = 0%nat) as -> by lia. reflexivity.
  - reflexivity.
  - lia.
Defined.

Section ProviderFacts.

Import Params Sources.

Lemma makeParam_well_formed (p : Provider) (raw : double) :
  well_formed (makeParam p raw).
Proof.
  unfold makeParam. destruct (makeParamFromProvider p).
  - unfold Vol.make, Vol.getValue. cbn [Vol.flipSign].
    destruct (raw <? 0)%float; split; reflexivity.
  - split; reflexivity.
  - split; reflexivity.
  - split; reflexivity.
Qed.

Lemma addSendParams_length dispPrefix category categoryName count :
  List.length (addSendParams dispPrefix category categoryName count)
  = (4 * Z.to_nat count)%nat.
Proof.
  unfold addSendParams. generalize 0%nat at 1.
  induction (Z.to_nat count) as [|n IH]; intros s; [reflexivity|].
  cbn [seq flat_map]. rewrite List.length_app, IH. cbn [send_params List.length].
  lia.
Qed.

(** X19.  The sources of item and track parameters: an item has 4
    parameters, 6 with an active take; a track has 3, 4 more for each send
    and each receive, and one for each parameter of an effect shown in the
    track control panel; and every parameter made from one of these
    providers of the project's own values has [min <= max] and [step > 0],
    whatever the host's value. *)
Theorem item_and_track_params (dispPrefix : Z -> string -> nat -> string)
  (GetTCPFXParm : nat -> Z * Z) (GetParamName : Z -> Z -> string)
  (GetFXName : Z -> string)
  (has_take : bool) (sends receives fxParamCount : Z) (raw : double) :
  let track :=
    TrackParams dispPrefix GetTCPFXParm GetParamName GetFXName
      sends receives fxParamCount in
  List.length (ItemParams has_take) = (if has_take then 6 else 4)%nat
  /\ List.length track
     = (3 + 4 * (Z.to_nat sends + Z.to_nat receives)
        + Z.to_nat fxParamCount)%nat
  /\ (forall p, well_formed (makeParam p raw)).
Proof.
  cbv zeta. split; [now destruct has_take|]. split.
  - unfold TrackParams.
    rewrite List.length_app, List.length_map, !List.length_app,
      !addSendParams_length.
    cbn [List.length].
    destruct (fxParamCount >? 0) eqn:E.
    + rewrite List.length_map, List.length_seq. lia.
    + cbn [List.length]. rewrite Z.gtb_ltb in E. apply Z.ltb_ge in E. lia.
  - intros p. apply makeParam_well_formed.
Qed.

End ProviderFacts.

(** ** The filters of the dialogs *)

Section FilterFacts.

Import Filter.

Local Open Scope string_scope.

Lemma lower_app (a b : string) : lower (a ++ b) = lower a ++ lower b.
Proof. induction a as [|c a IH]; cbn; [reflexivity | now rewrite IH]. Qed.

Lemma prefix_app (f s : string) : String.prefix f (f ++ s) = true.
Proof.
  induction f as [|c f IH]; [now destruct s|].
  cbn. destruct (ascii_dec c c); [exact IH | contradiction].
Qed.

Lemma prefix_split (f s : string) :
  String.prefix f s = true -> exists post, s = f ++ post.
Proof.
  revert s. induction f as [|c f IH]; intros s H.
  - now exists s.
  - destruct s as [|c' s]; [discriminate|]. cbn in H.
    destruct (ascii_dec c c') as [->|]; [|discriminate].
    destruct (IH s H) as [post ->]. now exists post.
Qed.

Lemma find_occurrence (f pre post : string) :
  find f (pre ++ f ++ post) <> None.
Proof.
  induction pre as [|c pre IH].
  - cbn [append]. destruct (f ++ post) eqn:E; cbn [find];
      rewrite <- E, prefix_app; discriminate.
  - cbn [append find].
    destruct (String.prefix f (String c (pre ++ f ++ post))); [discriminate|].
    destruct (find f (pre ++ f ++ post)); [discriminate | contradiction].
Qed.

Lemma find_sound (f s : string) (i : nat) :
  find f s = Some i -> exists pre post, s = pre ++ f ++ post.
Proof.
  revert i. induction s as [|c s IH]; intros i H; cbn [find] in H.
  - destruct (String.prefix f "") eqn:E; [|discriminate].
    destruct (prefix_split _ _ E) as [post ->]. now exists "", post.
  - destruct (String.prefix f (String c s)) eqn:E.
    + destruct (prefix_split _ _ E) as [post ->]. now exists "", post.
    + destruct (find f s) as [j|] eqn:Ef; [|discriminate].
      destruct (IH j eq_refl) as (pre & post & ->).
      now exists (String c pre), post.
Qed.

Lemma lower_empty (s : string) : lower s = "" -> s = "".
Proof. now destruct s. Qed.

Lemma substring_whole (n : nat) (s : string) :
  (String.length s <= n)%nat -> substring 0 n s = s.
Proof.
  revert n. induction s as [|c s IH]; intros n Hn.
  - now destruct n.
  - destruct n as [|n]; [cbn [String.length] in Hn; lia|].
    cbn [substring]. f_equal. apply IH. cbn [String.length] in Hn. lia.
Qed.

Lemma substring_cut (n : nat) (s : string) :
  exists rest,
    s = substring 0 n s ++ rest
    /\ String.length (substring 0 n s) = Nat.min n (String.length s).
Proof.
  revert n. induction s as [|c s IH]; intros n.
  - exists "". now destruct n.
  - destruct n as [|n]; [now exists (String c s)|].
    destruct (IH n) as (rest & E & Hlen). exists rest.
    cbn [substring append String.length Nat.min]. rewrite <- E, Hlen.
    split; reflexivity.
Qed.

(** X20.  The filter of a dialog does not look at the case of letters.
    Whatever the filter was, after [onFilterChange] the filter is the text
    of the field in lower case, cut to its first 99 characters (the whole
    text when it is no longer), and a preset is listed exactly when that
    text is empty or occurs in the name of the preset in lower case; so a
    name that contains it, in any case of its letters, is listed. *)
Theorem filter_ignores_case (old typed name : string) :
  let filter :=
    match onFilterChange old typed with Some text => text | None => old end in
  let read := GetDlgItemText 100 typed in
  filter = lower read
  /\ (exists rest,
        typed = read ++ rest
        /\ String.length read = Nat.min 99 (String.length typed))
  /\ ((String.length typed <= 99)%nat -> read = typed)
  /\ (shouldIncludePreset filter name = true <->
      read = "" \/ exists pre post, lower name = pre ++ lower read ++ post)
  /\ (forall pre mid post,
        name = pre ++ mid ++ post -> lower mid = lower read ->
        shouldIncludePreset filter name = true).
Proof.
  cbv zeta.
  assert (E : match onFilterChange old typed with
              | Some text => text | None => old end
              = lower (GetDlgItemText 100 typed)).
  { unfold onFilterChange.
    destruct (String.eqb_spec old (lower (GetDlgItemText 100 typed)));
      [assumption | reflexivity]. }
  rewrite E. split; [reflexivity|].
  split; [exact (substring_cut 99 typed)|].
  split; [exact (substring_whole 99 typed)|].
  set (read := GetDlgItemText 100 typed).
  unfold shouldIncludePreset. split.
  - destruct (String.eqb_spec (lower read) "") as [H0|H0].
    + split; [intros _; left; now apply lower_empty | reflexivity].
    + split.
      * destruct (find (lower read) (lower name)) as [i|] eqn:Ef;
          [|discriminate].
        intros _. right. exact (find_sound _ _ i Ef).
      * intros [Hr|(pre & post & Eo)]; [rewrite Hr in H0; now contradiction H0|].
        rewrite Eo.
        pose proof (find_occurrence (lower read) pre post) as Hf.
        now destruct (find (lower read) (pre ++ lower read ++ post)).
  - intros pre mid post -> Hmid.
    destruct (String.eqb (lower read) ""); [reflexivity|].
    rewrite !lower_app, Hmid.
    pose proof (find_occurrence (lower read) (lower pre) (lower post)) as Hf.
    now destruct (find (lower read) (lower pre ++ lower read ++ lower post)).
Qed.

End FilterFacts.

(** ** The parameters without a name *)

Section UnnamedFacts.

Import Params.FxParams ParamList.

Local Open Scope string_scope.

Lemma star_digits_closing (n : string) :
  forallb is_digit (list_ascii_of_string n) = true ->
  star is_digit (n ++ ")") closing = true.
Proof.
  induction n as [|c n IH]; intros H; [reflexivity|].
  cbn [list_ascii_of_string forallb] in H. apply andb_prop in H as [Hc Hn].
  cbn [append star]. rewrite Hc, (IH Hn). reflexivity.
Qed.

Lemma star_closing_sound (s : string) :
  star is_digit s closing = true ->
  exists ds, forallb is_digit (list_ascii_of_string ds) = true
             /\ s = ds ++ ")".
Proof.
  assert (Hk : forall s, closing s = true -> s = ")").
  { intros [|c [|c' r]]; unfold closing; cbn [matches at_end];
      try discriminate.
    - destruct (Ascii.eqb_spec ")" c) as [<-|]; [reflexivity | discriminate].
    - rewrite andb_false_r. discriminate. }
  induction s as [|c s IH]; intros H; cbn [star] in H.
  - discriminate.
  - destruct (is_digit c) eqn:Hc.
    + apply orb_prop in H as [H|H].
      * destruct (IH H) as (ds & Hds & ->). exists (String c ds).
        cbn [list_ascii_of_string forallb]. now rewrite Hc, Hds.
      * apply Hk in H. injection H as -> _. discriminate.
    + apply Hk in H. rewrite H. now exists "".
Qed.

Lemma NUMBER_matches (n : string) :
  n <> "" -> forallb is_digit (list_ascii_of_string n) = true ->
  matches NUMBER (" (" ++ n ++ ")") at_end = true.
Proof.
  intros Hne Hn. destruct n as [|c n]; [contradiction|].
  cbn [list_ascii_of_string forallb] in Hn. apply andb_prop in Hn as [Hc Hn].
  cbn [NUMBER matches append]. rewrite !Ascii.eqb_refl, Hc. cbn [andb].
  exact (star_digits_closing n Hn).
Qed.

Lemma NUMBER_sound (s : string) :
  matches NUMBER s at_end = true ->
  exists ds, forallb is_digit (list_ascii_of_string ds) = true
             /\ s = " (" ++ ds ++ ")".
Proof.
  destruct s as [|c1 [|c2 [|c3 s]]]; cbn [NUMBER matches];
    try (rewrite ?andb_false_r; discriminate).
  intros H. apply andb_prop in H as [H1 H]. apply andb_prop in H as [H2 H].
  apply andb_prop in H as [H3 H].
  apply Ascii.eqb_eq in H1, H2. subst c1 c2.
  destruct (star_closing_sound s H) as (ds & Hds & ->).
  exists (String c3 ds). cbn [list_ascii_of_string forallb].
  now rewrite H3, Hds.
Qed.

(** The part of a name before its number is determined by the name. *)
Lemma numbered_prefix_inj (a b n ds : string) :
  forallb is_digit (list_ascii_of_string n) = true ->
  forallb is_digit (list_ascii_of_string ds) = true ->
  a ++ " (" ++ n ++ ")" = b ++ " (" ++ ds ++ ")" -> a = b.
Proof.
  intros Hn Hds E.
  apply (f_equal (fun s => rev (list_ascii_of_string s))) in E.
  rewrite !chars_app, !rev_app_distr in E. cbn [list_ascii_of_string rev] in E.
  rewrite <- !app_assoc in E. cbn [app] in E. injection E as E.
  assert (Hrun : rev (list_ascii_of_string n) = rev (list_ascii_of_string ds)).
  { eapply digit_run_unique with (c := "("%char); [| | reflexivity | exact E];
      now apply forallb_rev_true. }
  rewrite Hrun in E. apply app_inv_head in E. injection E as E.
  now apply rev_chars_inj.
Qed.

Lemma string_of_int_not_empty (n : Z) : 0 <= n -> string_of_int n <> "".
Proof.
  intros Hn. unfold string_of_int. destruct n as [|p|p]; [discriminate| |lia].
  cbn [Z.to_int NilZero.string_of_int]. unfold NilZero.string_of_uint.
  destruct (Pos.to_uint p); discriminate.
Qed.

(** [NUMBER] matches the whole of a numbered name only if nothing comes
    before the number. *)
Lemma NUMBER_on_numbered (host : string) (param : Z) :
  0 <= param ->
  matches NUMBER (host ++ " (" ++ string_of_int param ++ ")") at_end
  = at_end host.
Proof.
  intros Hp. destruct host as [|c host].
  - apply NUMBER_matches;
      [now apply string_of_int_not_empty | now apply string_of_int_digits].
  - cbn [at_end].
    destruct (matches NUMBER
                (String c host ++ " (" ++ string_of_int param ++ ")") at_end)
      eqn:E; [|reflexivity].
    destruct (NUMBER_sound _ E) as (ds & Hds & Es).
    apply (numbered_prefix_inj (String c host) "" _ ds) in Es;
      [discriminate | now apply string_of_int_digits | exact Hds].
Qed.

Lemma unnamed_on_numbered (host : string) (param : Z) :
  0 <= param ->
  regex_match (host ++ " (" ++ string_of_int param ++ ")") RE_UNNAMED_PARAM
  = placeholder host.
Proof.
  intros Hp. unfold regex_match, RE_UNNAMED_PARAM.
  pose proof (fun h => NUMBER_on_numbered h param Hp) as HN.
  remember NUMBER as N eqn:EN. clear EN.
  remember (" (" ++ string_of_int param ++ ")") as tail eqn:Et.
  assert (Hd : is_digit " " = false) by reflexivity.
  assert (Ht : exists r, tail = String " " r) by (rewrite Et; now eexists).
  destruct Ht as [r Ht].
  cbn [matches digit]. rewrite (HN host).
  destruct host as [|c host]; [reflexivity|]. cbn [at_end orb append].
  rewrite (HN host).
  destruct host as [|x1 host].
  - cbn [at_end append placeholder]. rewrite Ht, Hd.
    now rewrite andb_true_r, !andb_false_r, orb_false_r.
  - cbn [at_end append]. rewrite andb_false_r. cbn [orb].
    destruct host as [|x2 host].
    + cbn [append placeholder]. rewrite Ht, Hd.
      destruct (is_digit x1), (is_P_or_hash c); reflexivity.
    + destruct host as [|x3 host].
      * cbn [append placeholder]. rewrite Ht, Hd.
        destruct (is_digit x1), (is_digit x2), (is_P_or_hash c); reflexivity.
      * cbn [append]. rewrite (HN host).
        destruct host as [|c5 host]; cbn [at_end placeholder].
        -- now rewrite !andb_true_r, !andb_assoc.
        -- now rewrite !andb_false_r.
Qed.

(** X21.  The numbered parameters that "include unnamed parameters" is
    about: with the box unchecked, a numbered parameter of an effect is
    left out exactly when the host's name for it is empty, a dash, or [P]
    or [#] and three digits, and otherwise, as with the box checked, the
    filter alone decides, as it does for presets. *)
Theorem unnamed_params_hidden (src : Params.FxParams.t) (param : Z)
  (filter : string) :
  Z.of_nat (List.length (namedConfigParams src)) <= param ->
  let host :=
    GetParamName src (param - Z.of_nat (List.length (namedConfigParams src)))
  in
  exists name,
    getParamName src param = Some name
    /\ shouldIncludeParam false filter name
       = negb (placeholder host) && Filter.shouldIncludePreset filter name
    /\ shouldIncludeParam true filter name
       = Filter.shouldIncludePreset filter name.
Proof.
  intros Hp host. unfold getParamName.
  replace (param <? Z.of_nat (List.length (namedConfigParams src)))%Z
    with false by (symmetry; apply Z.ltb_ge; lia).
  eexists. split; [reflexivity|].
  unfold shouldIncludeParam, Filter.shouldIncludePreset.
  rewrite unnamed_on_numbered by lia. fold host. cbn [negb andb].
  split; [|reflexivity]. now destruct (placeholder host).
Qed.

End UnnamedFacts.

Lemma unnamed_params_hidden_witness :
  let src := {| Params.FxParams.namedConfigParams := [];
                Params.FxParams.GetParamName :=
                  fun i => if (i =? 0)%Z then "#007"%string else "Gain"%string |}
  in
  Params.FxParams.getParamName src 0 = Some "#007 (0)"%string
  /\ ParamList.shouldIncludeParam false "" "#007 (0)" = false
  /\ ParamList.shouldIncludeParam false "" "Gain (1)" = true.
Proof.
  cbv zeta. split; [reflexivity|]. split; [|reflexivity].
  destruct (unnamed_params_hidden
              {| Params.FxParams.namedConfigParams := [];
                 Params.FxParams.GetParamName :=
                   fun i => if (i =? 0)%Z then "#007"%string
                            else "Gain"%string |} 0 ""%string)
    as (name & Hname & Hunchecked & _).
  - cbn. lia.
  - injection Hname as <-. exact Hunchecked.
Defined.

(** ** The list of parameters *)

Section ParamListFacts.

Import ParamList.

Variable getParamName : Z -> string.
Variable includeUnnamed : bool.
Variable filter : string.

Local Abbreviation included :=
  (fun p => shouldIncludeParam includeUnnamed filter (getParamName p)).

Lemma upto_from (k : nat) : forall p x, In x (upto p k) -> p <= x.
Proof.
  induction k as [|k IH]; intros p x H; [contradiction|].
  destruct H as [<-|H]; [lia|]. apply IH in H. lia.
Qed.

Lemma upto_spec (k : nat) : forall p x,
  In x (upto p k) <-> p <= x < p + Z.of_nat k.
Proof.
  induction k as [|k IH]; intros p x; cbn [upto In]; [lia|].
  rewrite IH. lia.
Qed.

Lemma at_index_app_length (v w : list Z) (x : Z) :
  at_index (v ++ x :: w) (Z.of_nat (List.length v)) = Some x.
Proof.
  unfold at_index.
  replace (Z.of_nat (List.length v) <? 0) with false
    by (symmetry; apply Z.ltb_ge; lia).
  rewrite Nat2Z.id, nth_error_app2 by lia. now rewrite Nat.sub_diag.
Qed.

(** The loop adds the included parameters in order, and leaves the
    selection on the previously selected one where it is added. *)
Lemma fill_spec (prev : Z) (k : nat) : forall p visible sel,
  let F := List.filter included (upto p k) in
  exists sel',
    fill getParamName includeUnnamed filter k p prev visible sel
    = ((visible ++ F)%list, sel')
    /\ (In prev F -> at_index (visible ++ F) sel' = Some prev
                     /\ 0 <= sel' < Z.of_nat (List.length (visible ++ F)))
    /\ (~ In prev F -> sel' = sel).
Proof.
  induction k as [|k IH]; intros p visible sel; cbv zeta.
  - exists sel. cbn [upto List.filter fill]. rewrite List.app_nil_r.
    split; [reflexivity|]. split; [contradiction | reflexivity].
  - cbn [upto List.filter fill].
    destruct (shouldIncludeParam includeUnnamed filter (getParamName p))
      eqn:Hinc; cbn [negb].
    + set (sel1 := if p =? prev
                   then Z.of_nat (List.length (visible ++ [p])) - 1 else sel).
      destruct (IH (p + 1) (visible ++ [p])%list sel1)
        as (sel' & Hfill & Hin & Hout).
      exists sel'. rewrite <- app_assoc in Hfill, Hin. cbn [app] in Hfill, Hin.
      split; [exact Hfill|]. split.
      * intros [->|H]; [|now apply Hin].
        assert (Hnot : ~ In prev
                         (List.filter included (upto (prev + 1) k))).
        { intros H. apply filter_In in H as [H _]. apply upto_from in H. lia. }
        rewrite (Hout Hnot). unfold sel1. rewrite Z.eqb_refl.
        rewrite List.length_app. cbn [List.length].
        replace (Z.of_nat (List.length visible + 1) - 1)
          with (Z.of_nat (List.length visible)) by lia.
        split; [apply at_index_app_length|].
        rewrite List.length_app. cbn [List.length]. lia.
      * intros Hnot.
        assert (Hne : p <> prev) by (intros ->; apply Hnot; now left).
        rewrite Hout by (intros H; apply Hnot; now right).
        unfold sel1. now destruct (Z.eqb_spec p prev).
    + destruct (IH (p + 1) visible sel) as (sel' & Hfill & Hin & Hout).
      exists sel'. split; [exact Hfill|]. split; assumption.
Qed.

(** X22.  [updateParamList] lists the parameters that [shouldIncludeParam]
    accepts, in order; when none is left the slider is disabled and no
    parameter is read; otherwise the parameter that was selected stays
    selected if it is still listed, and the first one of the list is
    selected if it is not. *)
Theorem updateParamList_keeps_selection (paramCount : Z) (d : t) (prev : Z) :
  selected d = Some prev ->
  let listed := List.filter included (upto 0 (Z.to_nat paramCount)) in
  exists d',
    updateParamList getParamName includeUnnamed filter paramCount d = Some d'
    /\ visibleParams d' = listed
    /\ sliderEnabled d' = negb (Nat.eqb (List.length listed) 0)
    /\ (listed = [] -> curSel d' = -1 /\ paramNum d' = paramNum d)
    /\ (listed <> [] ->
        at_index listed (curSel d') = Some (paramNum d')
        /\ paramNum d' = (if In_dec Z.eq_dec prev listed then prev
                          else hd 0 listed)).
Proof.
  intros Hsel listed. unfold updateParamList. rewrite Hsel.
  destruct (fill_spec prev (Z.to_nat paramCount) 0 [] 0)
    as (sel' & Hfill & Hin & Hout).
  cbn [app] in Hfill, Hin. fold listed in Hfill, Hin, Hout. rewrite Hfill.
  destruct listed as [|x rest] eqn:El.
  - eexists. split; [reflexivity|].
    cbn [visibleParams curSel paramNum sliderEnabled List.length Nat.eqb negb].
    split; [reflexivity|]. split; [reflexivity|]. split.
    + intros _. rewrite (Hout (fun H => H)). split; reflexivity.
    + intros H. now contradiction H.
  - assert (Hsel' : at_index (x :: rest)
                      (ComboBox_SetCurSel (List.length (x :: rest)) sel')
                    = Some (if In_dec Z.eq_dec prev (x :: rest)
                            then prev else x)).
    { destruct (In_dec Z.eq_dec prev (x :: rest)) as [H|H].
      - destruct (Hin H) as [Hat Hrange]. unfold ComboBox_SetCurSel.
        replace ((0 <=? sel') && (sel' <? Z.of_nat (List.length (x :: rest))))
          with true; [exact Hat|].
        symmetry. apply andb_true_intro. split; [apply Z.leb_le | apply Z.ltb_lt];
          lia.
      - rewrite (Hout H). reflexivity. }
    unfold onParamChange.
    cbn [visibleParams curSel paramNum sliderEnabled]. rewrite Hsel'.
    eexists. split; [reflexivity|].
    cbn [visibleParams curSel paramNum sliderEnabled List.length Nat.eqb negb hd].
    split; [reflexivity|]. split; [reflexivity|]. split.
    + discriminate.
    + intros _. split; [exact Hsel' | reflexivity].
Qed.

End ParamListFacts.

Lemma updateParamList_keeps_selection_witness :
  let names := fun p => if (p =? 1)%Z then "- (1)"%string else "Gain"%string in
  let d := {| ParamList.visibleParams := [0; 1; 2]; ParamList.curSel := 2;
              ParamList.paramNum := 2; ParamList.sliderEnabled := true |} in
  exists d',
    ParamList.updateParamList names false "" 3 d = Some d'
    /\ ParamList.visibleParams d' = [0; 2]
    /\ ParamList.curSel d' = 1
    /\ ParamList.paramNum d' = 2.
Proof.
  cbv zeta.
  destruct (updateParamList_keeps_selection
              (fun p => if (p =? 1)%Z then "- (1)"%string else "Gain"%string)
              false ""%string 3
              {| ParamList.visibleParams := [0; 1; 2]; ParamList.curSel := 2;
                 ParamList.paramNum := 2; ParamList.sliderEnabled := true |}
              2 eq_refl)
    as (d' & Hd & _).
  exists d'. split; [exact Hd|].
  vm_compute in Hd. injection Hd as <-. repeat split.
Defined.

Section ControlTabFacts.

Import ParamList.

Lemma at_index_in_range (v : list Z) (i : Z) :
  0 <= i < Z.of_nat (List.length v) -> exists p, at_index v i = Some p.
Proof.
  intros Hi. unfold at_index.
  replace (i <? 0) with false by (symmetry; apply Z.ltb_ge; lia).
  destruct (nth_error v (Z.to_nat i)) as [p|] eqn:E; [now exists p|].
  apply nth_error_None in E. lia.
Qed.

Lemma SetCurSel_in_range (n : nat) (i : Z) :
  0 <= i < Z.of_nat n -> ComboBox_SetCurSel n i = i.
Proof.
  intros Hi. unfold ComboBox_SetCurSel.
  replace (0 <=? i) with true by (symmetry; apply Z.leb_le; lia).
  now replace (i <? Z.of_nat n) with true by (symmetry; apply Z.ltb_lt; lia).
Qed.

(** The selection after Control+Tab or Control+Shift+Tab. *)
Lemma controlTab_step (shift : bool) (d : t) :
  0 <= curSel d < Z.of_nat (List.length (visibleParams d)) ->
  exists d',
    controlTab shift d = Some d'
    /\ visibleParams d' = visibleParams d
    /\ curSel d'
       = (curSel d + (if shift then -1 else 1))
         mod Z.of_nat (List.length (visibleParams d))
    /\ at_index (visibleParams d') (curSel d') = Some (paramNum d').
Proof.
  intros Hsel. unfold controlTab.
  set (n := Z.of_nat (List.length (visibleParams d))) in *.
  set (new := if curSel d + (if shift then -1 else 1) <? 0 then n - 1
              else if curSel d + (if shift then -1 else 1) =? n then 0
                   else curSel d + (if shift then -1 else 1)).
  assert (Hnew : new = (curSel d + (if shift then -1 else 1)) mod n
                 /\ 0 <= new < n).
  { unfold new. destruct shift.
    - destruct (Z.ltb_spec (curSel d + -1) 0).
      + split; [|lia]. replace (curSel d + -1) with (-1 * n + (n - 1)) by lia.
        rewrite Z.add_comm, Z.mod_add by lia. rewrite Z.mod_small; lia.
      + destruct (Z.eqb_spec (curSel d + -1) n); [lia|].
        rewrite Z.mod_small; lia.
    - destruct (Z.ltb_spec (curSel d + 1) 0); [lia|].
      destruct (Z.eqb_spec (curSel d + 1) n) as [E|E].
      + rewrite E, Z.mod_same by lia. lia.
      + rewrite Z.mod_small; lia. }
  destruct Hnew as [Hmod Hrange].
  replace (new >=? 0) with true by (symmetry; apply Z.geb_le; lia).
  unfold onParamChange. cbn [visibleParams curSel paramNum sliderEnabled].
  rewrite (SetCurSel_in_range _ new Hrange).
  destruct (at_index_in_range (visibleParams d) new Hrange) as [p Hp].
  rewrite Hp. eexists. split; [reflexivity|].
  cbn [visibleParams curSel paramNum]. auto.
Qed.

(** X23.  Control+Tab and Control+Shift+Tab walk around the list of the
    visible parameters: from a selected parameter the selection moves one
    place forward or backward, from the last to the first and from the
    first to the last, [paramNum] becomes the parameter at the new place,
    and the other key moves the selection back to where it was. *)
Theorem controlTab_cycles (shift : bool) (d : t) :
  0 <= curSel d < Z.of_nat (List.length (visibleParams d)) ->
  exists d' d'',
    controlTab shift d = Some d'
    /\ visibleParams d' = visibleParams d
    /\ curSel d'
       = (curSel d + (if shift then -1 else 1))
         mod Z.of_nat (List.length (visibleParams d))
    /\ at_index (visibleParams d) (curSel d') = Some (paramNum d')
    /\ controlTab (negb shift) d' = Some d''
    /\ curSel d'' = curSel d.
Proof.
  intros Hsel.
  destruct (controlTab_step shift d Hsel) as (d' & Hd' & Hv & Hc & Hp).
  assert (Hsel' : 0 <= curSel d' < Z.of_nat (List.length (visibleParams d'))).
  { rewrite Hv, Hc. apply Z.mod_pos_bound. lia. }
  destruct (controlTab_step (negb shift) d' Hsel') as (d'' & Hd'' & _ & Hc' & _).
  exists d', d''. rewrite Hv in Hp, Hc'.
  repeat (split; [assumption|]).
  rewrite Hc', Hc.
  set (n := Z.of_nat (List.length (visibleParams d))) in *.
  destruct shift; cbn [negb].
  - rewrite Zplus_mod_idemp_l.
    replace (curSel d + -1 + 1) with (curSel d) by lia.
    apply Z.mod_small. lia.
  - rewrite Zplus_mod_idemp_l.
    replace (curSel d + 1 + -1) with (curSel d) by lia.
    apply Z.mod_small. lia.
Qed.

(** X24.  With no visible parameter and so no selection, Control+Shift+Tab
    leaves the dialog as it is, but Control+Tab arrives at the index 0,
    which passes the test that guards [onParamChange], and [onParamChange]
    then reads an element of the empty [visibleParams]: the behaviour is
    not defined. *)
Theorem controlTab_empty_list (d : t) :
  visibleParams d = [] -> curSel d = -1 ->
  controlTab true d = Some d /\ controlTab false d = None.
Proof.
  intros Hv Hc. unfold controlTab, onParamChange. rewrite Hv, Hc.
  split; reflexivity.
Qed.

End ControlTabFacts.

Lemma controlTab_cycles_witness :
  let d := {| ParamList.visibleParams := [4; 7; 9]; ParamList.curSel := 2;
              ParamList.paramNum := 9; ParamList.sliderEnabled := true |} in
  exists d',
    ParamList.controlTab false d = Some d'
    /\ ParamList.curSel d' = 0 /\ ParamList.paramNum d' = 4.
Proof.
  cbv zeta.
  destruct (controlTab_cycles false
              {| ParamList.visibleParams := [4; 7; 9]; ParamList.curSel := 2;
                 ParamList.paramNum := 9; ParamList.sliderEnabled := true |})
    as (d' & d'' & Hd & _).
  - cbn. lia.
  - exists d'. split; [exact Hd|].
    vm_compute in Hd. injection Hd as <-. split; reflexivity.
Defined.

Lemma controlTab_empty_list_witness :
  let d := {| ParamList.visibleParams := []; ParamList.curSel := -1;
              ParamList.paramNum := 0; ParamList.sliderEnabled := false |} in
  ParamList.controlTab true d = Some d /\ ParamList.controlTab false d = None.
Proof.
  cbv zeta. apply controlTab_empty_list; reflexivity.
Defined.

(** ** The tabs of an effect *)

Section FxTabsFacts.

Import FxTabs.

(** X25.  [maybeSwitchFxTab] walks around the tabs: from a selected tab
    it moves the focus one tab forward or backward, from the last to the
    first and from the first to the last, and the other direction moves
    it back. *)
Theorem maybeSwitchFxTab_cycles (previous : bool) (selected count : Z) :
  0 <= selected < count ->
  exists tab,
    maybeSwitchFxTab previous selected count = Some tab
    /\ tab = (selected + (if previous then -1 else 1)) mod count
    /\ 0 <= tab < count
    /\ maybeSwitchFxTab (negb previous) tab count = Some selected.
Proof.
  intros Hs. unfold maybeSwitchFxTab.
  replace (selected =? -1) with false by (symmetry; apply Z.eqb_neq; lia).
  destruct previous; cbn [negb].
  - destruct (Z.gtb_spec selected 0) as [Hpos|Hzero].
    + eexists. split; [reflexivity|].
      rewrite Z.mod_small by lia. split; [reflexivity|]. split; [lia|].
      replace (selected - 1 =? -1) with false
        by (symmetry; apply Z.eqb_neq; lia).
      replace (selected - 1 <? count - 1) with true
        by (symmetry; apply Z.ltb_lt; lia).
      f_equal. lia.
    + eexists. split; [reflexivity|].
      assert (selected = 0) as -> by lia.
      replace (0 + -1) with (-1 * count + (count - 1)) by lia.
      rewrite Z.add_comm, Z.mod_add, Z.mod_small by lia.
      split; [reflexivity|]. split; [lia|].
      replace (count - 1 =? -1) with false by (symmetry; apply Z.eqb_neq; lia).
      now rewrite Z.ltb_irrefl.
  - destruct (Z.ltb_spec selected (count - 1)) as [Hlt|Hlast].
    + eexists. split; [reflexivity|].
      rewrite Z.mod_small by lia. split; [reflexivity|]. split; [lia|].
      replace (selected + 1 =? -1) with false
        by (symmetry; apply Z.eqb_neq; lia).
      replace (selected + 1 >? 0) with true
        by (symmetry; apply Z.gtb_lt; lia).
      f_equal. lia.
    + eexists. split; [reflexivity|].
      assert (selected = count - 1) as -> by lia.
      replace (count - 1 + 1) with count by lia. rewrite Z.mod_same by lia.
      split; [reflexivity|]. split; [lia|]. reflexivity.
Qed.

End FxTabsFacts.

Lemma maybeSwitchFxTab_cycles_witness :
  FxTabs.maybeSwitchFxTab false 2 3 = Some 0
  /\ FxTabs.maybeSwitchFxTab true 0 3 = Some 2.
Proof.
  destruct (maybeSwitchFxTab_cycles false 2 3) as (tab & Hfwd & -> & _ & Hback);
    [lia|].
  split; [exact Hfwd | exact Hback].
Defined.

(** ** shortenFxName on every name *)

Section FxNameParts.

Import FxChain.

Local Open Scope string_scope.

Lemma star_lazy_sound cls s k r :
  star_lazy cls s k = Some r ->
  exists n s', s = n ++ s' /\ all cls n = true /\ k s' = Some r.
Proof.
  induction s as [|c s IH]; cbn [star_lazy]; intros H.
  - destruct (k "") eqn:E; [|discriminate]. injection H as ->.
    exists "", "". auto.
  - destruct (k (String c s)) eqn:E.
    + injection H as ->. exists "", (String c s). auto.
    + cbn [orelse] in H. destruct (cls c) eqn:Hc; [|discriminate].
      destruct (IH H) as (n & s' & -> & Hn & Hk).
      exists (String c n), s'. cbn [all append]. rewrite Hc. auto.
Qed.

Lemma consumed_all (s : string) : consumed s "" = s.
Proof. rewrite <- (app_empty_r s) at 1. apply consumed_prefix. Qed.

(** The last part of the expression matches the end of the name, or a
    parenthesised part that ends the name. *)
Lemma tail_sound whole s m0 m :
  matches TAIL whole s m0 found = Some m ->
  (s = "" /\ m = m0)
  \/ (exists q, s = " (" ++ q ++ ")" /\ m = ((3%nat, s) :: m0)%list).
Proof.
  unfold TAIL. cbn [matches]. intros H.
  destruct s as [|c1 s]; [left; split; [reflexivity | now injection H]|].
  right.
  destruct (Ascii.eqb_spec " " c1) as [<-|]; [|discriminate].
  destruct s as [|c2 s]; [discriminate|].
  destruct (Ascii.eqb_spec "(" c2) as [<-|]; [|discriminate].
  match type of H with
  | orelse ?x None = _ => destruct x as [m'|] eqn:E; [|discriminate]
  end.
  cbn [orelse] in H. injection H as ->.
  apply star_lazy_sound in E. destruct E as (q & s' & -> & _ & Hk).
  destruct s' as [|c3 s']; [discriminate|].
  destruct (Ascii.eqb_spec ")" c3) as [<-|]; [|discriminate].
  destruct s' as [|c4 s']; [|discriminate].
  injection Hk as <-. exists q. rewrite consumed_all. auto.
Qed.

(** The groups of a match of [RE_FX_NAME]. *)
Lemma regex_search_groups name m :
  regex_search name RE_FX_NAME = Some m ->
  exists w n t,
    name = w ++ ": " ++ n ++ t
    /\ w <> "" /\ n <> ""
    /\ (t = "" \/ exists q, t = " (" ++ q ++ ")")
    /\ str m 1 = w /\ str m 2 = n /\ str m 3 = t.
Proof.
  unfold regex_search. rewrite RE_FX_NAME_eq. intros H.
  assert (Hhead : matches
            (Cat Bol (Cat (Group 1 (PlusGreedy is_word)) (Cat (Lit ":")
               (Cat (Lit " ") (Cat (Group 2 (PlusLazy is_any)) TAIL)))))
            name name [] found = Some m).
  { destruct name as [|c name]; cbn [search_from] in H.
    - now destruct (matches _ "" "" [] found).
    - rewrite search_from_later in H by (cbn [String.length]; lia).
      now destruct (matches _ _ _ [] found). }
  clear H. cbn [matches] in Hhead. rewrite Nat.eqb_refl in Hhead.
  destruct name as [|c name]; [discriminate|].
  cbn [plus_greedy] in Hhead. destruct (is_word c) eqn:Hc; [|discriminate].
  apply star_greedy_sound in Hhead.
  destruct Hhead as (w & s' & -> & Hw & Hk).
  destruct s' as [|c1 [|c2 r]]; try discriminate.
  { destruct (Ascii.eqb ":" c1); discriminate. }
  destruct (Ascii.eqb_spec ":" c1) as [<-|]; [|discriminate].
  destruct (Ascii.eqb_spec " " c2) as [<-|]; [|discriminate].
  change (String c (w ++ String ":" (String " " r)))
    with (String c w ++ ": " ++ r) in Hk.
  change (String ":" (String " " r)) with (": " ++ r) in Hk.
  rewrite consumed_prefix in Hk.
  destruct r as [|x r]; [discriminate|]. cbn [plus_lazy] in Hk.
  destruct (is_any x) eqn:Hx; [|discriminate].
  apply star_lazy_sound in Hk. destruct Hk as (n & t & -> & _ & Hk).
  change (String x (n ++ t)) with (String x n ++ t) in Hk.
  rewrite consumed_prefix in Hk.
  exists (String c w), (String x n), t.
  split; [reflexivity|]. split; [discriminate|]. split; [discriminate|].
  apply tail_sound in Hk. destruct Hk as [[-> ->]|(q & -> & ->)].
  - split; [now left|]. repeat split.
  - split; [right; now exists q|]. repeat split.
Qed.

(** X26.  [shortenFxName] on any name: either it writes the name as it
    is, or the name is a prefix, a colon and a space, a part that is not
    empty, and an end that is empty or in parentheses, and it writes that
    part, followed by the end for the prefix JS.  So what it writes is
    never longer than the name, and is empty only for the empty name. *)
Theorem shortenFxName_parts (name : string) :
  (shortenFxName name = name
   \/ exists w n t,
        name = w ++ ": " ++ n ++ t
        /\ w <> "" /\ n <> ""
        /\ (t = "" \/ exists q, t = " (" ++ q ++ ")")
        /\ shortenFxName name = n ++ (if String.eqb w "JS" then t else ""))
  /\ (String.length (shortenFxName name) <= String.length name)%nat
  /\ (shortenFxName name = "" <-> name = "").
Proof.
  assert (H : shortenFxName name = name
   \/ exists w n t,
        name = w ++ ": " ++ n ++ t
        /\ w <> "" /\ n <> ""
        /\ (t = "" \/ exists q, t = " (" ++ q ++ ")")
        /\ shortenFxName name = n ++ (if String.eqb w "JS" then t else "")).
  { unfold shortenFxName.
    destruct (regex_search name RE_FX_NAME) as [m|] eqn:E; [|now left].
    right. destruct (regex_search_groups name m E)
      as (w & n & t & Hname & Hw & Hn & Ht & H1 & H2 & H3).
    exists w, n, t. rewrite H1, H2, H3. auto. }
  split; [exact H|].
  destruct H as [->|(w & n & t & Hname & Hw & Hn & Ht & ->)].
  - split; [lia | reflexivity].
  - split.
    + rewrite Hname, !length_app.
      destruct (String.eqb w "JS"); rewrite ?length_app; cbn [String.length];
        lia.
    + split.
      * intros E. destruct n; [contradiction | discriminate].
      * intros E. rewrite E in Hname. destruct w; [contradiction | discriminate].
Qed.

End FxNameParts.

(** ** The list of presets *)

Section PresetFacts.

Import Presets.

Variable filter : string.

Lemma insert_from_items (oldSel : Z) (texts : list string) : forall i,
  0 <= i ->
  Forall (fun item =>
            i <= lParam item
            /\ nth_error texts (Z.to_nat (lParam item - i))
               = Some (pszText item)
            /\ Filter.shouldIncludePreset filter (pszText item) = true
            /\ selected item = (lParam item =? oldSel))
    (insert_from filter oldSel i texts).
Proof.
  induction texts as [|text rest IH]; intros i Hi; cbn [insert_from];
    [constructor|].
  assert (Hrest : Forall (fun item =>
            i <= lParam item
            /\ nth_error (text :: rest) (Z.to_nat (lParam item - i))
               = Some (pszText item)
            /\ Filter.shouldIncludePreset filter (pszText item) = true
            /\ selected item = (lParam item =? oldSel))
    (insert_from filter oldSel (i + 1) rest)).
  { eapply Forall_impl; [|apply (IH (i + 1)); lia].
    intros item (Hle & Hnth & Hinc & Hsel).
    split; [lia|]. split; [|auto].
    replace (Z.to_nat (lParam item - i))
      with (S (Z.to_nat (lParam item - (i + 1)))) by lia.
    exact Hnth. }
  destruct (Filter.shouldIncludePreset filter text) eqn:Hinc; cbn [negb];
    [|exact Hrest].
  constructor; [|exact Hrest].
  cbn [lParam pszText selected]. rewrite Z.sub_diag.
  split; [lia|]. auto.
Qed.

Lemma insert_from_complete (oldSel : Z) (texts : list string) :
  forall i k text,
    nth_error texts k = Some text ->
    Filter.shouldIncludePreset filter text = true ->
    In (i + Z.of_nat k) (map lParam (insert_from filter oldSel i texts)).
Proof.
  induction texts as [|t rest IH]; intros i k text Hnth Hinc.
  - destruct k; discriminate.
  - cbn [insert_from]. destruct k as [|k].
    + injection Hnth as ->. rewrite Hinc. cbn [negb map lParam].
      left. lia.
    + cbn [nth_error] in Hnth.
      replace (i + Z.of_nat (S k)) with (i + 1 + Z.of_nat k) by lia.
      destruct (Filter.shouldIncludePreset filter t); cbn [negb map].
      * right. now apply (IH (i + 1) k text).
      * now apply (IH (i + 1) k text).
Qed.

Lemma getSelectedPreset_marked (oldSel : Z) (l : list Item) :
  Forall (fun item => selected item = (lParam item =? oldSel)) l ->
  getSelectedPreset l
  = if existsb (Z.eqb oldSel) (map lParam l) then oldSel else -1.
Proof.
  induction 1 as [|item rest Hsel _ IH]; [reflexivity|].
  cbn [getSelectedPreset map existsb]. rewrite Hsel, (Z.eqb_sym oldSel).
  destruct (Z.eqb_spec (lParam item) oldSel) as [E|_]; [exact E | exact IH].
Qed.

(** X27.  [updateList] keeps with every item of the list the index of the
    preset of that text in REAPER's combo box, lists every preset that
    the filter accepts, and keeps the selection: the selected preset (or
    the one selected in the combo box when none is) is the selected item
    again if it is listed, so [applyPreset] selects that preset in the
    combo box; if it is not listed nothing is selected and [applyPreset]
    leaves the combo box as it is. *)
Theorem updateList_keeps_preset (combo : list string) (comboSel : Z)
  (view : list Item) :
  let oldSel :=
    if getSelectedPreset view =? -1 then comboSel
    else getSelectedPreset view in
  let view' := updateList filter combo comboSel view in
  Forall (fun item =>
            0 <= lParam item
            /\ nth_error combo (Z.to_nat (lParam item)) = Some (pszText item)
            /\ Filter.shouldIncludePreset filter (pszText item) = true)
    view'
  /\ (forall k text,
        nth_error combo k = Some text ->
        Filter.shouldIncludePreset filter text = true ->
        In (Z.of_nat k) (map lParam view'))
  /\ getSelectedPreset view'
     = (if existsb (Z.eqb oldSel) (map lParam view') then oldSel else -1)
  /\ applyPreset view' comboSel
     = (if existsb (Z.eqb oldSel) (map lParam view') then oldSel
        else comboSel).
Proof.
  cbv zeta. unfold updateList.
  set (oldSel := if getSelectedPreset view =? -1 then comboSel
                 else getSelectedPreset view).
  pose proof (insert_from_items oldSel combo 0 (Z.le_refl 0)) as Hitems.
  assert (Hsel : getSelectedPreset (insert_from filter oldSel 0 combo)
                 = if existsb (Z.eqb oldSel)
                        (map lParam (insert_from filter oldSel 0 combo))
                   then oldSel else -1).
  { apply getSelectedPreset_marked. eapply Forall_impl; [|exact Hitems].
    now intros item (_ & _ & _ & H). }
  split; [|split; [|split]].
  - eapply Forall_impl; [|exact Hitems].
    intros item (Hle & Hnth & Hinc & _). rewrite Z.sub_0_r in Hnth. auto.
  - intros k text Hnth Hinc.
    exact (insert_from_complete oldSel combo 0 k text Hnth Hinc).
  - exact Hsel.
  - unfold applyPreset. rewrite Hsel.
    destruct (existsb (Z.eqb oldSel)
                (map lParam (insert_from filter oldSel 0 combo))) eqn:E;
      [|reflexivity].
    destruct (Z.eqb_spec oldSel (-1)) as [Hminus|]; [|reflexivity].
    exfalso. apply existsb_exists in E as (x & Hin & Hx).
    apply Z.eqb_eq in Hx. subst x. apply in_map_iff in Hin as (item & E & Hin).
    rewrite Forall_forall in Hitems. apply Hitems in Hin. lia.
Qed.

End PresetFacts.

Lemma filter_ignores_case_witness :
  Filter.shouldIncludePreset
    match Filter.onFilterChange "" "EQ" with Some text => text | None => ""%string end
    "VST: ReaEQ (Cockos)" = true.
Proof.
  destruct (filter_ignores_case "" "EQ" "VST: ReaEQ (Cockos)")
    as (_ & _ & _ & _ & H).
  exact (H "VST: Rea"%string "EQ"%string " (Cockos)"%string eq_refl eq_refl).
Defined.

Lemma updateList_keeps_preset_witness :
  In 2 (map Presets.lParam
          (Presets.updateList "r" ["Default"; "Bright"; "Dark"]%string 1 []))
  /\ Presets.getSelectedPreset
       (Presets.updateList "r" ["Default"; "Bright"; "Dark"]%string 1 []) = 1.
Proof.
  destruct (updateList_keeps_preset "r" ["Default"; "Bright"; "Dark"]%string 1 [])
    as (_ & Hlisted & Hsel & _).
  split.
  - exact (Hlisted 2%nat "Dark"%string eq_refl eq_refl).
  - exact Hsel.
Defined.
